(** * pylox: a shallow embedding of the tree-walking Lox interpreter

    The development follows the Python sources file by file:
    [token_type.py], [environment.py], [expressions.py], [statements.py],
    [scanner.py], [parser.py], [resolver.py], [interpreter.py], [pylox.py].

    Python objects that are compared or mutated by reference (environments,
    function objects, classes, instances) live in explicit stores and are
    denoted by their allocation index; dictionaries are [gmap]s. *)

From Stdlib Require Import ZArith String Ascii List Bool Lia.
From Stdlib Require Import Floats.SpecFloat.
From stdpp Require Import base option list gmap strings pretty sorting.

Set Warnings "-register-all".

Open Scope string_scope.
Open Scope list_scope.

(** ** Numbers: Python [float], an IEEE-754 binary64 *)

Definition prec : Z := 53.
Definition emax : Z := 1024.
Definition float := spec_float.

Definition float_add : float -> float -> float := SFadd prec emax.
Definition float_sub : float -> float -> float := SFsub prec emax.
Definition float_mul : float -> float -> float := SFmul prec emax.
Definition float_div : float -> float -> float := SFdiv prec emax.
Definition float_neg : float -> float := SFopp.
Definition float_eq : float -> float -> bool := SFeqb.
Definition float_lt : float -> float -> bool := SFltb.
Definition float_le : float -> float -> bool := SFleb.
Definition float_gt (x y : float) : bool := SFltb y x.
Definition float_ge (x y : float) : bool := SFleb y x.

(** The float nearest to the integer [z] (exact below 2^53). *)
Definition float_of_Z (z : Z) : float := binary_normalize prec emax z 0 false.

Definition float_zero : float := S754_zero false.

(** ** Runtime values

    [None], [bool], [float], [str] are immutable Python values.  The
    [ClockFunction] object is created once per interpreter.  [LoxFunction],
    [LoxClass] and [LoxInstance] objects are denoted by their index in the
    interpreter's stores, which is their identity. *)

Inductive Value :=
| VNil
| VBool (b : bool)
| VNum (x : float)
| VStr (s : string)
| VClock
| VFunction (ref : nat)
| VClass (ref : nat)
| VInstance (ref : nat).

(** ** token_type.py *)

Inductive TokenType :=
| AND | CLASS | ELSE | FALSE | FUN | FOR | IF | NIL | OR | PRINT | RETURN
| SUPER | THIS | TRUE | VAR | WHILE
| LEFT_PAREN | RIGHT_PAREN | LEFT_BRACE | RIGHT_BRACE | COMMA | DOT | MINUS
| PLUS | SEMICOLON | SLASH | STAR
| BANG | BANG_EQUAL | EQUAL | EQUAL_EQUAL | GREATER | GREATER_EQUAL | LESS
| LESS_EQUAL
| IDENTIFIER | STRING | NUMBER
| EOF.

(** [auto()] numbers the members 1, 2, ... in declaration order; two members
    are equal when their numbers are. *)
Definition TokenType_value (t : TokenType) : nat :=
  match t with
  | AND => 1 | CLASS => 2 | ELSE => 3 | FALSE => 4 | FUN => 5 | FOR => 6
  | IF => 7 | NIL => 8 | OR => 9 | PRINT => 10 | RETURN => 11 | SUPER => 12
  | THIS => 13 | TRUE => 14 | VAR => 15 | WHILE => 16
  | LEFT_PAREN => 17 | RIGHT_PAREN => 18 | LEFT_BRACE => 19
  | RIGHT_BRACE => 20 | COMMA => 21 | DOT => 22 | MINUS => 23 | PLUS => 24
  | SEMICOLON => 25 | SLASH => 26 | STAR => 27
  | BANG => 28 | BANG_EQUAL => 29 | EQUAL => 30 | EQUAL_EQUAL => 31
  | GREATER => 32 | GREATER_EQUAL => 33 | LESS => 34 | LESS_EQUAL => 35
  | IDENTIFIER => 36 | STRING => 37 | NUMBER => 38
  | EOF => 39
  end.

Definition TokenType_eqb (a b : TokenType) : bool :=
  Nat.eqb (TokenType_value a) (TokenType_value b).

Record Token := mkToken {
  type : TokenType;
  lexeme : string;
  literal : Value;
  line : nat
}.

(** ** Exceptions

    [interpreter.py] and [environment.py] each define their own class named
    [RuntimeError]; the two classes are unrelated, so an [except RuntimeError]
    written in [interpreter.py] catches only the first.  [KeyError],
    [AttributeError], [IndexError] are Python's own.  [OutOfFuel] stands for a
    computation cut off by the step bound of the model (it is never caught),
    and [Dangling] for a reference outside its store, which no Python object
    reference can be. *)

Inductive Exception :=
| RuntimeError (token : Token) (message : string)
| EnvRuntimeError (token : Token) (message : string)
| ReturnException (value : Value)
| ParseError
| KeyError
| AttributeError
| IndexError
| OutOfFuel
| Dangling.

Inductive Outcome (A : Type) :=
| Ok (a : A)
| Raise (e : Exception).
Arguments Ok {A} a.
Arguments Raise {A} e.

(** State-and-exception monad shared by the parser, the resolver and the
    interpreter: a raised exception keeps the state reached so far. *)
Definition M (S A : Type) : Type := S -> Outcome A * S.

Definition ret {S A} (a : A) : M S A := fun s => (Ok a, s).
Definition raise {S A} (e : Exception) : M S A := fun s => (Raise e, s).
Definition bind {S A B} (m : M S A) (k : A -> M S B) : M S B :=
  fun s => match m s with
           | (Ok a, s') => k a s'
           | (Raise e, s') => (Raise e, s')
           end.
Definition gets {S A} (f : S -> A) : M S A := fun s => (Ok (f s), s).
Definition modify {S} (f : S -> S) : M S unit := fun s => (Ok tt, f s).
Definition lift {S A} (o : Outcome A) : M S A := fun s => (o, s).

Declare Scope monad_scope.
Delimit Scope monad_scope with monad.
Notation "x <- m ;; k" := (bind m (fun x => k))
  (at level 100, m at next level, right associativity) : monad_scope.
Notation "m ;;; k" := (bind m (fun _ => k))
  (at level 100, right associativity) : monad_scope.
Open Scope monad_scope.

(** [for x in xs: body(x)] *)
Fixpoint for_each {S A} (body : A -> M S unit) (xs : list A) : M S unit :=
  match xs with
  | [] => ret tt
  | x :: rest => body x ;;; for_each body rest
  end.

(** [ys = []; for x in xs: ys.append(f(x))] *)
Fixpoint map_each {S A B} (f : A -> M S B) (xs : list A) : M S (list B) :=
  match xs with
  | [] => ret []
  | x :: rest => y <- f x ;; ys <- map_each f rest ;; ret (y :: ys)
  end.

(** ** environment.py *)

Record Environment := mkEnvironment {
  enclosing : option nat;
  values : gmap string Value
}.

(** The store of all [Environment] objects created so far. *)
Abbreviation EnvStore := (list Environment).

Module Env.

(** [Environment(enclosing)]: a fresh object with an empty dictionary. *)
Definition new (envs : EnvStore) (parent : option nat) : EnvStore * nat :=
  (envs ++ [mkEnvironment parent ∅], length envs).

Definition define (envs : EnvStore) (self : nat) (name : string) (value : Value)
  : EnvStore :=
  match envs !! self with
  | Some e => <[self := mkEnvironment (enclosing e) (<[name := value]> (values e))]> envs
  | None => envs
  end.

(** [get] follows [enclosing] until the name is found.  The chain is finite
    (an environment encloses only environments created before it), so the
    walk is bounded by the size of the store. *)
Fixpoint get_from (bound : nat) (envs : EnvStore) (self : nat) (name : Token)
  : Outcome Value :=
  match envs !! self with
  | None => Raise Dangling
  | Some e =>
      match values e !! lexeme name with
      | Some v => Ok v
      | None =>
          match enclosing e, bound with
          | Some parent, S bound' => get_from bound' envs parent name
          | Some _, O => Raise OutOfFuel
          | None, _ =>
              Raise (EnvRuntimeError name
                       ("Undefined variable '" +:+ lexeme name +:+ "'."))
          end
      end
  end.

Definition get (envs : EnvStore) (self : nat) (name : Token) : Outcome Value :=
  get_from (length envs) envs self name.

Fixpoint assign_from (bound : nat) (envs : EnvStore) (self : nat) (name : Token)
    (value : Value) : Outcome EnvStore :=
  match envs !! self with
  | None => Raise Dangling
  | Some e =>
      match values e !! lexeme name with
      | Some _ => Ok (define envs self (lexeme name) value)
      | None =>
          match enclosing e, bound with
          | Some parent, S bound' => assign_from bound' envs parent name value
          | Some _, O => Raise OutOfFuel
          | None, _ =>
              Raise (EnvRuntimeError name
                       ("Undefined variable '" +:+ lexeme name +:+ "'."))
          end
      end
  end.

Definition assign (envs : EnvStore) (self : nat) (name : Token) (value : Value)
  : Outcome EnvStore :=
  assign_from (length envs) envs self name value.

(** [ancestor]: [distance] times [environment = environment.enclosing],
    starting from [self].  The variable may become [None] on the last hop;
    a further hop from [None] is an [AttributeError]. *)
Fixpoint ancestor_from (envs : EnvStore) (environment : option nat)
    (distance : nat) : Outcome (option nat) :=
  match distance with
  | O => Ok environment
  | S d =>
      match environment with
      | None => Raise AttributeError
      | Some r =>
          match envs !! r with
          | Some e => ancestor_from envs (enclosing e) d
          | None => Raise Dangling
          end
      end
  end.

Definition ancestor (envs : EnvStore) (self : nat) (distance : nat)
  : Outcome (option nat) :=
  ancestor_from envs (Some self) distance.

(** [self.ancestor(distance).values[name]] *)
Definition get_at (envs : EnvStore) (self : nat) (distance : nat) (name : string)
  : Outcome Value :=
  match ancestor envs self distance with
  | Raise e => Raise e
  | Ok None => Raise AttributeError
  | Ok (Some r) =>
      match envs !! r with
      | None => Raise Dangling
      | Some e =>
          match values e !! name with
          | Some v => Ok v
          | None => Raise KeyError
          end
      end
  end.

(** [self.ancestor(distance).values[name.lexeme] = value] *)
Definition assign_at (envs : EnvStore) (self : nat) (distance : nat)
    (name : Token) (value : Value) : Outcome EnvStore :=
  match ancestor envs self distance with
  | Raise e => Raise e
  | Ok None => Raise AttributeError
  | Ok (Some r) =>
      match envs !! r with
      | None => Raise Dangling
      | Some _ => Ok (define envs r (lexeme name) value)
      end
  end.

End Env.

(** ** expressions.py

    The resolver's side table is keyed by the identity of the expression
    object (the classes define neither [__eq__] nor [__hash__]).  Only
    [Variable], [Assign], [This] and [Super] objects are ever used as keys;
    they carry the number [node] the parser gave them at construction. *)

Module Expr.

Inductive t :=
| Binary (left : t) (operator : Token) (right : t)
| Grouping (expression : t)
| Literal (value : Value)
| Unary (operator : Token) (right : t)
| Variable_ (node : nat) (name : Token)
| Assign (node : nat) (name : Token) (value : t)
| Logical (left : t) (operator : Token) (right : t)
| Call (callee : t) (paren : Token) (arguments : list t)
| Get (object : t) (name : Token)
| Set_ (object : t) (name : Token) (value : t)
| This (node : nat) (keyword : Token)
| Super (node : nat) (keyword : Token) (method : Token).

End Expr.

(** ** statements.py

    Statement lists hold [None] where the parser skipped a declaration. *)

Module Stmt.

Inductive t :=
| Expression (expression : Expr.t)
| Print (expression : Expr.t)
| Var (name : Token) (initializer : option Expr.t)
| Block (statements : list (option t))
| If (condition : Expr.t) (then_branch : t) (else_branch : option t)
| While (condition : Expr.t) (body : t)
| Function (declaration : Function_t)
| Return (keyword : Token) (value : option Expr.t)
| Class (name : Token) (superclass : option (nat * Token))
        (methods : list Function_t)
with Function_t :=
| mkFunction (name : Token) (params : list Token) (body : list (option t)).

Definition name (f : Function_t) : Token :=
  match f with mkFunction n _ _ => n end.
Definition params (f : Function_t) : list Token :=
  match f with mkFunction _ p _ => p end.
Definition body (f : Function_t) : list (option t) :=
  match f with mkFunction _ _ b => b end.

End Stmt.

(** ** interpreter.py: runtime objects *)

Record LoxFunction := mkLoxFunction {
  declaration : Stmt.Function_t;
  closure : nat;
  is_initializer : bool
}.

Record LoxClass := mkLoxClass {
  class_name : string;
  superclass : option nat;
  methods : gmap string nat
}.

Record LoxInstance := mkLoxInstance {
  klass : nat;
  fields : gmap string Value
}.

(** The interpreter object together with the objects reachable from it and
    the lines printed so far. *)
Record Interpreter := mkInterpreter {
  envs : EnvStore;
  functions : list LoxFunction;
  classes : list LoxClass;
  instances : list LoxInstance;
  globals : nat;
  environment : nat;
  locals : gmap nat nat;
  stdout : list string;
  clock_calls : nat
}.

Definition set_envs (f : EnvStore -> EnvStore) (i : Interpreter) : Interpreter :=
  mkInterpreter (f (envs i)) (functions i) (classes i) (instances i)
    (globals i) (environment i) (locals i) (stdout i) (clock_calls i).
Definition set_functions (f : list LoxFunction -> list LoxFunction)
    (i : Interpreter) : Interpreter :=
  mkInterpreter (envs i) (f (functions i)) (classes i) (instances i)
    (globals i) (environment i) (locals i) (stdout i) (clock_calls i).
Definition set_classes (f : list LoxClass -> list LoxClass)
    (i : Interpreter) : Interpreter :=
  mkInterpreter (envs i) (functions i) (f (classes i)) (instances i)
    (globals i) (environment i) (locals i) (stdout i) (clock_calls i).
Definition set_instances (f : list LoxInstance -> list LoxInstance)
    (i : Interpreter) : Interpreter :=
  mkInterpreter (envs i) (functions i) (classes i) (f (instances i))
    (globals i) (environment i) (locals i) (stdout i) (clock_calls i).
Definition set_environment (e : nat) (i : Interpreter) : Interpreter :=
  mkInterpreter (envs i) (functions i) (classes i) (instances i)
    (globals i) e (locals i) (stdout i) (clock_calls i).
Definition set_locals (f : gmap nat nat -> gmap nat nat)
    (i : Interpreter) : Interpreter :=
  mkInterpreter (envs i) (functions i) (classes i) (instances i)
    (globals i) (environment i) (f (locals i)) (stdout i) (clock_calls i).
Definition set_stdout (f : list string -> list string)
    (i : Interpreter) : Interpreter :=
  mkInterpreter (envs i) (functions i) (classes i) (instances i)
    (globals i) (environment i) (locals i) (f (stdout i)) (clock_calls i).
Definition set_clock_calls (n : nat) (i : Interpreter) : Interpreter :=
  mkInterpreter (envs i) (functions i) (classes i) (instances i)
    (globals i) (environment i) (locals i) (stdout i) n.

(** [print(text)] *)
Definition print {S} (out : (list string -> list string) -> S -> S)
    (text : string) : M S unit :=
  modify (out (fun lines => lines ++ [text])).

(** [Interpreter.__init__] *)
Definition Interpreter_init : Interpreter :=
  mkInterpreter [mkEnvironment None {["clock" := VClock]}] [] [] [] 0 0 ∅ [] 0.

(** Object construction: the new object is appended to its store. *)
Definition new_Environment (parent : nat) : M Interpreter nat :=
  fun i => (Ok (length (envs i)),
            set_envs (fun es => fst (Env.new es (Some parent))) i).
Definition new_LoxFunction (f : LoxFunction) : M Interpreter nat :=
  fun i => (Ok (length (functions i)), set_functions (fun fs => fs ++ [f]) i).
Definition new_LoxClass (c : LoxClass) : M Interpreter nat :=
  fun i => (Ok (length (classes i)), set_classes (fun cs => cs ++ [c]) i).
Definition new_LoxInstance (k : nat) : M Interpreter nat :=
  fun i => (Ok (length (instances i)),
            set_instances (fun os => os ++ [mkLoxInstance k ∅]) i).

Definition the {A} (o : option A) : M Interpreter A :=
  match o with Some a => ret a | None => raise Dangling end.

(** Environment methods on the interpreter's store. *)
Definition env_define (self : nat) (name : string) (value : Value)
  : M Interpreter unit :=
  modify (set_envs (fun es => Env.define es self name value)).
Definition env_get (self : nat) (name : Token) : M Interpreter Value :=
  fun i => (Env.get (envs i) self name, i).
Definition env_get_at (self distance : nat) (name : string)
  : M Interpreter Value :=
  fun i => (Env.get_at (envs i) self distance name, i).
Definition env_assign (self : nat) (name : Token) (value : Value)
  : M Interpreter unit :=
  fun i => match Env.assign (envs i) self name value with
           | Ok es => (Ok tt, set_envs (fun _ => es) i)
           | Raise e => (Raise e, i)
           end.
Definition env_assign_at (self distance : nat) (name : Token) (value : Value)
  : M Interpreter unit :=
  fun i => match Env.assign_at (envs i) self distance name value with
           | Ok es => (Ok tt, set_envs (fun _ => es) i)
           | Raise e => (Raise e, i)
           end.

(** [LoxClass.find_method]: own table first, then the superclass.  A class's
    superclass was created before it, so the walk is bounded by the size of
    the class store. *)
Fixpoint find_method_from (bound : nat) (cs : list LoxClass) (self : nat)
    (name : string) : option nat :=
  match cs !! self with
  | None => None
  | Some c =>
      match methods c !! name with
      | Some f => Some f
      | None =>
          match superclass c, bound with
          | Some parent, S bound' => find_method_from bound' cs parent name
          | _, _ => None
          end
      end
  end.

Definition find_method (self : nat) (name : string) : M Interpreter (option nat) :=
  gets (fun i => find_method_from (length (classes i)) (classes i) self name).

(** [LoxFunction.bind] *)
Definition LoxFunction_bind (self : nat) (instance : Value) : M Interpreter nat :=
  f <- (fs <- gets functions ;; the (fs !! self)) ;;
  environment <- new_Environment (closure f) ;;
  env_define environment "this" instance ;;;
  new_LoxFunction (mkLoxFunction (declaration f) environment (is_initializer f)).

(** [LoxFunction.arity], [LoxClass.arity], [ClockFunction.arity] *)
Definition LoxFunction_arity (self : nat) : M Interpreter nat :=
  f <- (fs <- gets functions ;; the (fs !! self)) ;;
  ret (length (Stmt.params (declaration f))).

Definition LoxClass_arity (self : nat) : M Interpreter nat :=
  initializer <- find_method self "init" ;;
  match initializer with
  | None => ret 0
  | Some f => LoxFunction_arity f
  end.

(** [LoxInstance.get] *)
Definition LoxInstance_get (self : nat) (name : Token) : M Interpreter Value :=
  o <- (os <- gets instances ;; the (os !! self)) ;;
  match fields o !! lexeme name with
  | Some v => ret v
  | None =>
      method <- find_method (klass o) (lexeme name) ;;
      match method with
      | Some m => f <- LoxFunction_bind m (VInstance self) ;; ret (VFunction f)
      | None =>
          raise (RuntimeError name
                   ("Undefined property '" +:+ lexeme name +:+ "'."))
      end
  end.

(** [LoxInstance.set] *)
Definition LoxInstance_set (self : nat) (name : Token) (value : Value)
  : M Interpreter unit :=
  modify (set_instances (fun os =>
    match os !! self with
    | Some o => <[self := mkLoxInstance (klass o) (<[lexeme name := value]> (fields o))]> os
    | None => os
    end)).

(** ** interpreter.py: value conventions *)

(** [Interpreter.is_truthy] *)
Definition is_truthy (obj : Value) : bool :=
  match obj with
  | VNil => false
  | VBool b => b
  | _ => true
  end.

(** Python's [a == b] on the objects that represent Lox values.  [bool] is a
    subclass of [int], and an [int] compares with a [float] by numeric value,
    so [True == 1.0] and [False == 0.0] hold.  The runtime classes define no
    [__eq__], hence compare by identity. *)
Definition py_eq (a b : Value) : bool :=
  match a, b with
  | VNil, VNil => true
  | VBool x, VBool y => Bool.eqb x y
  | VBool x, VNum y => float_eq (float_of_Z (if x then 1 else 0)) y
  | VNum x, VBool y => float_eq x (float_of_Z (if y then 1 else 0))
  | VNum x, VNum y => float_eq x y
  | VStr x, VStr y => String.eqb x y
  | VClock, VClock => true
  | VFunction x, VFunction y => Nat.eqb x y
  | VClass x, VClass y => Nat.eqb x y
  | VInstance x, VInstance y => Nat.eqb x y
  | _, _ => false
  end.

Definition is_None (a : Value) : bool :=
  match a with VNil => true | _ => false end.

(** [Interpreter.is_equal] *)
Definition is_equal (a b : Value) : bool :=
  if is_None a && is_None b then true
  else if is_None a then false
  else py_eq a b.

(** [isinstance(v, float)], [isinstance(v, str)], [isinstance(v, LoxCallable)] *)
Definition is_float (v : Value) : bool :=
  match v with VNum _ => true | _ => false end.
Definition is_str (v : Value) : bool :=
  match v with VStr _ => true | _ => false end.
Definition is_LoxCallable (v : Value) : bool :=
  match v with VClock | VFunction _ | VClass _ => true | _ => false end.

(** [text.endswith(".0")] and [text[:-2]] *)
Definition ends_with_dot_zero (text : string) : bool :=
  Nat.leb 2 (String.length text)
  && String.eqb (substring (String.length text - 2) 2 text) ".0".
Definition drop_last_two (text : string) : string :=
  substring 0 (String.length text - 2) text.

(** [Interpreter.check_number_operand]: passes on a [float], whose value the
    caller then reads back with [float(operand)]. *)
Definition check_number_operand (operator : Token) (operand : Value)
  : M Interpreter float :=
  match operand with
  | VNum x => ret x
  | _ => raise (RuntimeError operator "Operand must be a number.")
  end.

(** [Interpreter.check_number_operands] *)
Definition check_number_operands (operator : Token) (left right : Value)
  : M Interpreter (float * float) :=
  match left, right with
  | VNum x, VNum y => ret (x, y)
  | _, _ => raise (RuntimeError operator "Operands must be numbers.")
  end.

Section Host.

(** Python's [str] on a [float] (the shortest decimal that reads back as
    the same float, e.g. ["3.0"], ["0.1"], ["1e+16"], ["inf"], ["nan"]). *)
Variable float_str : float -> string.

(** The successive readings of [time.time()]. *)
Variable time_time : nat -> float.

(** [Interpreter.stringify]; the last case is [str(obj)], that is the
    object's [__str__]. *)
Definition stringify (obj : Value) : M Interpreter string :=
  match obj with
  | VNil => ret "nil"
  | VBool b => ret (if b then "true" else "false")
  | VNum x =>
      let text := float_str x in
      ret (if ends_with_dot_zero text then drop_last_two text else text)
  | VStr s => ret s
  | VClock => ret "<native fn>"
  | VFunction r =>
      f <- (fs <- gets functions ;; the (fs !! r)) ;;
      ret ("<fn " +:+ lexeme (Stmt.name (declaration f)) +:+ ">")
  | VClass r =>
      c <- (cs <- gets classes ;; the (cs !! r)) ;;
      ret ("<class " +:+ class_name c +:+ ">")
  | VInstance r =>
      o <- (os <- gets instances ;; the (os !! r)) ;;
      c <- (cs <- gets classes ;; the (cs !! klass o)) ;;
      ret ("<" +:+ class_name c +:+ " instance>")
  end.

(** *** Expression visitors

    A visitor method reaches the other methods through [self.evaluate] and
    [self.execute]; here these two are its first arguments. *)

Section Visitors.

Variable evaluate : Expr.t -> M Interpreter Value.
Variable execute : Stmt.t -> M Interpreter unit.

(** [Interpreter.execute_block]: the [finally] clause restores the
    current environment however the statements end. *)
Definition execute_block (statements : list (option Stmt.t))
    (environment' : nat) : M Interpreter unit :=
  fun i =>
    let previous := environment i in
    let '(r, i') :=
      for_each (fun statement =>
                  match statement with
                  | Some s => execute s
                  | None => ret tt
                  end) statements (set_environment environment' i) in
    (r, set_environment previous i').

(** [for i, param in enumerate(params):
       environment.define(param.lexeme, arguments[i])] *)
Fixpoint define_params (environment' : nat) (params : list Token)
    (arguments : list Value) (i : nat) : M Interpreter unit :=
  match params with
  | [] => ret tt
  | param :: rest =>
      match arguments !! i with
      | Some a =>
          env_define environment' (lexeme param) a ;;;
          define_params environment' rest arguments (S i)
      | None => raise IndexError
      end
  end.

(** [LoxFunction.call] *)
Definition LoxFunction_call (self : nat) (arguments : list Value)
  : M Interpreter Value :=
  f <- (fs <- gets functions ;; the (fs !! self)) ;;
  environment' <- new_Environment (closure f) ;;
  define_params environment' (Stmt.params (declaration f)) arguments 0 ;;;
  fun i =>
    match execute_block (Stmt.body (declaration f)) environment' i with
    | (Raise (ReturnException return_value), i') =>
        if is_initializer f then env_get_at (closure f) 0 "this" i'
        else (Ok return_value, i')
    | (Raise e, i') => (Raise e, i')
    | (Ok _, i') =>
        if is_initializer f then env_get_at (closure f) 0 "this" i'
        else (Ok VNil, i')
    end.

(** [LoxClass.call] *)
Definition LoxClass_call (self : nat) (arguments : list Value)
  : M Interpreter Value :=
  instance <- new_LoxInstance self ;;
  initializer <- find_method self "init" ;;
  match initializer with
  | Some m =>
      bound <- LoxFunction_bind m (VInstance instance) ;;
      LoxFunction_call bound arguments ;;;
      ret (VInstance instance)
  | None => ret (VInstance instance)
  end.

(** [ClockFunction.call] *)
Definition ClockFunction_call : M Interpreter Value :=
  fun i => (Ok (VNum (time_time (clock_calls i))),
            set_clock_calls (S (clock_calls i)) i).

Definition visit_literal_expr (value : Value) : M Interpreter Value :=
  ret value.

Definition visit_grouping_expr (expression : Expr.t) : M Interpreter Value :=
  evaluate expression.

Definition visit_unary_expr (operator : Token) (right : Expr.t)
  : M Interpreter Value :=
  right <- evaluate right ;;
  match type operator with
  | MINUS =>
      x <- check_number_operand operator right ;;
      ret (VNum (float_neg x))
  | BANG => ret (VBool (negb (is_truthy right)))
  | _ => ret VNil
  end.

Definition visit_binary_expr (left : Expr.t) (operator : Token)
    (right : Expr.t) : M Interpreter Value :=
  left <- evaluate left ;;
  right <- evaluate right ;;
  match type operator with
  | MINUS =>
      xy <- check_number_operands operator left right ;;
      ret (VNum (float_sub (fst xy) (snd xy)))
  | PLUS =>
      match left, right with
      | VNum x, VNum y => ret (VNum (float_add x y))
      | _, _ =>
          if is_str left || is_str right then
            l <- stringify left ;;
            r <- stringify right ;;
            ret (VStr (l +:+ r))
          else
            raise (RuntimeError operator
                     "Operands must be two numbers or at least one string.")
      end
  | SLASH =>
      xy <- check_number_operands operator left right ;;
      if float_eq (snd xy) (float_of_Z 0) then
        raise (RuntimeError operator "Division by zero.")
      else ret (VNum (float_div (fst xy) (snd xy)))
  | STAR =>
      xy <- check_number_operands operator left right ;;
      ret (VNum (float_mul (fst xy) (snd xy)))
  | GREATER =>
      xy <- check_number_operands operator left right ;;
      ret (VBool (float_gt (fst xy) (snd xy)))
  | GREATER_EQUAL =>
      xy <- check_number_operands operator left right ;;
      ret (VBool (float_ge (fst xy) (snd xy)))
  | LESS =>
      xy <- check_number_operands operator left right ;;
      ret (VBool (float_lt (fst xy) (snd xy)))
  | LESS_EQUAL =>
      xy <- check_number_operands operator left right ;;
      ret (VBool (float_le (fst xy) (snd xy)))
  | BANG_EQUAL => ret (VBool (negb (is_equal left right)))
  | EQUAL_EQUAL => ret (VBool (is_equal left right))
  | _ => ret VNil
  end.

Definition visit_logical_expr (left : Expr.t) (operator : Token)
    (right : Expr.t) : M Interpreter Value :=
  left <- evaluate left ;;
  match type operator with
  | OR => if is_truthy left then ret left else evaluate right
  | _ => if negb (is_truthy left) then ret left else evaluate right
  end.

(** [Interpreter.lookup_variable] *)
Definition lookup_variable (name : Token) (node : nat)
  : M Interpreter Value :=
  distance <- gets (fun i => locals i !! node) ;;
  match distance with
  | Some d => here <- gets environment ;; env_get_at here d (lexeme name)
  | None => top <- gets globals ;; env_get top name
  end.

Definition visit_variable_expr (node : nat) (name : Token)
  : M Interpreter Value :=
  lookup_variable name node.

Definition visit_this_expr (node : nat) (keyword : Token)
  : M Interpreter Value :=
  lookup_variable keyword node.

Definition visit_assign_expr (node : nat) (name : Token) (value : Expr.t)
  : M Interpreter Value :=
  value <- evaluate value ;;
  distance <- gets (fun i => locals i !! node) ;;
  match distance with
  | Some d =>
      here <- gets environment ;; env_assign_at here d name value
  | None => top <- gets globals ;; env_assign top name value
  end ;;;
  ret value.

Definition visit_call_expr (callee : Expr.t) (paren : Token)
    (arguments : list Expr.t) : M Interpreter Value :=
  callee <- evaluate callee ;;
  arguments <- map_each evaluate arguments ;;
  if negb (is_LoxCallable callee) then
    raise (RuntimeError paren "Can only call functions and classes.")
  else
    arity <- match callee with
             | VFunction f => LoxFunction_arity f
             | VClass c => LoxClass_arity c
             | _ => ret 0
             end ;;
    if negb (Nat.eqb (length arguments) arity) then
      raise (RuntimeError paren
               ("Expected " +:+ pretty arity +:+ " arguments but got "
                +:+ pretty (length arguments) +:+ "."))
    else
      match callee with
      | VFunction f => LoxFunction_call f arguments
      | VClass c => LoxClass_call c arguments
      | _ => ClockFunction_call
      end.

Definition visit_get_expr (object : Expr.t) (name : Token)
  : M Interpreter Value :=
  obj <- evaluate object ;;
  match obj with
  | VInstance o => LoxInstance_get o name
  | _ => raise (RuntimeError name "Only instances have properties.")
  end.

Definition visit_set_expr (object : Expr.t) (name : Token) (value : Expr.t)
  : M Interpreter Value :=
  obj <- evaluate object ;;
  match obj with
  | VInstance o =>
      value <- evaluate value ;;
      LoxInstance_set o name value ;;;
      ret value
  | _ => raise (RuntimeError name "Only instances have fields.")
  end.

(** [distance - 1] is computed on Python integers; for [distance = 0] it
    is [-1], and [range(-1)] is as empty as [range(0)]. *)
Definition visit_super_expr (node : nat) (keyword method : Token)
  : M Interpreter Value :=
  distance <- gets (fun i => locals i !! node) ;;
  match distance with
  | None => raise KeyError
  | Some distance =>
      here <- gets environment ;;
      superclass <- env_get_at here distance "super" ;;
      obj <- env_get_at here (distance - 1) "this" ;;
      match superclass with
      | VClass c =>
          method' <- find_method c (lexeme method) ;;
          match method' with
          | None =>
              raise (RuntimeError method
                       ("Undefined property '" +:+ lexeme method +:+ "'."))
          | Some m => f <- LoxFunction_bind m obj ;; ret (VFunction f)
          end
      | _ => raise AttributeError
      end
  end.

(** *** Statement visitors *)

Definition visit_block_stmt (statements : list (option Stmt.t))
  : M Interpreter unit :=
  here <- gets environment ;;
  environment' <- new_Environment here ;;
  execute_block statements environment'.

Definition visit_class_stmt (name : Token) (superclass : option (nat * Token))
    (methods : list Stmt.Function_t) : M Interpreter unit :=
  superclass' <-
    match superclass with
    | Some (node, sname) =>
        v <- evaluate (Expr.Variable_ node sname) ;;
        match v with
        | VClass c => ret (Some c)
        | _ => raise (RuntimeError sname "Superclass must be a class.")
        end
    | None => ret None
    end ;;
  here <- gets environment ;;
  env_define here (lexeme name) VNil ;;;
  match superclass with
  | Some _ =>
      environment' <- new_Environment here ;;
      modify (set_environment environment') ;;;
      env_define environment' "super"
        (match superclass' with Some c => VClass c | None => VNil end)
  | None => ret tt
  end ;;;
  table <-
    (fix build (ms : list Stmt.Function_t) (table : gmap string nat)
       : M Interpreter (gmap string nat) :=
       match ms with
       | [] => ret table
       | method :: rest =>
           current <- gets environment ;;
           function <- new_LoxFunction
             (mkLoxFunction method current
                (String.eqb (lexeme (Stmt.name method)) "init")) ;;
           build rest (<[lexeme (Stmt.name method) := function]> table)
       end) methods ∅ ;;
  klass <- new_LoxClass (mkLoxClass (lexeme name) superclass' table) ;;
  match superclass' with
  | Some _ =>
      current <- gets environment ;;
      e <- (es <- gets envs ;; the (es !! current)) ;;
      match enclosing e with
      | Some outer => modify (set_environment outer)
      | None => raise AttributeError
      end
  | None => ret tt
  end ;;;
  current <- gets environment ;;
  env_assign current name (VClass klass).

Definition visit_expression_stmt (expression : Expr.t) : M Interpreter unit :=
  evaluate expression ;;; ret tt.

Definition visit_function_stmt (stmt : Stmt.Function_t) : M Interpreter unit :=
  here <- gets environment ;;
  function <- new_LoxFunction (mkLoxFunction stmt here false) ;;
  env_define here (lexeme (Stmt.name stmt)) (VFunction function).

Definition visit_if_stmt (condition : Expr.t) (then_branch : Stmt.t)
    (else_branch : option Stmt.t) : M Interpreter unit :=
  c <- evaluate condition ;;
  if is_truthy c then execute then_branch
  else match else_branch with
       | Some s => execute s
       | None => ret tt
       end.

Definition visit_print_stmt (expression : Expr.t) : M Interpreter unit :=
  value <- evaluate expression ;;
  text <- stringify value ;;
  print set_stdout text.

Definition visit_return_stmt (value : option Expr.t) : M Interpreter unit :=
  value' <- match value with
            | Some e => evaluate e
            | None => ret VNil
            end ;;
  raise (ReturnException value').

Definition visit_var_stmt (name : Token) (initializer : option Expr.t)
  : M Interpreter unit :=
  value <- match initializer with
           | Some e => evaluate e
           | None => ret VNil
           end ;;
  here <- gets environment ;;
  env_define here (lexeme name) value.

(** [while self.is_truthy(self.evaluate(condition)): self.execute(body)].
    One turn of the loop; [again] runs the remaining turns. *)
Definition visit_while_stmt (again : M Interpreter unit)
    (condition : Expr.t) (body : Stmt.t) : M Interpreter unit :=
  c <- evaluate condition ;;
  if is_truthy c then execute body ;;; again else ret tt.

End Visitors.

(** [Interpreter.evaluate] and [Interpreter.execute]: the dispatch of
    [accept] to the visitor method of the node's class.  [fuel] bounds the
    nesting of calls to [evaluate] and [execute] plus the number of loop
    turns; Python itself has no such bound on loops. *)
Fixpoint evaluate (fuel : nat) (expr : Expr.t) (i : Interpreter) {struct fuel}
  : Outcome Value * Interpreter :=
  match fuel with
  | O => raise OutOfFuel i
  | S n =>
      match expr with
      | Expr.Binary l op r => visit_binary_expr (evaluate n) l op r i
      | Expr.Grouping e => visit_grouping_expr (evaluate n) e i
      | Expr.Literal v => visit_literal_expr v i
      | Expr.Unary op r => visit_unary_expr (evaluate n) op r i
      | Expr.Variable_ node name => visit_variable_expr node name i
      | Expr.Assign node name v => visit_assign_expr (evaluate n) node name v i
      | Expr.Logical l op r => visit_logical_expr (evaluate n) l op r i
      | Expr.Call c p a => visit_call_expr (evaluate n) (execute n) c p a i
      | Expr.Get o name => visit_get_expr (evaluate n) o name i
      | Expr.Set_ o name v => visit_set_expr (evaluate n) o name v i
      | Expr.This node k => visit_this_expr node k i
      | Expr.Super node k m => visit_super_expr node k m i
      end
  end
with execute (fuel : nat) (stmt : Stmt.t) (i : Interpreter) {struct fuel}
  : Outcome unit * Interpreter :=
  match fuel with
  | O => raise OutOfFuel i
  | S n =>
      match stmt with
      | Stmt.Expression e => visit_expression_stmt (evaluate n) e i
      | Stmt.Print e => visit_print_stmt (evaluate n) e i
      | Stmt.Var name init => visit_var_stmt (evaluate n) name init i
      | Stmt.Block ss => visit_block_stmt (execute n) ss i
      | Stmt.If c t e => visit_if_stmt (evaluate n) (execute n) c t e i
      | Stmt.While c b =>
          visit_while_stmt (evaluate n) (execute n)
            (execute n (Stmt.While c b)) c b i
      | Stmt.Function f => visit_function_stmt f i
      | Stmt.Return _ v => visit_return_stmt (evaluate n) v i
      | Stmt.Class name super ms =>
          visit_class_stmt (evaluate n) name super ms i
      end
  end.

(** [Interpreter.interpret] *)
Definition interpret (fuel : nat) (statements : list (option Stmt.t))
  : M Interpreter unit :=
  fun i =>
    match for_each (fun statement =>
                      match statement with
                      | Some s => execute fuel s
                      | None => ret tt
                      end) statements i with
    | (Raise (RuntimeError token message), i') =>
        print set_stdout
          ("Runtime error at line " +:+ pretty (line token) +:+ ": "
           +:+ message) i'
    | r => r
    end.

(** [Interpreter.resolve] *)
Definition Interpreter_resolve (node depth : nat) (i : Interpreter)
  : Interpreter :=
  set_locals (fun l => <[node := depth]> l) i.

End Host.

(** ** scanner.py

    The source is a sequence of characters indexed from 0; a character is an
    [ascii] here, so a source outside ASCII is read byte by byte. *)

Record Scanner := mkScanner {
  source : string;
  tokens : list Token;
  start : nat;
  current : nat;
  scan_line : nat;
  scan_out : list string
}.

Module Scan.

Definition keywords (text : string) : option TokenType :=
  if String.eqb text "and" then Some AND
  else if String.eqb text "class" then Some CLASS
  else if String.eqb text "else" then Some ELSE
  else if String.eqb text "false" then Some FALSE
  else if String.eqb text "for" then Some FOR
  else if String.eqb text "fun" then Some FUN
  else if String.eqb text "if" then Some IF
  else if String.eqb text "nil" then Some NIL
  else if String.eqb text "or" then Some OR
  else if String.eqb text "print" then Some PRINT
  else if String.eqb text "return" then Some RETURN
  else if String.eqb text "super" then Some SUPER
  else if String.eqb text "this" then Some THIS
  else if String.eqb text "true" then Some TRUE
  else if String.eqb text "var" then Some VAR
  else if String.eqb text "while" then Some WHILE
  else None.

Definition NUL : ascii := Ascii.zero.
Definition QUOTE : ascii := ascii_of_nat 34.
Definition LF : ascii := ascii_of_nat 10.
Definition CR : ascii := ascii_of_nat 13.
Definition TAB : ascii := ascii_of_nat 9.

(** [source[i]] for an index in range. *)
Definition char_at (s : Scanner) (i : nat) : ascii :=
  match String.get i (source s) with
  | Some c => c
  | None => NUL
  end.

(** [source[a:b]] *)
Definition slice (s : Scanner) (a b : nat) : string :=
  substring a (b - a) (source s).

Definition is_at_end (s : Scanner) : bool :=
  Nat.leb (String.length (source s)) (current s).

Definition set_current (n : nat) (s : Scanner) : Scanner :=
  mkScanner (source s) (tokens s) (start s) n (scan_line s) (scan_out s).
Definition set_start (n : nat) (s : Scanner) : Scanner :=
  mkScanner (source s) (tokens s) n (current s) (scan_line s) (scan_out s).
Definition incr_line (s : Scanner) : Scanner :=
  mkScanner (source s) (tokens s) (start s) (current s) (S (scan_line s))
    (scan_out s).
Definition set_out (f : list string -> list string) (s : Scanner) : Scanner :=
  mkScanner (source s) (tokens s) (start s) (current s) (scan_line s)
    (f (scan_out s)).

Definition consume_and_advance (s : Scanner) : ascii * Scanner :=
  if is_at_end s then (NUL, s)
  else (char_at s (current s), set_current (S (current s)) s).

Definition consume_if_match (expected : ascii) (s : Scanner) : bool * Scanner :=
  if is_at_end s then (false, s)
  else if negb (Ascii.eqb (char_at s (current s)) expected) then (false, s)
  else (true, set_current (S (current s)) s).

Definition peek (s : Scanner) : ascii :=
  if is_at_end s then NUL else char_at s (current s).

Definition peek_at_next (s : Scanner) : ascii :=
  if Nat.leb (String.length (source s)) (current s + 1) then NUL
  else char_at s (current s + 1).

Definition is_digit (c : ascii) : bool :=
  Nat.leb (nat_of_ascii "0") (nat_of_ascii c)
  && Nat.leb (nat_of_ascii c) (nat_of_ascii "9").

Definition is_alpha (c : ascii) : bool :=
  (Nat.leb (nat_of_ascii "a") (nat_of_ascii c)
   && Nat.leb (nat_of_ascii c) (nat_of_ascii "z"))
  || (Nat.leb (nat_of_ascii "A") (nat_of_ascii c)
      && Nat.leb (nat_of_ascii c) (nat_of_ascii "Z"))
  || Ascii.eqb c "_".

Definition is_alphanumeric (c : ascii) : bool := is_alpha c || is_digit c.

Definition add_token (token_type : TokenType) (literal : Value) (s : Scanner)
  : Scanner :=
  let text := slice s (start s) (current s) in
  mkScanner (source s)
    (tokens s ++ [mkToken token_type text literal (scan_line s)])
    (start s) (current s) (scan_line s) (scan_out s).

(** [while cond(): body()]; every loop of the scanner consumes a character
    per turn, so the turns are bounded by the length of the source. *)
Fixpoint while (turns : nat) (cond : Scanner -> bool)
    (body : Scanner -> Scanner) (s : Scanner) : Scanner :=
  match turns with
  | O => s
  | S turns' => if cond s then while turns' cond body (body s) else s
  end.

Definition string_literal (s : Scanner) : Scanner :=
  let s :=
    while (String.length (source s))
      (fun s => negb (Ascii.eqb (peek s) QUOTE) && negb (is_at_end s))
      (fun s =>
         let s := if Ascii.eqb (peek s) LF then incr_line s else s in
         snd (consume_and_advance s)) s in
  if is_at_end s then
    set_out (fun o => o ++ ["Unterminated string at line "
                            +:+ pretty (scan_line s)]) s
  else
    let s := snd (consume_and_advance s) in
    let value := slice s (start s + 1) (current s - 1) in
    add_token STRING (VStr value) s.

(** The integer written by a string of decimal digits. *)
Definition digits_value (text : string) : Z :=
  fold_left (fun acc c => (acc * 10 + Z.of_nat (nat_of_ascii c - 48))%Z)
    (list_ascii_of_string text) 0%Z.

(** Python's [float(text)] for [text] of the form [digits] or
    [digits.digits]: the float nearest to the decimal (ties to even). *)
Definition float_of_text (text : string) : float :=
  let chars := list_ascii_of_string text in
  let whole := filter (fun c => is_digit c = true) chars in
  let frac :=
    match index 0 "." text with
    | Some i => String.length text - (i + 1)
    | None => 0
    end in
  let n := digits_value (string_of_list_ascii whole) in
  match n with
  | Z0 => S754_zero false
  | _ =>
      let '(m, e, l) :=
        SFdiv_core_binary prec emax n 0 (10 ^ Z.of_nat frac) 0 in
      binary_round_aux prec emax false m e l
  end.

Definition number_literal (s : Scanner) : Scanner :=
  let digits :=
    while (String.length (source s)) (fun s => is_digit (peek s))
      (fun s => snd (consume_and_advance s)) in
  let s := digits s in
  let s :=
    if Ascii.eqb (peek s) "." && is_digit (peek_at_next s) then
      digits (snd (consume_and_advance s))
    else s in
  let value := float_of_text (slice s (start s) (current s)) in
  add_token NUMBER (VNum value) s.

Definition identifier (s : Scanner) : Scanner :=
  let s :=
    while (String.length (source s)) (fun s => is_alphanumeric (peek s))
      (fun s => snd (consume_and_advance s)) s in
  let text := slice s (start s) (current s) in
  let token_type :=
    match keywords text with
    | Some t => t
    | None => IDENTIFIER
    end in
  add_token token_type VNil s.

Definition two_chars (long short : TokenType) (s : Scanner) : Scanner :=
  let '(matched, s) := consume_if_match "=" s in
  add_token (if matched then long else short) VNil s.

Definition scan_token (s : Scanner) : Scanner :=
  let '(c, s) := consume_and_advance s in
  if Ascii.eqb c "(" then add_token LEFT_PAREN VNil s
  else if Ascii.eqb c ")" then add_token RIGHT_PAREN VNil s
  else if Ascii.eqb c "{" then add_token LEFT_BRACE VNil s
  else if Ascii.eqb c "}" then add_token RIGHT_BRACE VNil s
  else if Ascii.eqb c "-" then add_token MINUS VNil s
  else if Ascii.eqb c "+" then add_token PLUS VNil s
  else if Ascii.eqb c "*" then add_token STAR VNil s
  else if Ascii.eqb c "," then add_token COMMA VNil s
  else if Ascii.eqb c "." then add_token DOT VNil s
  else if Ascii.eqb c ";" then add_token SEMICOLON VNil s
  else if Ascii.eqb c "!" then two_chars BANG_EQUAL BANG s
  else if Ascii.eqb c "=" then two_chars EQUAL_EQUAL EQUAL s
  else if Ascii.eqb c "<" then two_chars LESS_EQUAL LESS s
  else if Ascii.eqb c ">" then two_chars GREATER_EQUAL GREATER s
  else if Ascii.eqb c "/" then
    let '(matched, s) := consume_if_match "/" s in
    if matched then
      while (String.length (source s))
        (fun s => negb (Ascii.eqb (peek s) LF) && negb (is_at_end s))
        (fun s => snd (consume_and_advance s)) s
    else add_token SLASH VNil s
  else if Ascii.eqb c " " || Ascii.eqb c CR || Ascii.eqb c TAB then s
  else if Ascii.eqb c LF then incr_line s
  else if Ascii.eqb c QUOTE then string_literal s
  else if is_digit c then number_literal s
  else if is_alpha c then identifier s
  else
    set_out (fun o => o ++ ["Can't recognize char '" +:+ String c ""
                            +:+ "' on line " +:+ pretty (scan_line s)]) s.

(** [Scanner(source).scan_tokens()], printing after the lines [out]. *)
Definition scan_tokens (text : string) (out : list string)
  : list Token * list string :=
  let s :=
    while (String.length text) (fun s => negb (is_at_end s))
      (fun s => scan_token (set_start (current s) s))
      (mkScanner text [] 0 0 1 out) in
  (tokens s ++ [mkToken EOF "" VNil (scan_line s)], scan_out s).

End Scan.

(** ** parser.py *)

Record Parser := mkParser {
  p_tokens : list Token;
  p_current : nat;
  p_out : list string;
  (** number given to the next [Variable], [Assign], [This] or [Super]
      object: its identity *)
  p_next_node : nat
}.

Module Parse.

Definition set_current (n : nat) (p : Parser) : Parser :=
  mkParser (p_tokens p) n (p_out p) (p_next_node p).
Definition set_out (f : list string -> list string) (p : Parser) : Parser :=
  mkParser (p_tokens p) (p_current p) (f (p_out p)) (p_next_node p).

Definition fresh_node : M Parser nat :=
  fun p => (Ok (p_next_node p),
            mkParser (p_tokens p) (p_current p) (p_out p) (S (p_next_node p))).

(** [self.tokens[self.current]] *)
Definition peek : M Parser Token :=
  fun p => match p_tokens p !! p_current p with
           | Some t => (Ok t, p)
           | None => (Raise IndexError, p)
           end.

(** [self.tokens[self.current - 1]]; the index [-1] is the last token. *)
Definition previous : M Parser Token :=
  fun p =>
    let i := match p_current p with
             | O => length (p_tokens p) - 1
             | S c => c
             end in
    match p_tokens p !! i with
    | Some t => (Ok t, p)
    | None => (Raise IndexError, p)
    end.

Definition is_at_end : M Parser bool :=
  t <- peek ;; ret (TokenType_eqb (type t) EOF).

Definition check (token_type : TokenType) : M Parser bool :=
  e <- is_at_end ;;
  if e then ret false
  else t <- peek ;; ret (TokenType_eqb (type t) token_type).

Definition advance : M Parser Token :=
  e <- is_at_end ;;
  (if negb e then modify (fun p => set_current (S (p_current p)) p)
   else ret tt) ;;;
  previous.

(** [match] of a tuple of token types *)
Fixpoint match_ (types : list TokenType) : M Parser bool :=
  match types with
  | [] => ret false
  | token_type :: rest =>
      c <- check token_type ;;
      if c then advance ;;; ret true else match_ rest
  end.

Definition error (token : Token) (message : string) : M Parser Exception :=
  print set_out
    ("Parse error at line " +:+ pretty (line token) +:+ ": " +:+ message) ;;;
  ret ParseError.

Definition raise_error {A} (message : string) : M Parser A :=
  t <- peek ;; e <- error t message ;; raise e.

Definition consume (token_type : TokenType) (message : string)
  : M Parser Token :=
  c <- check token_type ;;
  if c then advance else raise_error message.

Definition statement_keywords : list TokenType :=
  [CLASS; FUN; VAR; FOR; IF; WHILE; PRINT; RETURN].

Fixpoint synchronize_loop (turns : nat) : M Parser unit := fun p_ =>
  match turns with
  | O => raise OutOfFuel p_
  | S turns' => (
      e <- is_at_end ;;
      if e then ret tt
      else
        prev <- previous ;;
        if TokenType_eqb (type prev) SEMICOLON then ret tt
        else
          next <- peek ;;
          if existsb (TokenType_eqb (type next)) statement_keywords
          then ret tt
          else advance ;;; synchronize_loop turns') p_
  end.

(** The loop advances once per turn and stops at [EOF], so the number of
    tokens bounds its turns. *)
Definition synchronize : M Parser unit :=
  advance ;;;
  n <- gets (fun p => length (p_tokens p)) ;;
  synchronize_loop (S n).

(** *** Expressions

    [expression] is the method [self.expression], reached again from
    [primary] and [finish_call].  The [turns] arguments bound the loops and
    the direct recursion of [unary] and [assignment]. *)
Section Expressions.

Variable expression : M Parser Expr.t.

Fixpoint arguments_loop (turns : nat) (arguments : list Expr.t)
  : M Parser (list Expr.t) := fun p_ =>
  match turns with
  | O => raise OutOfFuel p_
  | S turns' => (
      m <- match_ [COMMA] ;;
      if m then
        (if Nat.leb 255 (length arguments) then
           t <- peek ;;
           error t "Can't have more than 255 arguments." ;;; ret tt
         else ret tt) ;;;
        a <- expression ;;
        arguments_loop turns' (arguments ++ [a])
      else ret arguments) p_
  end.

Definition finish_call (turns : nat) (callee : Expr.t) : M Parser Expr.t :=
  c <- check RIGHT_PAREN ;;
  arguments <-
    (if negb c then a <- expression ;; arguments_loop turns [a]
     else ret []) ;;
  paren <- consume RIGHT_PAREN "Expected ')' after arguments." ;;
  ret (Expr.Call callee paren arguments).

Definition primary : M Parser Expr.t :=
  m <- match_ [FALSE] ;;
  if m then ret (Expr.Literal (VBool false)) else
  m <- match_ [TRUE] ;;
  if m then ret (Expr.Literal (VBool true)) else
  m <- match_ [NIL] ;;
  if m then ret (Expr.Literal VNil) else
  m <- match_ [NUMBER; STRING] ;;
  if m then t <- previous ;; ret (Expr.Literal (literal t)) else
  m <- match_ [SUPER] ;;
  if m then
    keyword <- previous ;;
    consume DOT "Expected '.' after 'super'." ;;;
    method <- consume IDENTIFIER "Expected superclass method name." ;;
    node <- fresh_node ;;
    ret (Expr.Super node keyword method)
  else
  m <- match_ [THIS] ;;
  if m then
    keyword <- previous ;; node <- fresh_node ;;
    ret (Expr.This node keyword)
  else
  m <- match_ [IDENTIFIER] ;;
  if m then
    name <- previous ;; node <- fresh_node ;;
    ret (Expr.Variable_ node name)
  else
  m <- match_ [LEFT_PAREN] ;;
  if m then
    expr <- expression ;;
    consume RIGHT_PAREN "Expected ')' after expression." ;;;
    ret (Expr.Grouping expr)
  else raise_error "Expected expression.".

Fixpoint call_loop (turns : nat) (expr : Expr.t) : M Parser Expr.t := fun p_ =>
  match turns with
  | O => raise OutOfFuel p_
  | S turns' => (
      m <- match_ [LEFT_PAREN] ;;
      if m then e <- finish_call turns' expr ;; call_loop turns' e
      else
        m <- match_ [DOT] ;;
        if m then
          name <- consume IDENTIFIER "Expected property name after '.'." ;;
          call_loop turns' (Expr.Get expr name)
        else ret expr) p_
  end.

Definition call (turns : nat) : M Parser Expr.t :=
  expr <- primary ;; call_loop turns expr.

Fixpoint unary (turns : nat) : M Parser Expr.t := fun p_ =>
  match turns with
  | O => raise OutOfFuel p_
  | S turns' => (
      m <- match_ [BANG; MINUS] ;;
      if m then
        operator <- previous ;;
        right <- unary turns' ;;
        ret (Expr.Unary operator right)
      else call turns') p_
  end.

(** [while self.match(types...):
       operator = self.previous(); right = operand();
       expr = node(expr, operator, right)] *)
Fixpoint operator_loop (turns : nat) (types : list TokenType)
    (operand : M Parser Expr.t)
    (node : Expr.t -> Token -> Expr.t -> Expr.t) (expr : Expr.t)
  : M Parser Expr.t := fun p_ =>
  match turns with
  | O => raise OutOfFuel p_
  | S turns' => (
      m <- match_ types ;;
      if m then
        operator <- previous ;;
        right <- operand ;;
        operator_loop turns' types operand node (node expr operator right)
      else ret expr) p_
  end.

Definition factor (turns : nat) : M Parser Expr.t :=
  expr <- unary turns ;;
  operator_loop turns [SLASH; STAR] (unary turns) Expr.Binary expr.

Definition term (turns : nat) : M Parser Expr.t :=
  expr <- factor turns ;;
  operator_loop turns [MINUS; PLUS] (factor turns) Expr.Binary expr.

Definition comparison (turns : nat) : M Parser Expr.t :=
  expr <- term turns ;;
  operator_loop turns [GREATER; GREATER_EQUAL; LESS; LESS_EQUAL]
    (term turns) Expr.Binary expr.

Definition equality (turns : nat) : M Parser Expr.t :=
  expr <- comparison turns ;;
  operator_loop turns [BANG_EQUAL; EQUAL_EQUAL] (comparison turns)
    Expr.Binary expr.

Definition and_expr (turns : nat) : M Parser Expr.t :=
  expr <- equality turns ;;
  operator_loop turns [AND] (equality turns) Expr.Logical expr.

Definition or_expr (turns : nat) : M Parser Expr.t :=
  expr <- and_expr turns ;;
  operator_loop turns [OR] (and_expr turns) Expr.Logical expr.

Fixpoint assignment (turns : nat) : M Parser Expr.t := fun p_ =>
  match turns with
  | O => raise OutOfFuel p_
  | S turns' => (
      expr <- or_expr turns' ;;
      m <- match_ [EQUAL] ;;
      if m then
        equals <- previous ;;
        value <- assignment turns' ;;
        match expr with
        | Expr.Variable_ _ name =>
            node <- fresh_node ;; ret (Expr.Assign node name value)
        | Expr.Get object name => ret (Expr.Set_ object name value)
        | _ => error equals "Invalid assignment target." ;;; ret expr
        end
      else ret expr) p_
  end.

End Expressions.

Fixpoint expression (fuel : nat) : M Parser Expr.t := fun p_ =>
  match fuel with
  | O => raise OutOfFuel p_
  | S n => assignment (expression n) n p_
  end.

(** *** Statements

    [declaration] and [statement] are the methods [self.declaration] and
    [self.statement], reached again from the methods below. *)
Section Statements.

Variable declaration : M Parser (option Stmt.t).
Variable statement : M Parser Stmt.t.
Variable fuel : nat.

Definition expression_statement : M Parser Stmt.t :=
  expr <- expression fuel ;;
  consume SEMICOLON "Expected ';' after expression." ;;;
  ret (Stmt.Expression expr).

Definition print_statement : M Parser Stmt.t :=
  value <- expression fuel ;;
  consume SEMICOLON "Expected ';' after value." ;;;
  ret (Stmt.Print value).

Definition return_statement : M Parser Stmt.t :=
  keyword <- previous ;;
  c <- check SEMICOLON ;;
  value <- (if negb c then e <- expression fuel ;; ret (Some e)
            else ret None) ;;
  consume SEMICOLON "Expected ';' after return value." ;;;
  ret (Stmt.Return keyword value).

Definition var_declaration : M Parser Stmt.t :=
  name <- consume IDENTIFIER "Expected variable name." ;;
  m <- match_ [EQUAL] ;;
  initializer <- (if m then e <- expression fuel ;; ret (Some e)
                  else ret None) ;;
  consume SEMICOLON "Expected ';' after variable declaration." ;;;
  ret (Stmt.Var name initializer).

Definition while_statement : M Parser Stmt.t :=
  consume LEFT_PAREN "Expected '(' after 'while'." ;;;
  condition <- expression fuel ;;
  consume RIGHT_PAREN "Expected ')' after condition." ;;;
  body <- statement ;;
  ret (Stmt.While condition body).

Definition if_statement : M Parser Stmt.t :=
  consume LEFT_PAREN "Expected '(' after 'if'." ;;;
  condition <- expression fuel ;;
  consume RIGHT_PAREN "Expected ')' after if condition." ;;;
  then_branch <- statement ;;
  m <- match_ [ELSE] ;;
  else_branch <- (if m then s <- statement ;; ret (Some s) else ret None) ;;
  ret (Stmt.If condition then_branch else_branch).

Definition for_statement : M Parser Stmt.t :=
  consume LEFT_PAREN "Expected '(' after 'for'." ;;;
  initializer <-
    (m <- match_ [SEMICOLON] ;;
     if m then ret None
     else
       m <- match_ [VAR] ;;
       if m then s <- var_declaration ;; ret (Some s)
       else s <- expression_statement ;; ret (Some s)) ;;
  c <- check SEMICOLON ;;
  condition <- (if negb c then e <- expression fuel ;; ret (Some e)
                else ret None) ;;
  consume SEMICOLON "Expected ';' after loop condition." ;;;
  c <- check RIGHT_PAREN ;;
  increment <- (if negb c then e <- expression fuel ;; ret (Some e)
                else ret None) ;;
  consume RIGHT_PAREN "Expected ')' after for clauses." ;;;
  body <- statement ;;
  let body :=
    match increment with
    | Some i => Stmt.Block [Some body; Some (Stmt.Expression i)]
    | None => body
    end in
  let condition :=
    match condition with
    | Some c => c
    | None => Expr.Literal (VBool true)
    end in
  let body := Stmt.While condition body in
  let body :=
    match initializer with
    | Some i => Stmt.Block [Some i; Some body]
    | None => body
    end in
  ret body.

Fixpoint block_loop (turns : nat) (statements : list (option Stmt.t))
  : M Parser (list (option Stmt.t)) := fun p_ =>
  match turns with
  | O => raise OutOfFuel p_
  | S turns' => (
      c <- check RIGHT_BRACE ;;
      e <- is_at_end ;;
      if negb c && negb e then
        d <- declaration ;; block_loop turns' (statements ++ [d])
      else ret statements) p_
  end.

Definition block : M Parser (list (option Stmt.t)) :=
  statements <- block_loop fuel [] ;;
  consume RIGHT_BRACE "Expected '}' after block." ;;;
  ret statements.

Fixpoint parameters_loop (turns : nat) (parameters : list Token)
  : M Parser (list Token) := fun p_ =>
  match turns with
  | O => raise OutOfFuel p_
  | S turns' => (
      m <- match_ [COMMA] ;;
      if m then
        (if Nat.leb 255 (length parameters) then
           t <- peek ;;
           error t "Can't have more than 255 parameters." ;;; ret tt
         else ret tt) ;;;
        p <- consume IDENTIFIER "Expected parameter name." ;;
        parameters_loop turns' (parameters ++ [p])
      else ret parameters) p_
  end.

Definition function (kind : string) : M Parser Stmt.Function_t :=
  name <- consume IDENTIFIER ("Expected " +:+ kind +:+ " name.") ;;
  consume LEFT_PAREN ("Expected '(' after " +:+ kind +:+ " name.") ;;;
  c <- check RIGHT_PAREN ;;
  parameters <-
    (if negb c then
       p <- consume IDENTIFIER "Expected parameter name." ;;
       parameters_loop fuel [p]
     else ret []) ;;
  consume RIGHT_PAREN "Expected ')' after parameters." ;;;
  consume LEFT_BRACE ("Expected '{' before " +:+ kind +:+ " body.") ;;;
  body <- block ;;
  ret (Stmt.mkFunction name parameters body).

Fixpoint methods_loop (turns : nat) (methods : list Stmt.Function_t)
  : M Parser (list Stmt.Function_t) := fun p_ =>
  match turns with
  | O => raise OutOfFuel p_
  | S turns' => (
      c <- check RIGHT_BRACE ;;
      e <- is_at_end ;;
      if negb c && negb e then
        f <- function "method" ;; methods_loop turns' (methods ++ [f])
      else ret methods) p_
  end.

Definition class_declaration : M Parser Stmt.t :=
  name <- consume IDENTIFIER "Expected class name." ;;
  m <- match_ [LESS] ;;
  superclass <-
    (if m then
       consume IDENTIFIER "Expected superclass name." ;;;
       t <- previous ;; node <- fresh_node ;; ret (Some (node, t))
     else ret None) ;;
  consume LEFT_BRACE "Expected '{' before class body." ;;;
  methods <- methods_loop fuel [] ;;
  consume RIGHT_BRACE "Expected '}' after class body." ;;;
  ret (Stmt.Class name superclass methods).

Definition statement_body : M Parser Stmt.t :=
  m <- match_ [FOR] ;;
  if m then for_statement else
  m <- match_ [IF] ;;
  if m then if_statement else
  m <- match_ [PRINT] ;;
  if m then print_statement else
  m <- match_ [RETURN] ;;
  if m then return_statement else
  m <- match_ [WHILE] ;;
  if m then while_statement else
  m <- match_ [LEFT_BRACE] ;;
  if m then ss <- block ;; ret (Stmt.Block ss) else
  expression_statement.

(** The [try] body of [declaration] and its [except ParseError]. *)
Definition declaration_body : M Parser (option Stmt.t) :=
  fun p =>
    match
      (m <- match_ [CLASS] ;;
       if m then s <- class_declaration ;; ret (Some s) else
       m <- match_ [FUN] ;;
       if m then f <- function "function" ;; ret (Some (Stmt.Function f))
       else
       m <- match_ [VAR] ;;
       if m then s <- var_declaration ;; ret (Some s) else
       s <- statement ;; ret (Some s)) p
    with
    | (Raise ParseError, p') => (synchronize ;;; ret None) p'
    | r => r
    end.

End Statements.

Fixpoint declaration (fuel : nat) : M Parser (option Stmt.t) := fun p_ =>
  match fuel with
  | O => raise OutOfFuel p_
  | S n => declaration_body (declaration n) (statement n) n p_
  end
with statement (fuel : nat) : M Parser Stmt.t := fun p_ =>
  match fuel with
  | O => raise OutOfFuel p_
  | S n => statement_body (declaration n) (statement n) n p_
  end.

Fixpoint parse_loop (fuel turns : nat) (statements : list (option Stmt.t))
  : M Parser (list (option Stmt.t)) := fun p_ =>
  match turns with
  | O => raise OutOfFuel p_
  | S turns' => (
      e <- is_at_end ;;
      if negb e then
        d <- declaration fuel ;; parse_loop fuel turns' (statements ++ [d])
      else ret statements) p_
  end.

(** [Parser.parse]; [fuel] bounds the nesting of the grammar's methods and
    the turns of their loops. *)
Definition parse (fuel : nat) : M Parser (list (option Stmt.t)) :=
  parse_loop fuel fuel [].

End Parse.

(** ** resolver.py *)

Inductive FunctionType := FT_NONE | FT_FUNCTION | FT_INITIALIZER | FT_METHOD.
Inductive ClassType := CT_NONE | CT_CLASS | CT_SUBCLASS.

(** The scope stack is kept innermost first: Python's [scopes[-1]] is the
    head, and [scopes[len(scopes) - 1 - k]] is the element at position [k].
    [r_interpreter] is the interpreter the resolver writes depths into; what
    the resolver prints goes to its [stdout]. *)
Record Resolver := mkResolver {
  r_interpreter : Interpreter;
  scopes : list (gmap string bool);
  current_function : FunctionType;
  current_class : ClassType
}.

Module Resolve.

Definition set_interpreter (f : Interpreter -> Interpreter) (r : Resolver)
  : Resolver :=
  mkResolver (f (r_interpreter r)) (scopes r) (current_function r)
    (current_class r).
Definition set_scopes (f : list (gmap string bool) -> list (gmap string bool))
    (r : Resolver) : Resolver :=
  mkResolver (r_interpreter r) (f (scopes r)) (current_function r)
    (current_class r).
Definition set_current_function (t : FunctionType) (r : Resolver) : Resolver :=
  mkResolver (r_interpreter r) (scopes r) t (current_class r).
Definition set_current_class (t : ClassType) (r : Resolver) : Resolver :=
  mkResolver (r_interpreter r) (scopes r) (current_function r) t.

Definition say (text : string) (r : Resolver) : Resolver :=
  set_interpreter (set_stdout (fun o => o ++ [text])) r.

Definition begin_scope (r : Resolver) : Resolver :=
  set_scopes (fun ss => ∅ :: ss) r.

Definition end_scope (r : Resolver) : Resolver :=
  set_scopes (fun ss => tail ss) r.

(** [self.scopes[-1][name] = flag] *)
Definition set_innermost (name : string) (flag : bool) (r : Resolver)
  : Resolver :=
  set_scopes (fun ss => match ss with
                        | scope :: rest => <[name := flag]> scope :: rest
                        | [] => []
                        end) r.

Definition declare (name : Token) (r : Resolver) : Resolver :=
  match scopes r with
  | [] => r
  | scope :: _ =>
      let r :=
        match scope !! lexeme name with
        | Some _ =>
            say ("Error: Already a variable with name '" +:+ lexeme name
                 +:+ "' in this scope.") r
        | None => r
        end in
      set_innermost (lexeme name) false r
  end.

Definition define (name : Token) (r : Resolver) : Resolver :=
  match scopes r with
  | [] => r
  | _ :: _ => set_innermost (lexeme name) true r
  end.

(** The position of the innermost scope that holds [name]. *)
Fixpoint innermost_with (name : string) (ss : list (gmap string bool))
    (k : nat) : option nat :=
  match ss with
  | [] => None
  | scope :: rest =>
      match scope !! name with
      | Some _ => Some k
      | None => innermost_with name rest (S k)
      end
  end.

Definition resolve_local (node : nat) (name : Token) (r : Resolver)
  : Resolver :=
  match innermost_with (lexeme name) (scopes r) 0 with
  | Some depth => set_interpreter (Interpreter_resolve node depth) r
  | None => r
  end.

Section Visitors.

Variable resolve_expr : Expr.t -> Resolver -> Resolver.
Variable resolve_stmt : Stmt.t -> Resolver -> Resolver.

Fixpoint resolve_statements (statements : list (option Stmt.t))
    (r : Resolver) : Resolver :=
  match statements with
  | [] => r
  | Some s :: rest => resolve_statements rest (resolve_stmt s r)
  | None :: rest => resolve_statements rest r
  end.

Definition resolve_function (function : Stmt.Function_t)
    (function_type : FunctionType) (r : Resolver) : Resolver :=
  let enclosing_function := current_function r in
  let r := set_current_function function_type r in
  let r := begin_scope r in
  let r := fold_left (fun r param => define param (declare param r))
             (Stmt.params function) r in
  let r := resolve_statements (Stmt.body function) r in
  let r := end_scope r in
  set_current_function enclosing_function r.

Definition visit_block_stmt (statements : list (option Stmt.t))
    (r : Resolver) : Resolver :=
  end_scope (resolve_statements statements (begin_scope r)).

Definition visit_class_stmt (name : Token) (superclass : option (nat * Token))
    (methods : list Stmt.Function_t) (r : Resolver) : Resolver :=
  let enclosing_class := current_class r in
  let r := set_current_class CT_CLASS r in
  let r := define name (declare name r) in
  let r :=
    match superclass with
    | Some (_, sname) =>
        if String.eqb (lexeme name) (lexeme sname)
        then say "Error: A class can't inherit from itself." r
        else r
    | None => r
    end in
  let r :=
    match superclass with
    | Some (node, sname) =>
        resolve_expr (Expr.Variable_ node sname)
          (set_current_class CT_SUBCLASS r)
    | None => r
    end in
  let r :=
    match superclass with
    | Some _ => set_innermost "super" true (begin_scope r)
    | None => r
    end in
  let r := set_innermost "this" true (begin_scope r) in
  let r :=
    fold_left
      (fun r method =>
         let declaration :=
           if String.eqb (lexeme (Stmt.name method)) "init"
           then FT_INITIALIZER else FT_METHOD in
         resolve_function method declaration r) methods r in
  let r := end_scope r in
  let r := match superclass with
           | Some _ => end_scope r
           | None => r
           end in
  set_current_class enclosing_class r.

Definition visit_expression_stmt (expression : Expr.t) (r : Resolver)
  : Resolver :=
  resolve_expr expression r.

Definition visit_function_stmt (stmt : Stmt.Function_t) (r : Resolver)
  : Resolver :=
  let r := define (Stmt.name stmt) (declare (Stmt.name stmt) r) in
  resolve_function stmt FT_FUNCTION r.

Definition visit_if_stmt (condition : Expr.t) (then_branch : Stmt.t)
    (else_branch : option Stmt.t) (r : Resolver) : Resolver :=
  let r := resolve_expr condition r in
  let r := resolve_stmt then_branch r in
  match else_branch with
  | Some s => resolve_stmt s r
  | None => r
  end.

Definition visit_print_stmt (expression : Expr.t) (r : Resolver)
  : Resolver :=
  resolve_expr expression r.

Definition visit_return_stmt (value : option Expr.t) (r : Resolver)
  : Resolver :=
  let r :=
    match current_function r with
    | FT_NONE => say "Error: Can't return from top-level code." r
    | _ => r
    end in
  match value with
  | Some v =>
      let r :=
        match current_function r with
        | FT_INITIALIZER =>
            say "Error: Can't return a value from an initializer." r
        | _ => r
        end in
      resolve_expr v r
  | None => r
  end.

Definition visit_var_stmt (name : Token) (initializer : option Expr.t)
    (r : Resolver) : Resolver :=
  let r := declare name r in
  let r := match initializer with
           | Some e => resolve_expr e r
           | None => r
           end in
  define name r.

Definition visit_while_stmt (condition : Expr.t) (body : Stmt.t)
    (r : Resolver) : Resolver :=
  resolve_stmt body (resolve_expr condition r).

Definition visit_assign_expr (node : nat) (name : Token) (value : Expr.t)
    (r : Resolver) : Resolver :=
  resolve_local node name (resolve_expr value r).

Definition visit_binary_expr (left right : Expr.t) (r : Resolver)
  : Resolver :=
  resolve_expr right (resolve_expr left r).

Definition visit_call_expr (callee : Expr.t) (arguments : list Expr.t)
    (r : Resolver) : Resolver :=
  fold_left (fun r argument => resolve_expr argument r) arguments
    (resolve_expr callee r).

Definition visit_get_expr (object : Expr.t) (r : Resolver) : Resolver :=
  resolve_expr object r.

Definition visit_grouping_expr (expression : Expr.t) (r : Resolver)
  : Resolver :=
  resolve_expr expression r.

Definition visit_literal_expr (r : Resolver) : Resolver := r.

Definition visit_logical_expr (left right : Expr.t) (r : Resolver)
  : Resolver :=
  resolve_expr right (resolve_expr left r).

Definition visit_set_expr (object value : Expr.t) (r : Resolver)
  : Resolver :=
  resolve_expr object (resolve_expr value r).

Definition visit_super_expr (node : nat) (keyword : Token) (r : Resolver)
  : Resolver :=
  let r :=
    match current_class r with
    | CT_NONE => say "Error: Can't use 'super' outside of a class." r
    | CT_SUBCLASS => r
    | CT_CLASS =>
        say "Error: Can't use 'super' in a class with no superclass." r
    end in
  resolve_local node keyword r.

Definition visit_this_expr (node : nat) (keyword : Token) (r : Resolver)
  : Resolver :=
  match current_class r with
  | CT_NONE => say "Error: Can't use 'this' outside of a class." r
  | _ => resolve_local node keyword r
  end.

Definition visit_unary_expr (right : Expr.t) (r : Resolver) : Resolver :=
  resolve_expr right r.

Definition visit_variable_expr (node : nat) (name : Token) (r : Resolver)
  : Resolver :=
  let r :=
    match scopes r with
    | scope :: _ =>
        match scope !! lexeme name with
        | Some false =>
            say ("Error: Can't read local variable '" +:+ lexeme name
                 +:+ "' in its own initializer.") r
        | _ => r
        end
    | [] => r
    end in
  resolve_local node name r.

End Visitors.

Fixpoint resolve_expr (expr : Expr.t) (r : Resolver) {struct expr} : Resolver :=
  match expr with
  | Expr.Binary l _ r' => visit_binary_expr resolve_expr l r' r
  | Expr.Grouping e => visit_grouping_expr resolve_expr e r
  | Expr.Literal _ => visit_literal_expr r
  | Expr.Unary _ e => visit_unary_expr resolve_expr e r
  | Expr.Variable_ node name => visit_variable_expr node name r
  | Expr.Assign node name v => visit_assign_expr resolve_expr node name v r
  | Expr.Logical l _ r' => visit_logical_expr resolve_expr l r' r
  | Expr.Call c _ a => visit_call_expr resolve_expr c a r
  | Expr.Get o _ => visit_get_expr resolve_expr o r
  | Expr.Set_ o _ v => visit_set_expr resolve_expr o v r
  | Expr.This node k => visit_this_expr node k r
  | Expr.Super node k _ => visit_super_expr node k r
  end.

Fixpoint resolve_stmt (stmt : Stmt.t) (r : Resolver) {struct stmt} : Resolver :=
  match stmt with
  | Stmt.Expression e => visit_expression_stmt resolve_expr e r
  | Stmt.Print e => visit_print_stmt resolve_expr e r
  | Stmt.Var name init => visit_var_stmt resolve_expr name init r
  | Stmt.Block ss => visit_block_stmt resolve_stmt ss r
  | Stmt.If c t e => visit_if_stmt resolve_expr resolve_stmt c t e r
  | Stmt.While c b => visit_while_stmt resolve_expr resolve_stmt c b r
  | Stmt.Function f => visit_function_stmt resolve_stmt f r
  | Stmt.Return _ v => visit_return_stmt resolve_expr v r
  | Stmt.Class name super ms =>
      visit_class_stmt resolve_expr resolve_stmt name super ms r
  end.

(** [Resolver(interpreter).resolve_statements(statements)] *)
Definition run (statements : list (option Stmt.t)) (i : Interpreter)
  : Interpreter :=
  r_interpreter
    (resolve_statements resolve_stmt statements
       (mkResolver i [] FT_NONE CT_NONE)).

End Resolve.

(** ** pylox.py *)

Record Lox := mkLox {
  interpreter : Interpreter;
  had_error : bool;
  had_runtime_error : bool;
  (** how many expression objects carrying an identity exist so far *)
  nodes : nat
}.

(** How a call into the driver ends: it returns, [sys.exit(code)] unwinds out
    of it, or another exception does. *)
Inductive Ending :=
| Returns
| SystemExit (code : nat)
| Uncaught (e : Exception).

Section Driver.

Variable float_str : float -> string.
Variable time_time : nat -> float.

(** [Lox.__init__] *)
Definition Lox_init : Lox := mkLox Interpreter_init false false 0.

Definition with_interpreter (lox : Lox) (i : Interpreter) : Lox :=
  mkLox i (had_error lox) (had_runtime_error lox) (nodes lox).

(** [Lox.run]; [fuel] is the bound handed to the parser and to the
    interpreter. *)
Definition run (fuel : nat) (source : string) (lox : Lox) : Outcome unit * Lox :=
  let '(tokens, out) :=
    Scan.scan_tokens source (stdout (interpreter lox)) in
  let '(parsed, p) := Parse.parse fuel (mkParser tokens 0 out (nodes lox)) in
  let lox :=
    mkLox (set_stdout (fun _ => p_out p) (interpreter lox)) (had_error lox)
      (had_runtime_error lox) (p_next_node p) in
  match parsed with
  | Raise e => (Raise e, lox)
  | Ok statements =>
      if had_error lox then (Ok tt, lox)
      else
        let lox := with_interpreter lox
                     (Resolve.run statements (interpreter lox)) in
        if had_error lox then (Ok tt, lox)
        else
          let '(r, i) :=
            interpret float_str time_time fuel statements (interpreter lox) in
          (r, with_interpreter lox i)
  end.

(** [Lox.run_file]; [file] is the text read from [path], or [None] when
    opening or reading it fails. *)
Definition run_file (fuel : nat) (file : option string) (lox : Lox)
  : Ending * Lox :=
  match file with
  | None => (SystemExit 1, lox)
  | Some source =>
      match run fuel source lox with
      | (Raise e, lox') => (Uncaught e, lox')
      | (Ok _, lox') =>
          if had_error lox' then (SystemExit 65, lox')
          else if had_runtime_error lox' then (SystemExit 70, lox')
          else (Returns, lox')
      end
  end.

End Driver.

(** * Specification-side notions *)

(** [hops envs e d e']: following [enclosing] exactly [d] times from the
    environment [e] of the store leads to the environment [e'] of the
    store. *)
Inductive hops (envs : EnvStore) : nat -> nat -> nat -> Prop :=
| hops_here e E :
    envs !! e = Some E -> hops envs e 0 e
| hops_out e E parent d e' :
    envs !! e = Some E -> enclosing E = Some parent ->
    hops envs parent d e' -> hops envs e (S d) e'.

(** The number of [enclosing] hops that can be made from [e] inside the
    store: the length of its enclosing chain. *)
Fixpoint chain_length_from (bound : nat) (envs : EnvStore) (e : nat) : nat :=
  match bound with
  | O => 0
  | S bound' =>
      match envs !! e with
      | Some E =>
          match enclosing E with
          | Some parent =>
              match envs !! parent with
              | Some _ => S (chain_length_from bound' envs parent)
              | None => 0
              end
          | None => 0
          end
      | None => 0
      end
  end.

Definition chain_length (envs : EnvStore) (e : nat) : nat :=
  chain_length_from (length envs) envs e.


(** The loop that the specification gives for [for (init; cond; incr) body]:
    the increment, when present, is put after the body in a block; that is
    the body of a [While] on the condition, the literal [true] when the
    condition is missing; the initializer, when present, is put before the
    loop in an outer block. *)
Definition desugared_for (initializer : option Stmt.t)
    (condition increment : option Expr.t) (body : Stmt.t) : Stmt.t :=
  let inner :=
    match increment with
    | Some i => Stmt.Block [Some body; Some (Stmt.Expression i)]
    | None => body
    end in
  let loop :=
    Stmt.While (default (Expr.Literal (VBool true)) condition) inner in
  match initializer with
  | Some i => Stmt.Block [Some i; Some loop]
  | None => loop
  end.

(** The clauses of a [for] statement as the parser reads them, after the
    [for] keyword: initializer, condition, increment and body. *)
Definition for_clauses (statement : M Parser Stmt.t) (fuel : nat)
  : M Parser (option Stmt.t * option Expr.t * option Expr.t * Stmt.t) :=
  Parse.consume LEFT_PAREN "Expected '(' after 'for'." ;;;
  initializer <-
    (m <- Parse.match_ [SEMICOLON] ;;
     if m then ret None
     else
       m <- Parse.match_ [VAR] ;;
       if m then s <- Parse.var_declaration fuel ;; ret (Some s)
       else s <- Parse.expression_statement fuel ;; ret (Some s)) ;;
  c <- Parse.check SEMICOLON ;;
  condition <- (if negb c then e <- Parse.expression fuel ;; ret (Some e)
                else ret None) ;;
  Parse.consume SEMICOLON "Expected ';' after loop condition." ;;;
  c <- Parse.check RIGHT_PAREN ;;
  increment <- (if negb c then e <- Parse.expression fuel ;; ret (Some e)
                else ret None) ;;
  Parse.consume RIGHT_PAREN "Expected ')' after for clauses." ;;;
  body <- statement ;;
  ret (initializer, condition, increment, body).

(** ** Sample data

    Concrete inputs on which the statements below are instantiated.  The two
    host functions are stand-ins: none of the sample runs prints a number or
    reads the clock. *)

Definition sample_float_str : float -> string := fun _ => "1.0".
Definition sample_time : nat -> float := fun _ => float_zero.

Definition sample_envs : EnvStore :=
  [ mkEnvironment None {["a" := VStr "global"]};
    mkEnvironment (Some 0) {["a" := VStr "outer"]};
    mkEnvironment (Some 1) ∅ ].

Definition sample_token (t : TokenType) (text : string) : Token :=
  mkToken t text VNil 1.

(** The interpreter after [fun f(a) { return a; }]. *)
Definition sample_interpreter : Interpreter :=
  interpreter
    (snd (run sample_float_str sample_time 50 "fun f(a) { return a; }"
            Lox_init)).

(** The parser just after the keyword of [for (;;) x;]. *)
Definition sample_parser : Parser :=
  mkParser (fst (Scan.scan_tokens "for (;;) x;" [])) 1 [] 0.

(** Case analysis on every sub-computation of a monadic term. *)
Ltac split_run :=
  repeat match goal with
         | |- context [match ?m ?p with (_, _) => _ end] =>
             destruct (m p) as [[?|?] ?]; cbn beta iota; try reflexivity
         | |- context [if ?b then _ else _] =>
             destruct b; cbn beta iota; try reflexivity
         end.

(** * Invariants and relations used by the properties *)

(** ** Stores *)

(** A store in which every environment encloses one created before it, as
    [Environment(enclosing)] can only be given an existing object. *)
Definition store_ok (envs : EnvStore) : Prop :=
  forall e E parent,
    envs !! e = Some E -> enclosing E = Some parent -> parent < e.

(** [name] is bound in none of the environments fewer than [d] hops out of
    [e]. *)
Definition unbound_within (envs : EnvStore) (e d : nat) (name : string) : Prop :=
  forall d' e'' E'',
    d' < d -> hops envs e d' e'' -> envs !! e'' = Some E'' ->
    values E'' !! name = None.

(** A class store in which every superclass was created before its
    subclass: a class is built from the value its superclass expression
    evaluated to. *)
Definition classes_ok (cs : list LoxClass) : Prop :=
  forall c C parent,
    cs !! c = Some C -> superclass C = Some parent -> parent < c.

(** ** Frames of the interpreter *)

(** What running code may do to the interpreter's state, the current
    environment aside: the globals and the resolver's table stay, printed
    lines are only added, function and class objects are only added (none is
    changed), and no environment or instance disappears. *)
Definition grows (i i' : Interpreter) : Prop :=
  globals i' = globals i
  /\ locals i' = locals i
  /\ stdout i `prefix_of` stdout i'
  /\ functions i `prefix_of` functions i'
  /\ classes i `prefix_of` classes i'
  /\ length (envs i) <= length (envs i')
  /\ length (instances i) <= length (instances i').

(** The same, and the current environment is the one it was. *)
Definition extends (i i' : Interpreter) : Prop :=
  environment i' = environment i /\ grows i i'.

Definition keeps {A} (m : M Interpreter A) : Prop :=
  forall i, extends i (snd (m i)).

(** ** Steps of the scanner *)

(** What a step of the scanner may do: the source stays, the position and
    the line counter do not go back, printed lines are only added, and the
    tokens added are no [EOF], carry a line between the old and the new line
    counter, and come in the order of their lines. *)
Definition scans (s s' : Scanner) : Prop :=
  source s' = source s
  /\ current s <= current s'
  /\ (current s <= String.length (source s) ->
      current s' <= String.length (source s))
  /\ scan_line s <= scan_line s'
  /\ scan_out s `prefix_of` scan_out s'
  /\ exists new,
      tokens s' = tokens s ++ new
      /\ Forall (fun t => type t <> EOF
                          /\ scan_line s <= line t <= scan_line s') new
      /\ StronglySorted (fun a b => line a <= line b) new.

(** The loop of [scan_tokens], from the scanner's initial state. *)
Definition scan_loop (text : string) (out : list string) : Scanner :=
  Scan.while (String.length text) (fun s => negb (Scan.is_at_end s))
    (fun s => Scan.scan_token (Scan.set_start (current s) s))
    (mkScanner text [] 0 0 1 out).

(** A step of the scanner that adds no token and keeps the start of the
    lexeme. *)
Definition skims (s s' : Scanner) : Prop :=
  source s' = source s /\ start s' = start s /\ tokens s' = tokens s.

(** A step that skims and then adds at most one token. *)
Definition adds (s s' : Scanner) : Prop :=
  skims s s'
  \/ exists token_type literal s'',
       skims s s'' /\ s' = Scan.add_token token_type literal s''.

(** ** Steps of the parser *)

(** The parser is inside its token list and the list ends with an [EOF]
    token, as every list from the scanner does. *)
Definition tokens_ok (p : Parser) : Prop :=
  p_current p < length (p_tokens p)
  /\ exists t, p_tokens p !! (length (p_tokens p) - 1) = Some t /\ type t = EOF.

(** What a step of the parser may do: the tokens stay, the position and the
    counter of expression objects do not go back, printed lines are only
    added, and a parser inside an [EOF]-ended list stays inside. *)
Definition parses (p p' : Parser) : Prop :=
  p_tokens p' = p_tokens p
  /\ p_current p <= p_current p'
  /\ p_out p `prefix_of` p_out p'
  /\ p_next_node p <= p_next_node p'
  /\ (tokens_ok p -> tokens_ok p').

(** A parsing action that steps as [parses] allows and raises nothing but a
    [ParseError], the model's cut-off, or, outside a well-formed token
    list only, an [IndexError]. *)
Definition psafe {A} (m : M Parser A) : Prop :=
  forall p,
    parses p (snd (m p))
    /\ forall e, fst (m p) = Raise e ->
         e = ParseError \/ e = OutOfFuel \/ (e = IndexError /\ ~ tokens_ok p).

(** An action that never raises [ParseError]. *)
Definition quiet {A} (m : M Parser A) : Prop :=
  forall p, fst (m p) <> Raise ParseError.


(** ** Invariants of the resolver *)

(** What the resolver may do to the interpreter it was given: write
    [locals] and print. *)
Definition notes (i i' : Interpreter) : Prop :=
  envs i' = envs i /\ functions i' = functions i /\ classes i' = classes i
  /\ instances i' = instances i /\ globals i' = globals i
  /\ environment i' = environment i /\ clock_calls i' = clock_calls i
  /\ stdout i `prefix_of` stdout i'.

(** What a visit of the resolver leaves behind: the scope stack as deep as
    it was and the same below its innermost scope, the kinds of the
    enclosing function and class as they were. *)
Definition resolves (r r' : Resolver) : Prop :=
  length (scopes r') = length (scopes r)
  /\ tail (scopes r') = tail (scopes r)
  /\ current_function r' = current_function r
  /\ current_class r' = current_class r
  /\ notes (r_interpreter r) (r_interpreter r').

(** Induction over the syntax trees, through the lists inside them. *)
Section ExprInduction.

Variable P : Expr.t -> Prop.
Hypothesis HBinary : forall l o r, P l -> P r -> P (Expr.Binary l o r).
Hypothesis HGrouping : forall e, P e -> P (Expr.Grouping e).
Hypothesis HLiteral : forall v, P (Expr.Literal v).
Hypothesis HUnary : forall o r, P r -> P (Expr.Unary o r).
Hypothesis HVariable : forall n name, P (Expr.Variable_ n name).
Hypothesis HAssign : forall n name v, P v -> P (Expr.Assign n name v).
Hypothesis HLogical : forall l o r, P l -> P r -> P (Expr.Logical l o r).
Hypothesis HCall : forall c p args,
  P c -> Forall P args -> P (Expr.Call c p args).
Hypothesis HGet : forall o name, P o -> P (Expr.Get o name).
Hypothesis HSet : forall o name v, P o -> P v -> P (Expr.Set_ o name v).
Hypothesis HThis : forall n k, P (Expr.This n k).
Hypothesis HSuper : forall n k m, P (Expr.Super n k m).

Fixpoint Expr_induction (e : Expr.t) : P e :=
  match e with
  | Expr.Binary l o r =>
      HBinary l o r (Expr_induction l) (Expr_induction r)
  | Expr.Grouping e => HGrouping e (Expr_induction e)
  | Expr.Literal v => HLiteral v
  | Expr.Unary o r => HUnary o r (Expr_induction r)
  | Expr.Variable_ n name => HVariable n name
  | Expr.Assign n name v => HAssign n name v (Expr_induction v)
  | Expr.Logical l o r =>
      HLogical l o r (Expr_induction l) (Expr_induction r)
  | Expr.Call c p args =>
      HCall c p args (Expr_induction c)
        ((fix each (l : list Expr.t) : Forall P l :=
            match l with
            | [] => @List.Forall_nil _ P
            | x :: rest =>
                @List.Forall_cons _ P x rest (Expr_induction x) (each rest)
            end) args)
  | Expr.Get o name => HGet o name (Expr_induction o)
  | Expr.Set_ o name v =>
      HSet o name v (Expr_induction o) (Expr_induction v)
  | Expr.This n k => HThis n k
  | Expr.Super n k m => HSuper n k m
  end.

End ExprInduction.

Section StmtInduction.

Variable P : Stmt.t -> Prop.
Variable Q : Stmt.Function_t -> Prop.

Definition holds_if_present (o : option Stmt.t) : Prop :=
  match o with
  | Some s => P s
  | None => True
  end.

Hypothesis HExpression : forall e, P (Stmt.Expression e).
Hypothesis HPrint : forall e, P (Stmt.Print e).
Hypothesis HVar : forall name init, P (Stmt.Var name init).
Hypothesis HBlock : forall ss,
  Forall holds_if_present ss -> P (Stmt.Block ss).
Hypothesis HIf : forall c t e,
  P t -> holds_if_present e -> P (Stmt.If c t e).
Hypothesis HWhile : forall c b, P b -> P (Stmt.While c b).
Hypothesis HFunction : forall f, Q f -> P (Stmt.Function f).
Hypothesis HReturn : forall k v, P (Stmt.Return k v).
Hypothesis HClass : forall name super ms,
  Forall Q ms -> P (Stmt.Class name super ms).
Hypothesis HmkFunction : forall name params body,
  Forall holds_if_present body -> Q (Stmt.mkFunction name params body).

Fixpoint Stmt_induction (s : Stmt.t) : P s :=
  match s with
  | Stmt.Expression e => HExpression e
  | Stmt.Print e => HPrint e
  | Stmt.Var name init => HVar name init
  | Stmt.Block ss =>
      HBlock ss
        ((fix each (l : list (option Stmt.t)) : Forall holds_if_present l :=
            match l with
            | [] => @List.Forall_nil _ _
            | o :: rest =>
                @List.Forall_cons _ _ o rest
                  (match o return holds_if_present o with
                   | Some s' => Stmt_induction s'
                   | None => I
                   end) (each rest)
            end) ss)
  | Stmt.If c t e =>
      HIf c t e (Stmt_induction t)
        (match e return holds_if_present e with
         | Some s' => Stmt_induction s'
         | None => I
         end)
  | Stmt.While c b => HWhile c b (Stmt_induction b)
  | Stmt.Function f => HFunction f (Function_induction f)
  | Stmt.Return k v => HReturn k v
  | Stmt.Class name super ms =>
      HClass name super ms
        ((fix each (l : list Stmt.Function_t) : Forall Q l :=
            match l with
            | [] => @List.Forall_nil _ _
            | f :: rest =>
                @List.Forall_cons _ _ f rest (Function_induction f) (each rest)
            end) ms)
  end
with Function_induction (f : Stmt.Function_t) : Q f :=
  match f with
  | Stmt.mkFunction name params body =>
      HmkFunction name params body
        ((fix each (l : list (option Stmt.t)) : Forall holds_if_present l :=
            match l with
            | [] => @List.Forall_nil _ _
            | o :: rest =>
                @List.Forall_cons _ _ o rest
                  (match o return holds_if_present o with
                   | Some s' => Stmt_induction s'
                   | None => I
                   end) (each rest)
            end) body)
  end.

End StmtInduction.

(** ** More sample data *)

(** A class with one method (the function object 0) and a subclass of it
    without methods of its own. *)
Definition sample_classes : list LoxClass :=
  [ mkLoxClass "A" None {["m" := 0]};
    mkLoxClass "B" (Some 0) ∅ ].

(** The interpreter after [class A { m() {} } var a = A();]. *)
Definition sample_object_interpreter : Interpreter :=
  interpreter
    (snd (run sample_float_str sample_time 50
            "class A { m() {} } var a = A();" Lox_init)).


(** A resolver inside two scopes, the outer one declaring [a]. *)
Definition sample_resolver : Resolver :=
  mkResolver Interpreter_init [∅; {["a" := true]}] FT_NONE CT_NONE.

(** * Properties *)

(** ** Environments *)

Lemma ancestor_from_hops envs e d e' :
  hops envs e d e' -> Env.ancestor_from envs (Some e) d = Ok (Some e').
Proof.
  induction 1 as [e E He | e E parent d e' He Hp _ IH]; simpl.
  - reflexivity.
  - rewrite He, Hp. exact IH.
Qed.

Lemma hops_target envs e d e' :
  hops envs e d e' -> exists E', envs !! e' = Some E'.
Proof. induction 1; eauto. Qed.

Lemma define_lookup_same (envs : EnvStore) r E name value :
  envs !! r = Some E ->
  Env.define envs r name value !! r
  = Some (mkEnvironment (enclosing E) (<[name := value]> (values E))).
Proof.
  intros H. unfold Env.define. rewrite H.
  apply list_lookup_insert_eq. eapply lookup_lt_Some; eauto.
Qed.

Lemma define_lookup_other (envs : EnvStore) r r' name value :
  r <> r' -> Env.define envs r name value !! r' = envs !! r'.
Proof.
  intros H. unfold Env.define. destruct (envs !! r); [|reflexivity].
  by apply list_lookup_insert_ne.
Qed.

Lemma hops_ancestor_get_at_assign_at envs e d e' :
  hops envs e d e' ->
  Env.ancestor envs e d = Ok (Some e')
  /\ (d = 0 -> e' = e)
  /\ exists E',
      envs !! e' = Some E'
      /\ (forall name,
            Env.get_at envs e d name
            = match values E' !! name with
              | Some v => Ok v
              | None => Raise KeyError
              end)
      /\ (forall name value,
            exists envs',
              Env.assign_at envs e d name value = Ok envs'
              /\ envs' !! e'
                 = Some (mkEnvironment (enclosing E')
                           (<[lexeme name := value]> (values E')))
              /\ (forall r, r <> e' -> envs' !! r = envs !! r)
              /\ length envs' = length envs).
Proof.
  intros H.
  pose proof (ancestor_from_hops _ _ _ _ H) as Ha.
  destruct (hops_target _ _ _ _ H) as [E' HE'].
  split; [exact Ha|]. split.
  - intros ->. inversion H; reflexivity.
  - exists E'. split; [exact HE'|]. split.
    + intros name. unfold Env.get_at, Env.ancestor. rewrite Ha, HE'.
      reflexivity.
    + intros name value. eexists. unfold Env.assign_at, Env.ancestor.
      rewrite Ha, HE'. split; [reflexivity|]. split; [|split].
      * by apply define_lookup_same.
      * intros r Hr. apply define_lookup_other. congruence.
      * unfold Env.define. rewrite HE'. apply length_insert.
Qed.

Lemma hops_within_chain bound envs : forall e d,
  is_Some (envs !! e) -> d <= chain_length_from bound envs e ->
  exists e', hops envs e d e'.
Proof.
  induction bound as [|bound IH]; intros e d [E HE] Hd; simpl in Hd.
  - assert (d = 0) as -> by lia. exists e. by eapply hops_here.
  - destruct d as [|d]; [exists e; by eapply hops_here|].
    rewrite HE in Hd.
    destruct (enclosing E) as [parent|] eqn:Hp; [|lia].
    destruct (envs !! parent) as [P|] eqn:HP; [|lia].
    destruct (IH parent d) as [e' He']; [by eexists | lia |].
    exists e'. by eapply hops_out.
Qed.

(** C6. For an environment [e] and a distance [d] not exceeding the length
    of its enclosing chain, [ancestor(d)] is the environment exactly [d] hops
    outward ([ancestor(0)] is [e] itself); [get_at] reads the dictionary of
    exactly that environment, a [KeyError] when the name is not in it
    whatever the environments further out hold; [assign_at] writes into the
    dictionary of exactly that environment and leaves every other
    environment as it was. *)
Theorem ancestor_get_at_assign_at (envs : EnvStore) e d :
  is_Some (envs !! e) -> d <= chain_length envs e ->
  exists e',
    hops envs e d e'
    /\ Env.ancestor envs e d = Ok (Some e')
    /\ (d = 0 -> e' = e)
    /\ exists E',
        envs !! e' = Some E'
        /\ (forall name,
              Env.get_at envs e d name
              = match values E' !! name with
                | Some v => Ok v
                | None => Raise KeyError
                end)
        /\ (forall name value,
              exists envs',
                Env.assign_at envs e d name value = Ok envs'
                /\ envs' !! e'
                   = Some (mkEnvironment (enclosing E')
                             (<[lexeme name := value]> (values E')))
                /\ (forall r, r <> e' -> envs' !! r = envs !! r)
                /\ length envs' = length envs).
Proof.
  intros He Hd.
  destruct (hops_within_chain _ _ _ _ He Hd) as [e' H].
  exists e'. split; [exact H|].
  by apply hops_ancestor_get_at_assign_at.
Qed.

Lemma ancestor_get_at_assign_at_witness :
  is_Some (sample_envs !! 2) /\ 1 <= chain_length sample_envs 2
  /\ exists e',
      hops sample_envs 2 1 e' /\ Env.ancestor sample_envs 2 1 = Ok (Some e').
Proof.
  assert (H1 : is_Some (sample_envs !! 2)) by (eexists; reflexivity).
  assert (H2 : 1 <= chain_length sample_envs 2) by (vm_compute; lia).
  split; [exact H1|]. split; [exact H2|].
  destruct (ancestor_get_at_assign_at sample_envs 2 1 H1 H2)
    as (e' & Hh & Ha & _).
  exists e'. split; assumption.
Defined.

(** One hop past the chain [ancestor] gives [None], on which [get_at]
    fails; a further hop fails inside [ancestor]. *)
Example ancestor_past_chain :
  chain_length sample_envs 2 = 2
  /\ Env.ancestor sample_envs 2 2 = Ok (Some 0)
  /\ Env.ancestor sample_envs 2 3 = Ok None
  /\ Env.get_at sample_envs 2 3 "a" = Raise AttributeError
  /\ Env.ancestor sample_envs 2 4 = Raise AttributeError.
Proof. repeat split. Qed.

(** ** Expressions *)

Section Evaluation.

Variable float_str : float -> string.
Variable time_time : nat -> float.

Local Abbreviation eval := (evaluate float_str time_time).
Local Abbreviation exec := (execute float_str time_time).

Lemma is_truthy_false v :
  is_truthy v = false <-> v = VNil \/ v = VBool false.
Proof.
  split.
  - destruct v as [|[]| | | | | |]; simpl; intros H; try discriminate; auto.
  - intros [-> | ->]; reflexivity.
Qed.

(** C8. A [Logical] expression evaluates its left operand first.  For [or]
    a truthy left value is the result, for [and] a falsy left value is; in
    both cases the right operand is not evaluated (the state is the one
    left by the left operand).  Otherwise the result is the evaluation of
    the right operand.  Exactly [nil] and [false] are falsy; [0] and the
    empty string are truthy. *)
Theorem logical_short_circuit n left operator right i v i1 :
  eval n left i = (Ok v, i1) ->
  (type operator = OR -> is_truthy v = true ->
   eval (S n) (Expr.Logical left operator right) i = (Ok v, i1))
  /\ (type operator = OR -> is_truthy v = false ->
      eval (S n) (Expr.Logical left operator right) i = eval n right i1)
  /\ (type operator = AND -> is_truthy v = false ->
      eval (S n) (Expr.Logical left operator right) i = (Ok v, i1))
  /\ (type operator = AND -> is_truthy v = true ->
      eval (S n) (Expr.Logical left operator right) i = eval n right i1)
  /\ (forall w, is_truthy w = false <-> w = VNil \/ w = VBool false)
  /\ is_truthy (VNum (float_of_Z 0)) = true
  /\ is_truthy (VStr "") = true.
Proof.
  intros Hl.
  assert (Hstep : eval (S n) (Expr.Logical left operator right) i
                  = match type operator with
                    | OR => if is_truthy v then (Ok v, i1)
                            else eval n right i1
                    | _ => if negb (is_truthy v) then (Ok v, i1)
                           else eval n right i1
                    end).
  { simpl. unfold visit_logical_expr, bind. rewrite Hl.
    destruct (type operator), (is_truthy v); reflexivity. }
  repeat split; try (intros Ht Hv; rewrite Hstep, Ht, Hv; reflexivity);
    apply is_truthy_false.
Qed.

(** The left operand's exception leaves a [Logical] expression at once. *)
Lemma logical_left_raises n left operator right i e i1 :
  eval n left i = (Raise e, i1) ->
  eval (S n) (Expr.Logical left operator right) i = (Raise e, i1).
Proof.
  intros Hl. simpl. unfold visit_logical_expr, bind. rewrite Hl. reflexivity.
Qed.

Lemma float_eq_zero y :
  float_eq y (float_of_Z 0) = true <-> exists s, y = S754_zero s.
Proof.
  split.
  - destruct y as [s|[]| |[] m e]; simpl; intros H; try discriminate; eauto.
  - intros [s ->]. reflexivity.
Qed.


(** C9. A [Binary] expression with [/]: operands that are not both numbers
    raise a runtime error; for two numbers a right operand equal to zero
    raises "Division by zero." and no quotient is produced, and a non-zero
    right operand gives the IEEE-754 quotient. *)
Theorem division_by_zero n left operator right i a b i1 i2 :
  type operator = SLASH ->
  eval n left i = (Ok a, i1) -> eval n right i1 = (Ok b, i2) ->
  (forall x y, a = VNum x -> b = VNum y ->
     float_eq y (float_of_Z 0) = true ->
     eval (S n) (Expr.Binary left operator right) i
     = (Raise (RuntimeError operator "Division by zero."), i2))
  /\ (forall x y, a = VNum x -> b = VNum y ->
      float_eq y (float_of_Z 0) = false ->
      eval (S n) (Expr.Binary left operator right) i
      = (Ok (VNum (float_div x y)), i2))
  /\ (is_float a && is_float b = false ->
      eval (S n) (Expr.Binary left operator right) i
      = (Raise (RuntimeError operator "Operands must be numbers."), i2))
  /\ (forall y, float_eq y (float_of_Z 0) = true <-> exists s, y = S754_zero s).
Proof.
  intros Hop Hl Hr.
  assert (Hstep :
    eval (S n) (Expr.Binary left operator right) i
    = (xy <- check_number_operands operator a b ;;
       if float_eq (snd xy) (float_of_Z 0) then
         raise (RuntimeError operator "Division by zero.")
       else ret (VNum (float_div (fst xy) (snd xy)))) i2).
  { simpl. unfold visit_binary_expr, bind at 1 2.
    rewrite Hl, Hr, Hop. reflexivity. }
  rewrite Hstep. split; [|split; [|split]].
  - intros x y -> -> Hz.
    unfold bind, check_number_operands, ret. cbn [fst snd].
    rewrite Hz. reflexivity.
  - intros x y -> -> Hz.
    unfold bind, check_number_operands, ret. cbn [fst snd].
    rewrite Hz. reflexivity.
  - intros Hf. destruct a, b; simpl in Hf; try discriminate; reflexivity.
  - apply float_eq_zero.
Qed.

(** C10. A [Set] expression whose object is not an instance raises its
    runtime error straight after the object is evaluated: the value
    sub-expression is not evaluated and the state, field tables included,
    is the one the object left.  On an instance the value is evaluated, the
    field is written into that instance's table, and the assigned value is
    the result. *)
Theorem set_expr_atomic n object name value i obj i1 :
  eval n object i = (Ok obj, i1) ->
  ((forall o, obj <> VInstance o) ->
   eval (S n) (Expr.Set_ object name value) i
   = (Raise (RuntimeError name "Only instances have fields."), i1))
  /\ (forall o v i2 O,
        obj = VInstance o -> eval n value i1 = (Ok v, i2) ->
        instances i2 !! o = Some O ->
        exists i3,
          eval (S n) (Expr.Set_ object name value) i = (Ok v, i3)
          /\ instances i3 !! o
             = Some (mkLoxInstance (klass O) (<[lexeme name := v]> (fields O)))
          /\ (forall o', o' <> o -> instances i3 !! o' = instances i2 !! o')
          /\ envs i3 = envs i2 /\ functions i3 = functions i2
          /\ classes i3 = classes i2 /\ stdout i3 = stdout i2
          /\ environment i3 = environment i2 /\ locals i3 = locals i2)
  /\ (forall o e i2,
        obj = VInstance o -> eval n value i1 = (Raise e, i2) ->
        eval (S n) (Expr.Set_ object name value) i = (Raise e, i2)).
Proof.
  intros Ho.
  assert (Hstep :
    eval (S n) (Expr.Set_ object name value) i
    = match obj with
      | VInstance o =>
          (v <- eval n value ;; LoxInstance_set o name v ;;; ret v) i1
      | _ => (Raise (RuntimeError name "Only instances have fields."), i1)
      end).
  { simpl. unfold visit_set_expr, bind at 1. rewrite Ho.
    destruct obj; reflexivity. }
  rewrite Hstep. split; [|split].
  - intros Hne. destruct obj; try reflexivity. by destruct (Hne ref).
  - intros o v i2 O -> Hv HO. unfold bind. rewrite Hv.
    eexists. split; [reflexivity|]. simpl. rewrite HO.
    split; [|split; [|repeat split]].
    + apply list_lookup_insert_eq. eapply lookup_lt_Some; eauto.
    + intros o' Hne. by apply list_lookup_insert_ne.
  - intros o e i2 -> Hv. unfold bind. rewrite Hv. reflexivity.
Qed.

(** *** Calls *)







End Evaluation.

(** ** The [for] statement *)

Lemma for_statement_desugars statement fuel p :
  Parse.for_statement statement fuel p
  = (clauses <- for_clauses statement fuel ;;
     let '(initializer, condition, increment, body) := clauses in
     ret (desugared_for initializer condition increment body)) p.
Proof.
  unfold Parse.for_statement, for_clauses, bind.
  split_run.
Qed.

Section Loops.

Variable float_str : float -> string.
Variable time_time : nat -> float.

Local Abbreviation exec := (execute float_str time_time).

(** A [While] on the literal [true] never ends normally: whatever the
    bound, the run is cut off still looping or leaves by an exception that
    an execution of the body raised (a runtime error or a return). *)
Lemma while_true_never_ends n : forall body i,
  exists e i',
    exec n (Stmt.While (Expr.Literal (VBool true)) body) i = (Raise e, i')
    /\ (e = OutOfFuel \/ exists m j, exec m body j = (Raise e, i')).
Proof.
  induction n as [|n IH]; intros body i.
  - exists OutOfFuel, i. split; [reflexivity | by left].
  - simpl. unfold visit_while_stmt, bind.
    destruct n as [|n].
    + exists OutOfFuel, i. split; [reflexivity | by left].
    + change (evaluate float_str time_time (S n)
                (Expr.Literal (VBool true)) i)
        with (Ok (VBool true), i).
      cbn beta iota. change (is_truthy (VBool true)) with true.
      cbn beta iota.
      destruct (exec (S n) body i) as [[[]|e] i1] eqn:Hbody.
      * apply IH.
      * exists e, i1. split; [reflexivity|]. right. by exists (S n), i.
Qed.

(** C5. The parser turns [for (init; cond; incr) body] into the loop of
    [desugared_for] built from the clauses it reads: the increment, when
    present, after the body in a block, inside a [While] on the condition,
    and the initializer, when present, before the loop in an outer block; a
    missing condition is the literal [true].  In particular [for (;;) body]
    is a [While] on [true], which never ends normally. *)
Theorem for_statement_is_while statement fuel p :
  Parse.for_statement statement fuel p
  = (clauses <- for_clauses statement fuel ;;
     let '(initializer, condition, increment, body) := clauses in
     ret (desugared_for initializer condition increment body)) p
  /\ (forall s p',
        Parse.for_statement statement fuel p = (Ok s, p') ->
        exists initializer condition increment body,
          for_clauses statement fuel p
          = (Ok (initializer, condition, increment, body), p')
          /\ s = desugared_for initializer condition increment body)
  /\ (forall body,
        desugared_for None None None body
        = Stmt.While (Expr.Literal (VBool true)) body)
  /\ (forall n body i,
        exists e i',
          exec n (desugared_for None None None body) i = (Raise e, i')
          /\ (e = OutOfFuel \/ exists m j, exec m body j = (Raise e, i'))).
Proof.
  split; [apply for_statement_desugars|]. split; [|split].
  - intros s p'. rewrite for_statement_desugars. unfold bind.
    destruct (for_clauses statement fuel p)
      as [[[[[initializer condition] increment] body]|e] p1];
      [|discriminate].
    unfold ret. intros [= <- <-].
    by exists initializer, condition, increment, body.
  - reflexivity.
  - intros n body i. apply while_true_never_ends.
Qed.

End Loops.

(** ** Instances of the statements above *)

Lemma logical_short_circuit_witness :
  evaluate sample_float_str sample_time 1 (Expr.Literal (VStr ""))
    Interpreter_init
  = (Ok (VStr ""), Interpreter_init)
  /\ evaluate sample_float_str sample_time 2
       (Expr.Logical (Expr.Literal (VStr "")) (sample_token OR "or")
          (Expr.Literal (VBool false))) Interpreter_init
     = (Ok (VStr ""), Interpreter_init).
Proof.
  split; [reflexivity|].
  apply (proj1 (logical_short_circuit sample_float_str sample_time 1
                  (Expr.Literal (VStr "")) (sample_token OR "or")
                  (Expr.Literal (VBool false)) Interpreter_init
                  (VStr "") Interpreter_init eq_refl));
    reflexivity.
Defined.


Lemma division_by_zero_witness :
  type (sample_token SLASH "/") = SLASH
  /\ evaluate sample_float_str sample_time 1
       (Expr.Literal (VNum (float_of_Z 1))) Interpreter_init
     = (Ok (VNum (float_of_Z 1)), Interpreter_init)
  /\ evaluate sample_float_str sample_time 1
       (Expr.Literal (VNum (float_of_Z 0))) Interpreter_init
     = (Ok (VNum (float_of_Z 0)), Interpreter_init)
  /\ evaluate sample_float_str sample_time 2
       (Expr.Binary (Expr.Literal (VNum (float_of_Z 1)))
          (sample_token SLASH "/") (Expr.Literal (VNum (float_of_Z 0))))
       Interpreter_init
     = (Raise (RuntimeError (sample_token SLASH "/") "Division by zero."),
        Interpreter_init).
Proof.
  split; [reflexivity|]. split; [reflexivity|]. split; [reflexivity|].
  apply (proj1 (division_by_zero sample_float_str sample_time 1
                  (Expr.Literal (VNum (float_of_Z 1)))
                  (sample_token SLASH "/")
                  (Expr.Literal (VNum (float_of_Z 0))) Interpreter_init
                  (VNum (float_of_Z 1)) (VNum (float_of_Z 0))
                  Interpreter_init Interpreter_init
                  eq_refl eq_refl eq_refl)
           (float_of_Z 1) (float_of_Z 0) eq_refl eq_refl eq_refl).
Defined.

Lemma set_expr_atomic_witness :
  evaluate sample_float_str sample_time 1 (Expr.Literal (VStr "s"))
    Interpreter_init
  = (Ok (VStr "s"), Interpreter_init)
  /\ evaluate sample_float_str sample_time 2
       (Expr.Set_ (Expr.Literal (VStr "s")) (sample_token IDENTIFIER "x")
          (Expr.Literal (VBool true))) Interpreter_init
     = (Raise (RuntimeError (sample_token IDENTIFIER "x")
                 "Only instances have fields."),
        Interpreter_init).
Proof.
  split; [reflexivity|].
  apply (proj1 (set_expr_atomic sample_float_str sample_time 1
                  (Expr.Literal (VStr "s")) (sample_token IDENTIFIER "x")
                  (Expr.Literal (VBool true)) Interpreter_init
                  (VStr "s") Interpreter_init eq_refl)).
  intros o. discriminate.
Defined.


Lemma for_statement_is_while_witness :
  exists s p',
    Parse.for_statement (Parse.statement 20) 20 sample_parser = (Ok s, p')
    /\ exists initializer condition increment body,
        for_clauses (Parse.statement 20) 20 sample_parser
        = (Ok (initializer, condition, increment, body), p')
        /\ s = desugared_for initializer condition increment body.
Proof.
  destruct (Parse.for_statement (Parse.statement 20) 20 sample_parser)
    as [[s|e] p'] eqn:Hparse; [|vm_compute in Hparse; discriminate].
  exists s, p'. split; [reflexivity|].
  exact (proj1 (proj2 (for_statement_is_while sample_float_str sample_time
                         (Parse.statement 20) 20 sample_parser))
           s p' Hparse).
Defined.

(** ** Equality *)

(** [==] and [!=] evaluate to the boolean that [is_equal] gives and raise
    nothing of their own. *)
Lemma equality_never_raises float_str time_time n left operator right
    i a b i1 i2 :
  evaluate float_str time_time n left i = (Ok a, i1) ->
  evaluate float_str time_time n right i1 = (Ok b, i2) ->
  (type operator = EQUAL_EQUAL ->
   evaluate float_str time_time (S n) (Expr.Binary left operator right) i
   = (Ok (VBool (is_equal a b)), i2))
  /\ (type operator = BANG_EQUAL ->
      evaluate float_str time_time (S n) (Expr.Binary left operator right) i
      = (Ok (VBool (negb (is_equal a b))), i2)).
Proof.
  intros Hl Hr.
  split; intros Hop; simpl; unfold visit_binary_expr, bind;
    rewrite Hl, Hr, Hop; reflexivity.
Qed.

(** Within one variant [is_equal] is as the specification says; [nil]
    equals only [nil]; a string, a function, a class or an instance never
    equals a value of another variant. *)
Lemma is_equal_same_variant :
  is_equal VNil VNil = true
  /\ (forall v, v <> VNil -> is_equal VNil v = false /\ is_equal v VNil = false)
  /\ (forall x y, is_equal (VBool x) (VBool y) = true <-> x = y)
  /\ (forall x y, is_equal (VStr x) (VStr y) = true <-> x = y)
  /\ (forall x y, is_equal (VNum x) (VNum y) = float_eq x y)
  /\ is_equal (VNum S754_nan) (VNum S754_nan) = false
  /\ (forall x y, is_equal (VFunction x) (VFunction y) = true <-> x = y)
  /\ (forall x y, is_equal (VClass x) (VClass y) = true <-> x = y)
  /\ (forall x y, is_equal (VInstance x) (VInstance y) = true <-> x = y).
Proof.
  split; [reflexivity|].
  split; [intros v Hv; destruct v; [by destruct Hv | split; reflexivity ..]|].
  split; [intros [] []; split; intros H; vm_compute in H |- *; congruence|].
  split; [intros x y; apply String.eqb_eq|].
  split; [reflexivity|].
  split; [reflexivity|].
  split; [intros x y; apply Nat.eqb_eq|].
  split; intros x y; apply Nat.eqb_eq.
Qed.

(** C1 (the code departs from it). [true == 1] evaluates to [true]: Python
    compares a [bool] with a [float] by numeric value, so a boolean can
    equal a number although they are different variants. *)
Theorem equality_bool_equals_number float_str time_time :
  is_equal (VBool true) (VNum (Scan.float_of_text "1")) = true
  /\ is_equal (VNum (Scan.float_of_text "0")) (VBool false) = true
  /\ fst (run float_str time_time 100 "print true == 1;" Lox_init) = Ok tt
  /\ stdout (interpreter
               (snd (run float_str time_time 100 "print true == 1;" Lox_init)))
     = ["true"].
Proof. repeat split; vm_compute; reflexivity. Qed.

(** ** The driver *)


(** A runtime error of the interpreter's own class ends [interpret] at the
    statement that raised it and is reported with the line of its token. *)
Lemma interpret_reports float_str time_time fuel statements i token message i' :
  for_each (fun statement =>
              match statement with
              | Some s => execute float_str time_time fuel s
              | None => ret tt
              end) statements i
  = (Raise (RuntimeError token message), i') ->
  interpret float_str time_time fuel statements i
  = (Ok tt,
     set_stdout (fun lines =>
       lines ++ ["Runtime error at line " +:+ pretty (line token) +:+ ": "
                 +:+ message]) i').
Proof. intros H. unfold interpret. rewrite H. reflexivity. Qed.

(** C2 (the code departs from it). A parse error and a resolver error are
    each reported while [had_error] stays unset, and the statements that
    follow are resolved and executed. *)
Theorem parse_error_does_not_stop_run float_str time_time :
  (let '(r, lox) :=
     run float_str time_time 100 "print; print nil;" Lox_init in
   r = Ok tt
   /\ stdout (interpreter lox)
      = ["Parse error at line 1: Expected expression."; "nil"]
   /\ had_error lox = false)
  /\ (let '(r, lox) :=
        run float_str time_time 100
          "{ var a = nil; var a = true; print a; }" Lox_init in
      r = Ok tt
      /\ stdout (interpreter lox)
         = ["Error: Already a variable with name 'a' in this scope."; "true"]
      /\ had_error lox = false).
Proof. split; vm_compute; repeat split. Qed.

(** C3 (the code departs from it). A file whose execution raises a runtime
    error: the error is reported with its line and the rest is not run, but
    [had_runtime_error] stays unset and [run_file] returns instead of
    exiting with 70.  An undefined variable raises the [RuntimeError] class
    of [environment.py], which [interpret] does not catch: nothing is
    reported and the exception leaves [run_file]. *)
Theorem runtime_error_flag_not_set float_str time_time :
  (let '(ending, lox) :=
     run_file float_str time_time 100
       (Some "print 1/0; print nil;") Lox_init in
   ending = Returns
   /\ stdout (interpreter lox) = ["Runtime error at line 1: Division by zero."]
   /\ had_runtime_error lox = false)
  /\ (let '(ending, lox) :=
        run_file float_str time_time 100 (Some "print x;") Lox_init in
      ending = Uncaught (EnvRuntimeError (mkToken IDENTIFIER "x" VNil 1)
                           "Undefined variable 'x'.")
      /\ stdout (interpreter lox) = []).
Proof. split; vm_compute; repeat split. Qed.

(** On a sample loop the [for] statement and the block it stands for print
    the same lines. *)
Lemma for_loop_example float_str time_time :
  stdout (interpreter
            (snd (run float_str time_time 100
                    "for (var i = nil; i == nil; i = true) print i;"
                    Lox_init)))
  = ["nil"]
  /\ stdout (interpreter
               (snd (run float_str time_time 100
                       "{ var i = nil; while (i == nil) { print i; i = true; } }"
                       Lox_init)))
     = ["nil"].
Proof. split; vm_compute; reflexivity. Qed.

(** * Further properties of the code *)

(** ** Variable lookup *)

(** ** Environments: the dynamic walk *)

Lemma get_from_eq bound (envs : EnvStore) self name :
  Env.get_from bound envs self name
  = match envs !! self with
    | None => Raise Dangling
    | Some e =>
        match values e !! lexeme name with
        | Some v => Ok v
        | None =>
            match enclosing e, bound with
            | Some parent, S bound' => Env.get_from bound' envs parent name
            | Some _, O => Raise OutOfFuel
            | None, _ =>
                Raise (EnvRuntimeError name
                         ("Undefined variable '" +:+ lexeme name +:+ "'."))
            end
        end
    end.
Proof. destruct bound; reflexivity. Qed.

Lemma assign_from_eq bound (envs : EnvStore) self name value :
  Env.assign_from bound envs self name value
  = match envs !! self with
    | None => Raise Dangling
    | Some e =>
        match values e !! lexeme name with
        | Some _ => Ok (Env.define envs self (lexeme name) value)
        | None =>
            match enclosing e, bound with
            | Some parent, S bound' =>
                Env.assign_from bound' envs parent name value
            | Some _, O => Raise OutOfFuel
            | None, _ =>
                Raise (EnvRuntimeError name
                         ("Undefined variable '" +:+ lexeme name +:+ "'."))
            end
        end
    end.
Proof. destruct bound; reflexivity. Qed.

Lemma unbound_within_here (envs : EnvStore) e d name E :
  unbound_within envs e (S d) name -> envs !! e = Some E ->
  values E !! name = None.
Proof. intros H HE. eapply (H 0); [lia | by eapply hops_here | done]. Qed.

Lemma unbound_within_out (envs : EnvStore) e d name E parent :
  unbound_within envs e (S d) name -> envs !! e = Some E ->
  enclosing E = Some parent -> unbound_within envs parent d name.
Proof.
  intros H HE Hp d' e'' E'' Hd Hh HE''.
  eapply (H (S d')); [lia | by eapply hops_out | done].
Qed.

Lemma get_from_nearest (envs : EnvStore) name v e d e' :
  store_ok envs -> hops envs e d e' ->
  forall bound E',
    e <= bound -> envs !! e' = Some E' ->
    values E' !! lexeme name = Some v ->
    unbound_within envs e d (lexeme name) ->
    Env.get_from bound envs e name = Ok v.
Proof.
  intros Hok. induction 1 as [e E He | e E parent d e' He Hp Hh IH];
    intros bound E' Hb HE' Hv Hun; rewrite get_from_eq, He.
  - rewrite HE' in He. injection He as <-. by rewrite Hv.
  - rewrite (unbound_within_here _ _ _ _ _ Hun He), Hp.
    pose proof (Hok _ _ _ He Hp) as Hlt.
    destruct bound as [|bound]; [lia|].
    eapply IH; eauto; [lia|]. by eapply unbound_within_out.
Qed.

Lemma assign_from_nearest (envs : EnvStore) name value w e d e' :
  store_ok envs -> hops envs e d e' ->
  forall bound E',
    e <= bound -> envs !! e' = Some E' ->
    values E' !! lexeme name = Some w ->
    unbound_within envs e d (lexeme name) ->
    Env.assign_from bound envs e name value
    = Ok (Env.define envs e' (lexeme name) value).
Proof.
  intros Hok. induction 1 as [e E He | e E parent d e' He Hp Hh IH];
    intros bound E' Hb HE' Hv Hun; rewrite assign_from_eq, He.
  - rewrite HE' in He. injection He as <-. by rewrite Hv.
  - rewrite (unbound_within_here _ _ _ _ _ Hun He), Hp.
    pose proof (Hok _ _ _ He Hp) as Hlt.
    destruct bound as [|bound]; [lia|].
    eapply IH; eauto; [lia|]. by eapply unbound_within_out.
Qed.

Lemma walk_undefined (envs : EnvStore) name e d e' :
  store_ok envs -> hops envs e d e' ->
  forall bound E',
    e <= bound -> envs !! e' = Some E' -> enclosing E' = None ->
    unbound_within envs e (S d) (lexeme name) ->
    Env.get_from bound envs e name
    = Raise (EnvRuntimeError name
               ("Undefined variable '" +:+ lexeme name +:+ "'."))
    /\ forall value,
        Env.assign_from bound envs e name value
        = Raise (EnvRuntimeError name
                   ("Undefined variable '" +:+ lexeme name +:+ "'.")).
Proof.
  intros Hok. induction 1 as [e E He | e E parent d e' He Hp Hh IH];
    intros bound E' Hb HE' Hroot Hun.
  - rewrite get_from_eq. setoid_rewrite assign_from_eq. rewrite He.
    rewrite (unbound_within_here _ _ _ _ _ Hun He).
    rewrite HE' in He. injection He as <-. by rewrite Hroot.
  - rewrite get_from_eq. setoid_rewrite assign_from_eq. rewrite He.
    rewrite (unbound_within_here _ _ _ _ _ Hun He), Hp.
    pose proof (Hok _ _ _ He Hp) as Hlt.
    destruct bound as [|bound]; [lia|].
    eapply IH; eauto; [lia|]. by eapply unbound_within_out.
Qed.

Lemma hops_bound (envs : EnvStore) e d e' :
  hops envs e d e' -> e < length envs.
Proof. destruct 1; by eapply lookup_lt_Some. Qed.

Lemma ancestor_of_hops (envs : EnvStore) e d e' :
  hops envs e d e' -> Env.ancestor envs e d = Ok (Some e').
Proof.
  unfold Env.ancestor.
  induction 1 as [e E He | e E parent d e' He Hp _ IH]; simpl.
  - reflexivity.
  - rewrite He, Hp. exact IH.
Qed.

(** X1. Lexical lookup: when the nearest environment that binds the name
    is [d] hops out, the walk of [get] returns the value bound there, the
    same as [get_at] at distance [d]. *)
Theorem get_finds_nearest (envs : EnvStore) name v e d e' E' :
  store_ok envs -> hops envs e d e' -> envs !! e' = Some E' ->
  values E' !! lexeme name = Some v ->
  unbound_within envs e d (lexeme name) ->
  Env.get envs e name = Ok v
  /\ Env.get envs e name = Env.get_at envs e d (lexeme name).
Proof.
  intros Hok Hh HE' Hv Hun.
  assert (Hget : Env.get envs e name = Ok v).
  { unfold Env.get. eapply get_from_nearest; eauto.
    pose proof (hops_bound _ _ _ _ Hh). lia. }
  split; [exact Hget|]. rewrite Hget.
  unfold Env.get_at. rewrite (ancestor_of_hops _ _ _ _ Hh), HE', Hv.
  reflexivity.
Qed.

(** X2. A name bound nowhere on the chain up to the outermost environment:
    [get] and [assign] both raise the environment's "Undefined variable"
    error at the name token, and [assign] creates no binding. *)
Theorem undefined_variable (envs : EnvStore) name e d e' E' :
  store_ok envs -> hops envs e d e' -> envs !! e' = Some E' ->
  enclosing E' = None ->
  unbound_within envs e (S d) (lexeme name) ->
  Env.get envs e name
  = Raise (EnvRuntimeError name
             ("Undefined variable '" +:+ lexeme name +:+ "'."))
  /\ forall value,
      Env.assign envs e name value
      = Raise (EnvRuntimeError name
                 ("Undefined variable '" +:+ lexeme name +:+ "'.")).
Proof.
  intros Hok Hh HE' Hroot Hun. unfold Env.get, Env.assign.
  eapply walk_undefined; eauto.
  pose proof (hops_bound _ _ _ _ Hh). lia.
Qed.

Lemma define_length (envs : EnvStore) r name value :
  length (Env.define envs r name value) = length envs.
Proof.
  unfold Env.define. destruct (envs !! r); [apply length_insert | done].
Qed.

Lemma get_after_define_nearest (envs : EnvStore) name value w e d e' :
  hops envs e d e' ->
  forall bound E',
    e <= bound -> store_ok envs -> envs !! e' = Some E' ->
    values E' !! lexeme name = Some w ->
    unbound_within envs e d (lexeme name) ->
    Env.get_from bound (Env.define envs e' (lexeme name) value) e name
    = Ok value.
Proof.
  induction 1 as [e E He | e E parent d e' He Hp Hh IH];
    intros bound E' Hb Hok HE' Hv Hun; rewrite get_from_eq.
  - rewrite (define_lookup_same _ _ _ _ _ HE'). simpl.
    by rewrite lookup_insert_eq.
  - pose proof (unbound_within_here _ _ _ _ _ Hun He) as Hnone.
    assert (Hne : e' <> e) by (intros ->; congruence).
    rewrite (define_lookup_other _ _ _ _ _ Hne), He, Hnone, Hp.
    pose proof (Hok _ _ _ He Hp) as Hlt.
    destruct bound as [|bound]; [lia|].
    eapply IH; eauto; [lia|]. by eapply unbound_within_out.
Qed.

(** X3. Assignment through the dynamic walk: when the nearest environment
    that binds the name is [d] hops out, [assign] writes exactly there, as
    [assign_at] at distance [d] does; the name is read back with the new
    value, every other environment is as before, and the written
    environment binds the same names as before. *)
Theorem assign_writes_nearest (envs : EnvStore) name value w e d e' E' :
  store_ok envs -> hops envs e d e' -> envs !! e' = Some E' ->
  values E' !! lexeme name = Some w ->
  unbound_within envs e d (lexeme name) ->
  exists envs',
    Env.assign envs e name value = Ok envs'
    /\ Env.assign_at envs e d name value = Ok envs'
    /\ Env.get envs' e name = Ok value
    /\ (forall r, r <> e' -> envs' !! r = envs !! r)
    /\ exists E'',
        envs' !! e' = Some E'' /\ enclosing E'' = enclosing E'
        /\ dom (values E'') = dom (values E').
Proof.
  intros Hok Hh HE' Hv Hun.
  pose proof (hops_bound _ _ _ _ Hh) as Hlt.
  exists (Env.define envs e' (lexeme name) value).
  split; [|split; [|split; [|split]]].
  - unfold Env.assign. eapply assign_from_nearest; eauto. lia.
  - unfold Env.assign_at. by rewrite (ancestor_of_hops _ _ _ _ Hh), HE'.
  - unfold Env.get. rewrite define_length.
    eapply get_after_define_nearest; eauto. lia.
  - intros r Hr. apply define_lookup_other. congruence.
  - eexists. split; [by apply define_lookup_same|]. split; [done|].
    simpl. apply dom_insert_lookup_L. by eexists.
Qed.

Lemma get_from_define_other bound : forall (envs : EnvStore) r name value e name',
  lexeme name' <> name ->
  Env.get_from bound (Env.define envs r name value) e name'
  = Env.get_from bound envs e name'.
Proof.
  induction bound as [|bound IH]; intros envs r name value e name' Hne;
    rewrite !get_from_eq.
  - destruct (decide (r = e)) as [->|Hr].
    + destruct (envs !! e) as [E|] eqn:HE.
      * rewrite (define_lookup_same _ _ _ _ _ HE). simpl.
        rewrite lookup_insert_ne by done. reflexivity.
      * unfold Env.define. by rewrite HE, HE.
    + by rewrite define_lookup_other.
  - destruct (decide (r = e)) as [->|Hr].
    + destruct (envs !! e) as [E|] eqn:HE.
      * rewrite (define_lookup_same _ _ _ _ _ HE). simpl.
        rewrite lookup_insert_ne by done.
        destruct (values E !! lexeme name'); [done|].
        destruct (enclosing E); [|done]. by apply IH.
      * unfold Env.define. by rewrite HE, HE.
    + rewrite define_lookup_other by done.
      destruct (envs !! e) as [E|]; [|done].
      destruct (values E !! lexeme name'); [done|].
      destruct (enclosing E); [|done]. by apply IH.
Qed.

Lemma get_define_same (envs : EnvStore) e E name value :
  envs !! e = Some E ->
  Env.get (Env.define envs e (lexeme name) value) e name = Ok value.
Proof.
  intros HE. unfold Env.get. rewrite get_from_eq.
  rewrite (define_lookup_same _ _ _ _ _ HE). simpl.
  by rewrite lookup_insert_eq.
Qed.

(** X4. [define] then [get]: the name is read back with the value just
    defined, whether or not it was bound before (redefinition overwrites),
    and looking up any other name from any environment gives what it gave
    before. *)
Theorem define_then_get (envs : EnvStore) e E name value :
  envs !! e = Some E ->
  Env.get (Env.define envs e (lexeme name) value) e name = Ok value
  /\ forall name' e2,
      lexeme name' <> lexeme name ->
      Env.get (Env.define envs e (lexeme name) value) e2 name'
      = Env.get envs e2 name'.
Proof.
  intros HE. split.
  - by eapply get_define_same.
  - intros name' e2 Hne. unfold Env.get. rewrite define_length.
    by apply get_from_define_other.
Qed.

(** ** Classes and instances *)

Lemma insert_last {A} (l : list A) (x y : A) :
  <[length l := x]> (l ++ [y]) = l ++ [x].
Proof.
  replace (length l) with (length l + 0) by lia. by rewrite insert_app_r.
Qed.

Lemma find_method_from_eq bound (cs : list LoxClass) self name :
  find_method_from bound cs self name
  = match cs !! self with
    | None => None
    | Some c =>
        match methods c !! name with
        | Some f => Some f
        | None =>
            match superclass c, bound with
            | Some parent, S bound' => find_method_from bound' cs parent name
            | _, _ => None
            end
        end
    end.
Proof. destruct bound; reflexivity. Qed.

Lemma find_method_from_stable (cs : list LoxClass) name :
  classes_ok cs ->
  forall b b' c, c <= b -> c <= b' ->
    find_method_from b cs c name = find_method_from b' cs c name.
Proof.
  intros Hok. induction b as [|b IH]; intros b' c Hb Hb';
    rewrite (find_method_from_eq _ cs c), (find_method_from_eq b' cs c);
    destruct (cs !! c) as [C|] eqn:HC; try reflexivity;
    destruct (methods C !! name); try reflexivity;
    destruct (superclass C) as [p|] eqn:Hp; try reflexivity;
    pose proof (Hok _ _ _ HC Hp) as Hlt; [lia|].
  destruct b' as [|b']; [lia|]. apply IH; lia.
Qed.

(** X5. Method lookup: a method in the class's own table is found there
    (it overrides the superclass's); a name missing from the own table is
    looked up in the superclass with the same result as asking the
    superclass directly; without a superclass it is not found. *)
Theorem find_method_inherits (cs : list LoxClass) c C name :
  classes_ok cs -> cs !! c = Some C ->
  (forall f, methods C !! name = Some f ->
     find_method_from (length cs) cs c name = Some f)
  /\ (forall parent,
        methods C !! name = None -> superclass C = Some parent ->
        find_method_from (length cs) cs c name
        = find_method_from (length cs) cs parent name)
  /\ (methods C !! name = None -> superclass C = None ->
      find_method_from (length cs) cs c name = None).
Proof.
  intros Hok HC. pose proof (lookup_lt_Some _ _ _ HC) as Hlt.
  split; [|split].
  - intros f Hf. by rewrite find_method_from_eq, HC, Hf.
  - intros parent Hn Hp. rewrite find_method_from_eq, HC, Hn, Hp.
    pose proof (Hok _ _ _ HC Hp).
    destruct (length cs) as [|b] eqn:Hlen; [lia|].
    apply find_method_from_stable; [done | lia | lia].
  - intros Hn Hp. by rewrite find_method_from_eq, HC, Hn, Hp.
Qed.

(** X6. A field written with [set] is read back by [get] on the same
    instance under the same name, with no other effect, whatever methods
    the class has: a field shadows a method of the same name. *)
Theorem instance_set_then_get i o O name name' value :
  instances i !! o = Some O -> lexeme name' = lexeme name ->
  forall i1,
    LoxInstance_set o name value i = (Ok tt, i1) ->
    LoxInstance_get o name' i1 = (Ok value, i1).
Proof.
  intros HO Hname i1 [= <-].
  unfold LoxInstance_get, bind, gets, the. simpl. rewrite HO.
  rewrite list_lookup_insert_eq by (by eapply lookup_lt_Some).
  simpl. rewrite Hname. by rewrite lookup_insert_eq.
Qed.

(** X7. Reading a name that is no field: a method found for the class is
    returned as a new function object whose closure is a new environment
    over the method's closure binding only [this] to the instance; a second
    access creates another object, and the two are not equal.  With neither
    field nor method the runtime error "Undefined property" is raised at
    the name and nothing changes. *)
Theorem instance_get_method i o O name :
  instances i !! o = Some O -> fields O !! lexeme name = None ->
  (forall m f,
     find_method_from (length (classes i)) (classes i) (klass O) (lexeme name)
     = Some m ->
     functions i !! m = Some f ->
     let i1 :=
       set_functions (fun fs =>
         fs ++ [mkLoxFunction (declaration f) (length (envs i))
                  (is_initializer f)])
         (set_envs (fun es =>
            es ++ [mkEnvironment (Some (closure f))
                     {["this" := VInstance o]}]) i) in
     LoxInstance_get o name i = (Ok (VFunction (length (functions i))), i1)
     /\ exists i2,
         LoxInstance_get o name i1
         = (Ok (VFunction (S (length (functions i)))), i2)
         /\ is_equal (VFunction (length (functions i)))
              (VFunction (S (length (functions i)))) = false)
  /\ (find_method_from (length (classes i)) (classes i) (klass O) (lexeme name)
      = None ->
      LoxInstance_get o name i
      = (Raise (RuntimeError name
                  ("Undefined property '" +:+ lexeme name +:+ "'.")), i)).
Proof.
  intros HO Hfield.
  assert (Hbind : forall j m f,
    instances j !! o = Some O ->
    find_method_from (length (classes j)) (classes j) (klass O) (lexeme name)
    = Some m ->
    functions j !! m = Some f ->
    LoxInstance_get o name j
    = (Ok (VFunction (length (functions j))),
       set_functions (fun fs =>
         fs ++ [mkLoxFunction (declaration f) (length (envs j))
                  (is_initializer f)])
         (set_envs (fun es =>
            es ++ [mkEnvironment (Some (closure f))
                     {["this" := VInstance o]}]) j))).
  { intros j m f HOj Hm Hf.
    unfold LoxInstance_get, bind, gets, the, find_method. rewrite HOj.
    unfold ret at 1. rewrite Hfield. unfold gets. rewrite Hm.
    unfold LoxFunction_bind, bind, gets, the. rewrite Hf.
    unfold ret, new_Environment, env_define, modify, new_LoxFunction.
    simpl. f_equal. unfold set_functions, set_envs, Env.define, Env.new.
    simpl. rewrite lookup_app_r by lia. rewrite Nat.sub_diag. simpl.
    by rewrite insert_last. }
  split.
  - intros m f Hm Hf i1. split; [exact (Hbind i m f HO Hm Hf)|].
    eexists. split.
    + erewrite (Hbind i1 m f); [| exact HO | exact Hm |].
      * unfold i1. simpl. rewrite length_app. simpl.
        replace (length (functions i) + 1) with (S (length (functions i)))
          by lia.
        reflexivity.
      * unfold i1. simpl. by apply lookup_app_l_Some.
    + simpl. apply Nat.eqb_neq. lia.
  - intros Hm.
    unfold LoxInstance_get, bind, gets, the, find_method. rewrite HO.
    unfold ret at 1. rewrite Hfield. unfold gets. by rewrite Hm.
Qed.

(** ** Calls, unary operators and blocks *)

Section MoreEvaluation.

Variable float_str : float -> string.
Variable time_time : nat -> float.

Local Abbreviation eval := (evaluate float_str time_time).
Local Abbreviation exec := (execute float_str time_time).

(** X8. A [Call] expression, once the callee and the arguments are
    evaluated (callee first, arguments in order): a callee that is no
    function, class or built-in raises "Can only call functions and
    classes." at the closing parenthesis; a function given a number of
    arguments other than its number of parameters raises "Expected n
    arguments but got m." and its body is not run (the state is the one left
    by the arguments); with the right number the function object is called;
    [clock] without arguments gives the next reading of the clock. *)
Theorem call_checks n callee paren arguments i c i1 vs i2 :
  eval n callee i = (Ok c, i1) ->
  map_each (eval n) arguments i1 = (Ok vs, i2) ->
  (is_LoxCallable c = false ->
   eval (S n) (Expr.Call callee paren arguments) i
   = (Raise (RuntimeError paren "Can only call functions and classes."), i2))
  /\ (forall f F,
        c = VFunction f -> functions i2 !! f = Some F ->
        length vs <> length (Stmt.params (declaration F)) ->
        eval (S n) (Expr.Call callee paren arguments) i
        = (Raise (RuntimeError paren
                    ("Expected "
                     +:+ pretty (length (Stmt.params (declaration F)))
                     +:+ " arguments but got " +:+ pretty (length vs)
                     +:+ ".")), i2))
  /\ (forall f F,
        c = VFunction f -> functions i2 !! f = Some F ->
        length vs = length (Stmt.params (declaration F)) ->
        eval (S n) (Expr.Call callee paren arguments) i
        = LoxFunction_call (exec n) f vs i2)
  /\ (c = VClock -> vs = [] ->
      eval (S n) (Expr.Call callee paren arguments) i
      = (Ok (VNum (time_time (clock_calls i2))),
         set_clock_calls (S (clock_calls i2)) i2)).
Proof.
  intros Hc Hargs.
  assert (Hstep :
    eval (S n) (Expr.Call callee paren arguments) i
    = (if negb (is_LoxCallable c) then
         raise (RuntimeError paren "Can only call functions and classes.")
       else
         arity <- match c with
                  | VFunction f => LoxFunction_arity f
                  | VClass k => LoxClass_arity k
                  | _ => ret 0
                  end ;;
         if negb (Nat.eqb (length vs) arity) then
           raise (RuntimeError paren
                    ("Expected " +:+ pretty arity +:+ " arguments but got "
                     +:+ pretty (length vs) +:+ "."))
         else
           match c with
           | VFunction f => LoxFunction_call (exec n) f vs
           | VClass k => LoxClass_call (exec n) k vs
           | _ => ClockFunction_call time_time
           end) i2).
  { simpl. unfold visit_call_expr, bind at 1 2. by rewrite Hc, Hargs. }
  rewrite Hstep. split; [|split; [|split]].
  - intros ->. reflexivity.
  - intros f F -> HF Hlen. simpl.
    unfold bind, LoxFunction_arity, bind, gets, the. rewrite HF.
    unfold ret. apply Nat.eqb_neq in Hlen. by rewrite Hlen.
  - intros f F -> HF Hlen. simpl.
    unfold bind, LoxFunction_arity, bind, gets, the. rewrite HF.
    unfold ret. apply Nat.eqb_eq in Hlen. by rewrite Hlen.
  - intros -> ->. reflexivity.
Qed.

(** X9. A [Unary] expression, once its operand is evaluated: [-] negates a
    number and raises "Operand must be a number." at the operator on
    anything else (booleans included); [!] gives the negation of the
    operand's truthiness, so [!!e] is the truthiness of [e] as a boolean. *)
Theorem unary_operators n operator right i v i1 :
  eval n right i = (Ok v, i1) ->
  (type operator = MINUS -> forall x, v = VNum x ->
   eval (S n) (Expr.Unary operator right) i = (Ok (VNum (float_neg x)), i1))
  /\ (type operator = MINUS -> is_float v = false ->
      eval (S n) (Expr.Unary operator right) i
      = (Raise (RuntimeError operator "Operand must be a number."), i1))
  /\ (type operator = BANG ->
      eval (S n) (Expr.Unary operator right) i
      = (Ok (VBool (negb (is_truthy v))), i1)
      /\ eval (S (S n)) (Expr.Unary operator (Expr.Unary operator right)) i
         = (Ok (VBool (is_truthy v)), i1)).
Proof.
  intros Hr.
  assert (Hstep : forall m (e : Expr.t) w,
    eval m e i = (Ok w, i1) ->
    eval (S m) (Expr.Unary operator e) i
    = match type operator with
      | MINUS => (x <- check_number_operand operator w ;;
                  ret (VNum (float_neg x))) i1
      | BANG => (Ok (VBool (negb (is_truthy w))), i1)
      | _ => (Ok VNil, i1)
      end).
  { intros m e w He. simpl. unfold visit_unary_expr, bind at 1. rewrite He.
    by destruct (type operator). }
  split; [|split].
  - intros Hop x ->. by rewrite (Hstep _ _ _ Hr), Hop.
  - intros Hop Hf. rewrite (Hstep _ _ _ Hr), Hop.
    by destruct v.
  - intros Hop.
    assert (H1 : eval (S n) (Expr.Unary operator right) i
                 = (Ok (VBool (negb (is_truthy v))), i1))
      by (by rewrite (Hstep _ _ _ Hr), Hop).
    split; [exact H1|].
    rewrite (Hstep _ _ _ H1), Hop. simpl. by rewrite negb_involutive.
Qed.

Lemma for_each_app {A} (f : A -> M Interpreter unit) xs ys i :
  for_each f (xs ++ ys) i
  = match for_each f xs i with
    | (Ok _, i') => for_each f ys i'
    | (Raise e, i') => (Raise e, i')
    end.
Proof.
  revert i. induction xs as [|x xs IH]; intros i; simpl; [done|].
  unfold bind. destruct (f x i) as [[[]|e] i']; [apply IH | done].
Qed.

(** X10. Unwinding out of a block: when the statements before [s] end
    normally and [s] raises (a runtime error, or the exception of a
    [return]), the block raises the same, the statements after [s] are not
    run, and the interpreter's current environment is again the one from
    before the block. *)
Theorem block_unwinds (run_stmt : Stmt.t -> M Interpreter unit)
    before s after environment' i i1 e i2 :
  for_each (fun statement =>
              match statement with
              | Some s => run_stmt s
              | None => ret tt
              end) before (set_environment environment' i) = (Ok tt, i1) ->
  run_stmt s i1 = (Raise e, i2) ->
  execute_block run_stmt (before ++ Some s :: after) environment' i
  = (Raise e, set_environment (environment i) i2).
Proof.
  intros Hbefore Hs. unfold execute_block.
  rewrite for_each_app, Hbefore. simpl. unfold bind. by rewrite Hs.
Qed.

(** X11. [interpret] never lets a runtime error of the interpreter's own
    class out: it prints one line for it, with the line of the error's
    token, and returns.  Every other exception (the error class of
    [environment.py], a stray [return], Python's own errors) passes through
    with nothing printed, and a normal end prints nothing more. *)
Theorem interpret_catches fuel statements i :
  (forall token message i',
     interpret float_str time_time fuel statements i
     <> (Raise (RuntimeError token message), i'))
  /\ (forall r i',
        for_each (fun statement =>
                    match statement with
                    | Some s => exec fuel s
                    | None => ret tt
                    end) statements i = (r, i') ->
        interpret float_str time_time fuel statements i
        = match r with
          | Raise (RuntimeError token message) =>
              (Ok tt,
               set_stdout (fun lines =>
                 lines ++ ["Runtime error at line " +:+ pretty (line token)
                           +:+ ": " +:+ message]) i')
          | _ => (r, i')
          end).
Proof.
  split.
  - intros token message i'. unfold interpret.
    destruct (for_each _ statements i) as [[[]|[]] i0]; try discriminate.
  - intros r i' H. unfold interpret. rewrite H.
    by destruct r as [[]|[]].
Qed.


End MoreEvaluation.

(** ** What execution leaves in place *)

Lemma grows_refl i : grows i i.
Proof. by repeat split. Qed.

Lemma grows_trans i j k : grows i j -> grows j k -> grows i k.
Proof.
  intros (H1 & H2 & H3 & H4 & H5 & H6 & H7) (G1 & G2 & G3 & G4 & G5 & G6 & G7).
  repeat split; try congruence; try (by etrans); lia.
Qed.

Lemma extends_refl i : extends i i.
Proof. split; [done | apply grows_refl]. Qed.

Lemma extends_trans i j k : extends i j -> extends j k -> extends i k.
Proof.
  intros [H1 H2] [G1 G2]. split; [congruence | by eapply grows_trans].
Qed.

Lemma keeps_ret {A} (a : A) : keeps (ret a).
Proof. intros i. apply extends_refl. Qed.

Lemma keeps_raise {A} e : keeps (@raise Interpreter A e).
Proof. intros i. apply extends_refl. Qed.

Lemma keeps_gets {A} (f : Interpreter -> A) : keeps (gets f).
Proof. intros i. apply extends_refl. Qed.

Lemma keeps_bind {A B} (m : M Interpreter A) (k : A -> M Interpreter B) :
  keeps m -> (forall a, keeps (k a)) -> keeps (bind m k).
Proof.
  intros Hm Hk i. unfold bind. specialize (Hm i).
  destruct (m i) as [[a|e] i']; simpl in *; [|done].
  eapply extends_trans; [exact Hm | apply Hk].
Qed.

Lemma keeps_the {A} (o : option A) : keeps (the o).
Proof. destruct o; [apply keeps_ret | apply keeps_raise]. Qed.

Lemma keeps_for_each {A} (f : A -> M Interpreter unit) xs :
  (forall x, keeps (f x)) -> keeps (for_each f xs).
Proof.
  intros Hf. induction xs as [|x xs IH]; simpl; [apply keeps_ret|].
  apply keeps_bind; [apply Hf | done].
Qed.

Lemma keeps_map_each {A B} (f : A -> M Interpreter B) xs :
  (forall x, keeps (f x)) -> keeps (map_each f xs).
Proof.
  intros Hf. induction xs as [|x xs IH]; simpl; [apply keeps_ret|].
  apply keeps_bind; [apply Hf | intros y].
  apply keeps_bind; [done | intros ys; apply keeps_ret].
Qed.

Lemma keeps_env_define self name value : keeps (env_define self name value).
Proof.
  intros i. repeat split; simpl; try done. by rewrite define_length.
Qed.

Lemma keeps_env_get self name : keeps (env_get self name).
Proof. intros i. apply extends_refl. Qed.

Lemma keeps_env_get_at self d name : keeps (env_get_at self d name).
Proof. intros i. apply extends_refl. Qed.

Lemma assign_from_length bound : forall (envs : EnvStore) self name value envs',
  Env.assign_from bound envs self name value = Ok envs' ->
  length envs' = length envs.
Proof.
  induction bound as [|bound IH]; intros envs self name value envs';
    rewrite assign_from_eq; destruct (envs !! self) as [E|]; try done;
    destruct (values E !! lexeme name);
    try (intros [= <-]; apply define_length);
    destruct (enclosing E); try done.
  apply IH.
Qed.

Lemma keeps_env_assign self name value : keeps (env_assign self name value).
Proof.
  intros i. unfold env_assign.
  destruct (Env.assign (envs i) self name value) as [es|e] eqn:H;
    [|apply extends_refl].
  apply assign_from_length in H.
  repeat split; simpl; try done. lia.
Qed.

Lemma keeps_env_assign_at self d name value :
  keeps (env_assign_at self d name value).
Proof.
  intros i. unfold env_assign_at.
  destruct (Env.assign_at (envs i) self d name value) as [es|e] eqn:H;
    [|apply extends_refl].
  assert (length es = length (envs i)).
  { unfold Env.assign_at in H.
    destruct (Env.ancestor (envs i) self d) as [[r|]|]; try done.
    destruct (envs i !! r); try done.
    injection H as <-. apply define_length. }
  repeat split; simpl; try done. lia.
Qed.

Lemma keeps_new_Environment parent : keeps (new_Environment parent).
Proof.
  intros i. repeat split; simpl; try done. rewrite length_app. lia.
Qed.

Lemma keeps_new_LoxFunction f : keeps (new_LoxFunction f).
Proof.
  intros i. repeat split; simpl; try done. by apply prefix_app_r.
Qed.

Lemma keeps_new_LoxClass c : keeps (new_LoxClass c).
Proof.
  intros i. repeat split; simpl; try done. by apply prefix_app_r.
Qed.

Lemma keeps_new_LoxInstance k : keeps (new_LoxInstance k).
Proof.
  intros i. repeat split; simpl; try done. rewrite length_app. lia.
Qed.

Lemma keeps_print text : keeps (print set_stdout text).
Proof.
  intros i. repeat split; simpl; try done. by apply prefix_app_r.
Qed.

Lemma keeps_LoxInstance_set self name value :
  keeps (LoxInstance_set self name value).
Proof.
  intros i. repeat split; simpl; try done.
  destruct (instances i !! self); [by rewrite length_insert | done].
Qed.

Lemma keeps_check_number_operand operator v :
  keeps (check_number_operand operator v).
Proof. destruct v; (apply keeps_ret || apply keeps_raise). Qed.

Lemma keeps_check_number_operands operator a b :
  keeps (check_number_operands operator a b).
Proof. destruct a, b; (apply keeps_ret || apply keeps_raise). Qed.

Create HintDb keeps.
#[local] Hint Resolve keeps_ret keeps_raise keeps_gets keeps_the
  keeps_env_define keeps_env_get keeps_env_get_at keeps_env_assign
  keeps_env_assign_at keeps_new_Environment keeps_new_LoxFunction
  keeps_new_LoxClass keeps_new_LoxInstance keeps_print
  keeps_LoxInstance_set keeps_check_number_operand
  keeps_check_number_operands : keeps.

(** One step of a proof that a monadic term keeps the frame. *)
Ltac keeps_step :=
  match goal with
  | |- keeps (bind _ _) => apply keeps_bind; [| intros ?]
  | |- keeps (for_each _ _) => apply keeps_for_each; intros ?
  | |- keeps (map_each _ _) => apply keeps_map_each; intros ?
  | |- keeps (match ?x with _ => _ end) => destruct x
  | |- keeps _ => solve [eauto with keeps]
  end.

Lemma keeps_find_method self name : keeps (find_method self name).
Proof. unfold find_method. repeat keeps_step. Qed.

Lemma keeps_LoxFunction_bind self instance :
  keeps (LoxFunction_bind self instance).
Proof. unfold LoxFunction_bind. repeat keeps_step. Qed.

Lemma keeps_LoxFunction_arity self : keeps (LoxFunction_arity self).
Proof. unfold LoxFunction_arity. repeat keeps_step. Qed.

#[local] Hint Resolve keeps_find_method keeps_LoxFunction_bind
  keeps_LoxFunction_arity : keeps.

Lemma keeps_LoxClass_arity self : keeps (LoxClass_arity self).
Proof. unfold LoxClass_arity. repeat keeps_step. Qed.

Lemma keeps_LoxInstance_get self name : keeps (LoxInstance_get self name).
Proof. unfold LoxInstance_get. repeat keeps_step. Qed.

#[local] Hint Resolve keeps_LoxClass_arity keeps_LoxInstance_get : keeps.

Lemma keeps_define_params env' params : forall arguments k,
  keeps (define_params env' params arguments k).
Proof.
  induction params as [|p ps IH]; intros arguments k; simpl;
    repeat keeps_step.
Qed.

#[local] Hint Resolve keeps_define_params : keeps.

Lemma lookup_last {A} (l : list A) (x : A) : (l ++ [x]) !! length l = Some x.
Proof. rewrite lookup_app_r by lia. by rewrite Nat.sub_diag. Qed.

Lemma define_last (es : EnvStore) parent m name value :
  Env.define (es ++ [mkEnvironment parent m]) (length es) name value
  = es ++ [mkEnvironment parent (<[name := value]> m)].
Proof. unfold Env.define. rewrite lookup_last. apply insert_last. Qed.

Section Frame.

Variable float_str : float -> string.
Variable time_time : nat -> float.

Lemma keeps_stringify v : keeps (stringify float_str v).
Proof. unfold stringify. repeat keeps_step. Qed.

Lemma keeps_ClockFunction_call : keeps (ClockFunction_call time_time).
Proof. intros i. by repeat split. Qed.

Hint Resolve keeps_stringify keeps_ClockFunction_call : keeps.

Section FrameVisitors.

Variable ev : Expr.t -> M Interpreter Value.
Variable ex : Stmt.t -> M Interpreter unit.
Hypothesis keeps_ev : forall e, keeps (ev e).
Hypothesis keeps_ex : forall s, keeps (ex s).

Hint Resolve keeps_ev keeps_ex : keeps.

Lemma keeps_execute_block statements environment' :
  keeps (execute_block ex statements environment').
Proof.
  intros i. unfold execute_block.
  pose proof (keeps_for_each
                (fun statement => match statement with
                                  | Some s => ex s
                                  | None => ret tt
                                  end) statements) as H.
  specialize (H (fun x => match x with
                          | Some s => keeps_ex s
                          | None => keeps_ret tt
                          end) (set_environment environment' i)).
  destruct (for_each _ statements _) as [r i']. simpl in *.
  destruct H as [_ H]. split; [done|]. exact H.
Qed.

Hint Resolve keeps_execute_block : keeps.

Lemma keeps_LoxFunction_call self arguments :
  keeps (LoxFunction_call ex self arguments).
Proof.
  unfold LoxFunction_call. repeat keeps_step.
  intros i.
  pose proof (keeps_execute_block (Stmt.body (declaration a)) a0 i) as H.
  destruct (execute_block _ _ _ i) as [[[]|e] i']; simpl in H.
  - destruct (is_initializer a); [|done].
    eapply extends_trans; [exact H | apply keeps_env_get_at].
  - destruct e; try done.
    destruct (is_initializer a); [|done].
    eapply extends_trans; [exact H | apply keeps_env_get_at].
Qed.

Hint Resolve keeps_LoxFunction_call : keeps.

Lemma keeps_LoxClass_call self arguments :
  keeps (LoxClass_call ex self arguments).
Proof. unfold LoxClass_call. repeat keeps_step. Qed.

Hint Resolve keeps_LoxClass_call : keeps.

Lemma LoxClass_call_result self arguments i v i' :
  LoxClass_call ex self arguments i = (Ok v, i') ->
  v = VInstance (length (instances i))
  /\ length (instances i) < length (instances i')
  /\ environment i' = environment i.
Proof.
  intros H.
  pose proof (keeps_LoxClass_call self arguments i) as [Henv _].
  rewrite H in Henv. simpl in Henv.
  revert H. unfold LoxClass_call, bind at 1, new_LoxInstance.
  set (i0 := set_instances _ i).
  assert (Hlen : length (instances i0) = S (length (instances i))).
  { unfold i0. simpl. rewrite length_app. simpl. lia. }
  unfold bind at 1, find_method, gets.
  destruct (find_method_from _ _ self "init") as [m|].
  - assert (Hk : keeps (bound <- LoxFunction_bind m
                                   (VInstance (length (instances i))) ;;
                        LoxFunction_call ex bound arguments ;;;
                        ret (VInstance (length (instances i))))).
    { repeat keeps_step. }
    specialize (Hk i0). destruct Hk as (_ & _ & _ & _ & _ & _ & _ & Hk).
    intros H. rewrite H in Hk. cbn [snd] in Hk.
    split; [|split; [lia | done]].
    revert H. unfold bind.
    destruct (LoxFunction_bind m _ i0) as [[bound|e] i2]; [|done].
    destruct (LoxFunction_call ex bound arguments i2) as [[w|e] i3]; [|done].
    by intros [= <- _].
  - intros [= <- <-]. split; [done|]. split; [lia | done].
Qed.

Lemma keeps_visit_unary_expr operator right :
  keeps (visit_unary_expr ev operator right).
Proof. unfold visit_unary_expr. repeat keeps_step. Qed.

Lemma keeps_visit_binary_expr left operator right :
  keeps (visit_binary_expr float_str ev left operator right).
Proof. unfold visit_binary_expr. repeat keeps_step. Qed.

Lemma keeps_visit_logical_expr left operator right :
  keeps (visit_logical_expr ev left operator right).
Proof. unfold visit_logical_expr. repeat keeps_step. Qed.

Lemma keeps_lookup_variable name node : keeps (lookup_variable name node).
Proof. unfold lookup_variable. repeat keeps_step. Qed.

Lemma keeps_visit_assign_expr node name value :
  keeps (visit_assign_expr ev node name value).
Proof. unfold visit_assign_expr. repeat keeps_step. Qed.

Lemma keeps_visit_call_expr callee paren arguments :
  keeps (visit_call_expr time_time ev ex callee paren arguments).
Proof. unfold visit_call_expr. repeat keeps_step. Qed.

Lemma keeps_visit_get_expr object name :
  keeps (visit_get_expr ev object name).
Proof. unfold visit_get_expr. repeat keeps_step. Qed.

Lemma keeps_visit_set_expr object name value :
  keeps (visit_set_expr ev object name value).
Proof. unfold visit_set_expr. repeat keeps_step. Qed.

Lemma keeps_visit_super_expr node keyword method :
  keeps (visit_super_expr node keyword method).
Proof. unfold visit_super_expr. repeat keeps_step. Qed.

Lemma keeps_visit_block_stmt statements :
  keeps (visit_block_stmt ex statements).
Proof. unfold visit_block_stmt. repeat keeps_step. Qed.

Lemma keeps_visit_expression_stmt expression :
  keeps (visit_expression_stmt ev expression).
Proof. unfold visit_expression_stmt. repeat keeps_step. Qed.

Lemma keeps_visit_function_stmt stmt : keeps (visit_function_stmt stmt).
Proof. unfold visit_function_stmt. repeat keeps_step. Qed.

Lemma keeps_visit_if_stmt condition then_branch else_branch :
  keeps (visit_if_stmt ev ex condition then_branch else_branch).
Proof. unfold visit_if_stmt. repeat keeps_step. Qed.

Lemma keeps_visit_print_stmt expression :
  keeps (visit_print_stmt float_str ev expression).
Proof. unfold visit_print_stmt. repeat keeps_step. Qed.

Lemma keeps_visit_return_stmt value : keeps (visit_return_stmt ev value).
Proof. unfold visit_return_stmt. repeat keeps_step. Qed.

Lemma keeps_visit_var_stmt name initializer :
  keeps (visit_var_stmt ev name initializer).
Proof. unfold visit_var_stmt. repeat keeps_step. Qed.

Lemma keeps_visit_while_stmt again condition body :
  keeps again -> keeps (visit_while_stmt ev ex again condition body).
Proof. intros H. unfold visit_while_stmt. repeat keeps_step. Qed.

Lemma keeps_visit_class_stmt name superclass methods :
  keeps (visit_class_stmt ev name superclass methods).
Proof.
  unfold visit_class_stmt.
  match goal with
  | |- context [bind (?f methods ∅)] => set (build := f)
  end.
  assert (Hbuild : forall ms table j,
            exists t fs,
              build ms table j = (Ok t, set_functions (fun f => f ++ fs) j)).
  { induction ms as [|m ms IH]; intros table j; simpl.
    - exists table, []. unfold ret. f_equal.
      destruct j; unfold set_functions; simpl. by rewrite app_nil_r.
    - unfold bind, gets, new_LoxFunction.
      edestruct IH as (t & fs & ->). eexists t, (_ :: fs). f_equal.
      unfold set_functions; simpl. by rewrite <- app_assoc. }
  assert (Hkeeps : forall ms table, keeps (build ms table)).
  { intros ms table j. destruct (Hbuild ms table j) as (t & fs & ->).
    repeat split; simpl; try done. by apply prefix_app_r. }
  destruct superclass as [[node sname]|].
  - intros i. unfold bind at 1. unfold bind at 1.
    pose proof (keeps_ev (Expr.Variable_ node sname) i) as H0.
    destruct (ev (Expr.Variable_ node sname) i) as [[v|e] j];
      simpl in H0; [|exact H0].
    destruct v; try exact H0.
    eapply extends_trans; [exact H0|]. clear H0 i.
    unfold ret at 1. unfold bind at 1, gets at 1.
    unfold bind at 1, env_define at 1, modify at 1.
    unfold bind at 1. unfold bind at 1, new_Environment at 1.
    unfold bind at 1, modify at 1. unfold env_define at 1, modify at 1.
    unfold bind at 1.
    match goal with
    | |- context [build methods ∅ ?st] =>
        destruct (Hbuild methods ∅ st) as (t & fs & ->)
    end.
    unfold bind at 1, new_LoxClass at 1.
    unfold bind at 1. unfold bind at 1, gets at 1.
    unfold bind at 1. unfold bind at 1, gets at 1.
    cbn -[Env.define lookup].
    set (es1 := Env.define (envs j) (environment j) (lexeme name) VNil).
    rewrite define_last, lookup_last. cbn -[Env.define lookup].
    match goal with
    | |- extends _ (snd (env_assign ?a ?b ?c ?st)) =>
        eapply extends_trans; [|apply (keeps_env_assign a b c st)]
    end.
    repeat split; simpl; try done.
    + by apply prefix_app_r.
    + by apply prefix_app_r.
    + rewrite define_length, length_app, define_length. lia.
  - assert (Hret : forall (k : option nat -> M Interpreter unit),
              keeps (k None) -> keeps (bind (ret None) k))
      by (intros k Hk i; exact (Hk i)).
    apply Hret. repeat (keeps_step || apply Hkeeps).
Qed.

End FrameVisitors.

Hint Resolve keeps_visit_unary_expr keeps_visit_binary_expr
  keeps_visit_logical_expr keeps_lookup_variable keeps_visit_assign_expr
  keeps_visit_call_expr keeps_visit_get_expr keeps_visit_set_expr
  keeps_visit_super_expr keeps_visit_block_stmt keeps_visit_expression_stmt
  keeps_visit_function_stmt keeps_visit_if_stmt keeps_visit_print_stmt
  keeps_visit_return_stmt keeps_visit_var_stmt keeps_visit_while_stmt
  keeps_visit_class_stmt : keeps.

Lemma evaluate_execute_keep n :
  (forall e, keeps (evaluate float_str time_time n e))
  /\ (forall s, keeps (execute float_str time_time n s)).
Proof.
  induction n as [|n [IHe IHs]]; split.
  - intros e i. apply extends_refl.
  - intros s i. apply extends_refl.
  - intros e i. destruct e; simpl.
    + by apply keeps_visit_binary_expr.
    + apply IHe.
    + apply extends_refl.
    + by apply keeps_visit_unary_expr.
    + apply keeps_lookup_variable.
    + by apply keeps_visit_assign_expr.
    + by apply keeps_visit_logical_expr.
    + by apply keeps_visit_call_expr.
    + by apply keeps_visit_get_expr.
    + by apply keeps_visit_set_expr.
    + apply keeps_lookup_variable.
    + apply keeps_visit_super_expr.
  - intros s i. destruct s; simpl.
    + by apply keeps_visit_expression_stmt.
    + by apply keeps_visit_print_stmt.
    + by apply keeps_visit_var_stmt.
    + by apply keeps_visit_block_stmt.
    + by apply keeps_visit_if_stmt.
    + by apply keeps_visit_while_stmt.
    + apply keeps_visit_function_stmt.
    + by apply keeps_visit_return_stmt.
    + by apply keeps_visit_class_stmt.
Qed.

End Frame.

Section FrameResults.

Variable float_str : float -> string.
Variable time_time : nat -> float.

Lemma keeps_interpret fuel statements :
  keeps (interpret float_str time_time fuel statements).
Proof.
  intros i. unfold interpret.
  pose proof (keeps_for_each
                (fun statement => match statement with
                                  | Some s => execute float_str time_time fuel s
                                  | None => ret tt
                                  end) statements) as H.
  specialize (H (fun x => match x with
                          | Some s =>
                              proj2 (evaluate_execute_keep float_str
                                       time_time fuel) s
                          | None => keeps_ret tt
                          end) i).
  destruct (for_each _ statements i) as [[[]|e] i']; simpl in H; [done|].
  destruct e; try done.
  eapply extends_trans; [exact H | apply keeps_print].
Qed.

(** X13. Whatever the bound and however it ends (normally, by a runtime
    error, by a [return] unwinding), evaluating an expression, executing a
    statement or interpreting a program leaves the interpreter's current
    environment the one it was: every block, call and class body that
    switched it has switched it back. *)
Theorem execution_restores_environment fuel :
  (forall e i,
     environment (snd (evaluate float_str time_time fuel e i)) = environment i)
  /\ (forall s i,
        environment (snd (execute float_str time_time fuel s i))
        = environment i)
  /\ (forall statements i,
        environment (snd (interpret float_str time_time fuel statements i))
        = environment i).
Proof.
  destruct (evaluate_execute_keep float_str time_time fuel) as [He Hs].
  split; [|split].
  - intros e i. apply He.
  - intros s i. apply Hs.
  - intros statements i. apply keeps_interpret.
Qed.

(** X14. Executing a statement never writes the globals pointer or the
    resolver's depth table, only adds printed lines after those already
    there, only adds function and class objects after those already there
    (an existing one is never changed), and removes no environment and no
    instance. *)
Theorem execution_keeps_frame fuel s i :
  let i' := snd (execute float_str time_time fuel s i) in
  globals i' = globals i
  /\ locals i' = locals i
  /\ stdout i `prefix_of` stdout i'
  /\ functions i `prefix_of` functions i'
  /\ classes i `prefix_of` classes i'
  /\ length (envs i) <= length (envs i')
  /\ length (instances i) <= length (instances i').
Proof.
  destruct (evaluate_execute_keep float_str time_time fuel) as [_ Hs].
  exact (proj2 (Hs s i)).
Qed.

End FrameResults.

(** ** Instantiation and variables *)

Section Objects.

Variable float_str : float -> string.
Variable time_time : nat -> float.

Local Abbreviation eval := (evaluate float_str time_time).
Local Abbreviation exec := (execute float_str time_time).

(** X27. Calling a class: without an [init] method anywhere up the
    superclass chain the arguments are not looked at and the result is a
    new instance without fields; with one, whatever the initializer
    returns, a call that ends normally gives the new instance (never the
    initializer's value), the instance is in the store afterwards, and the
    current environment is the one from before the call. *)
Theorem class_call_gives_new_instance fuel self arguments i :
  (find_method_from (length (classes i)) (classes i) self "init" = None ->
   LoxClass_call (exec fuel) self arguments i
   = (Ok (VInstance (length (instances i))),
      set_instances (fun os => os ++ [mkLoxInstance self ∅]) i))
  /\ (forall v i',
        LoxClass_call (exec fuel) self arguments i = (Ok v, i') ->
        v = VInstance (length (instances i))
        /\ length (instances i) < length (instances i')
        /\ environment i' = environment i).
Proof.
  split.
  - intros Hnone. unfold LoxClass_call, bind, new_LoxInstance, find_method,
      gets. cbn [classes set_instances]. by rewrite Hnone.
  - intros v i'. apply LoxClass_call_result; [exact time_time|].
    exact (proj2 (evaluate_execute_keep float_str time_time fuel)).
Qed.


End Objects.

(** ** Printing numbers *)

Lemma length_append_string (a b : string) :
  String.length (a +:+ b) = String.length a + String.length b.
Proof. induction a as [|c a IH]; simpl; [done | by rewrite IH]. Qed.

Lemma substring_all (b : string) : substring 0 (String.length b) b = b.
Proof. induction b as [|c b IH]; simpl; [done | by rewrite IH]. Qed.

Lemma substring_suffix (a b : string) :
  substring (String.length a) (String.length b) (a +:+ b) = b.
Proof. induction a as [|c a IH]; simpl; [apply substring_all | exact IH]. Qed.

Lemma substring_prefix (a b : string) :
  substring 0 (String.length a) (a +:+ b) = a.
Proof.
  induction a as [|c a IH]; simpl; [by destruct b | by rewrite IH].
Qed.

(** X15. Numbers are printed as Python prints the float, except that a
    text ending in [.0] loses these two characters (so whole numbers print
    without a fraction) and every other text is kept as it is; the state is
    not touched. *)
Theorem stringify_number float_str x i :
  (forall t, float_str x = t +:+ ".0" ->
     stringify float_str (VNum x) i = (Ok t, i))
  /\ (ends_with_dot_zero (float_str x) = false ->
      stringify float_str (VNum x) i = (Ok (float_str x), i)).
Proof.
  split.
  - intros t Ht. simpl. unfold ret. rewrite Ht.
    unfold ends_with_dot_zero, drop_last_two.
    rewrite length_append_string. simpl String.length.
    replace (String.length t + 2 - 2) with (String.length t) by lia.
    pose proof (substring_suffix t ".0") as Hs. simpl String.length in Hs.
    rewrite Hs, (substring_prefix t ".0").
    replace (Nat.leb 2 (String.length t + 2)) with true
      by (symmetry; apply Nat.leb_le; lia).
    reflexivity.
  - intros H. simpl. unfold ret. by rewrite H.
Qed.

(** ** The scanner *)

Lemma scans_same s s' :
  source s' = source s -> current s <= current s' ->
  (current s <= String.length (source s) ->
   current s' <= String.length (source s)) ->
  scan_line s <= scan_line s' -> scan_out s `prefix_of` scan_out s' ->
  tokens s' = tokens s -> scans s s'.
Proof.
  intros H1 H2 H3 H4 H5 H6. do 5 (split; [done|]).
  exists []. rewrite app_nil_r. split; [done|]. split; constructor.
Qed.

Lemma scans_refl s : scans s s.
Proof. by apply scans_same. Qed.

Lemma scans_trans s1 s2 s3 : scans s1 s2 -> scans s2 s3 -> scans s1 s3.
Proof.
  intros (Hs & Hc & Hb & Hl & Ho & n1 & Ht & Hf & Hsd)
         (Hs' & Hc' & Hb' & Hl' & Ho' & n2 & Ht' & Hf' & Hsd').
  split; [congruence|]. split; [lia|]. split.
  { intros H. rewrite Hs in Hb'. auto. }
  split; [lia|]. split; [by etrans|].
  exists (n1 ++ n2). split; [by rewrite Ht', Ht, app_assoc|]. split.
  - apply Forall_app. split.
    + eapply Forall_impl; [exact Hf|]. simpl. intros t [? ?]. split; [done|lia].
    + eapply Forall_impl; [exact Hf'|]. simpl. intros t [? ?]. split; [done|lia].
  - apply StronglySorted_app_2; [|done|done].
    intros a b Ha Hb0.
    rewrite Forall_forall in Hf, Hf'.
    destruct (Hf a Ha) as [_ ?]. destruct (Hf' b Hb0) as [_ ?]. lia.
Qed.

Lemma scans_position s n :
  current s <= n -> (current s <= String.length (source s) ->
                     n <= String.length (source s)) ->
  scans s (Scan.set_current n s).
Proof.
  intros H1 H2. by apply scans_same.
Qed.

Lemma scans_consume_and_advance s : scans s (snd (Scan.consume_and_advance s)).
Proof.
  unfold Scan.consume_and_advance.
  destruct (Scan.is_at_end s) eqn:He; simpl; [apply scans_refl|].
  apply scans_position; [lia|].
  intros _. unfold Scan.is_at_end in He. apply Nat.leb_gt in He. lia.
Qed.

Lemma scans_consume_if_match c s : scans s (snd (Scan.consume_if_match c s)).
Proof.
  unfold Scan.consume_if_match.
  destruct (Scan.is_at_end s) eqn:He; simpl; [apply scans_refl|].
  destruct (negb _); simpl; [apply scans_refl|].
  apply scans_position; [lia|].
  intros _. unfold Scan.is_at_end in He. apply Nat.leb_gt in He. lia.
Qed.

Lemma scans_add_token t v s : t <> EOF -> scans s (Scan.add_token t v s).
Proof.
  intros Ht. do 5 (split; [done|]). eexists [_]. simpl.
  split; [done|]. split.
  - constructor; [|constructor]. simpl. split; [done | lia].
  - repeat constructor.
Qed.

Lemma scans_incr_line s : scans s (Scan.incr_line s).
Proof. apply scans_same; simpl; try done; lia. Qed.

Lemma scans_set_out f s :
  (forall o, o `prefix_of` f o) -> scans s (Scan.set_out f s).
Proof.
  intros Hf. apply scans_same; simpl; try done.
Qed.

Lemma scans_set_start n s : scans s (Scan.set_start n s).
Proof. by apply scans_same. Qed.

Lemma scans_while turns cond body :
  (forall s, scans s (body s)) ->
  forall s, scans s (Scan.while turns cond body s).
Proof.
  intros Hb. induction turns as [|turns IH]; intros s; simpl;
    [apply scans_refl|].
  destruct (cond s); [|apply scans_refl].
  eapply scans_trans; [apply Hb | apply IH].
Qed.

Lemma keywords_not_eof text : Scan.keywords text <> Some EOF.
Proof.
  unfold Scan.keywords.
  repeat (destruct (String.eqb text _); [discriminate|]). discriminate.
Qed.

Lemma scans_string_literal s : scans s (Scan.string_literal s).
Proof.
  unfold Scan.string_literal.
  match goal with
  | |- context [Scan.while ?n ?c ?b s] =>
      pose proof (scans_while n c b) as Hw; set (s1 := Scan.while n c b s)
  end.
  assert (H1 : scans s s1).
  { apply Hw. intros s0. destruct (Ascii.eqb _ _).
    - eapply scans_trans; [apply scans_incr_line
                          | apply scans_consume_and_advance].
    - apply scans_consume_and_advance. }
  destruct (Scan.is_at_end s1).
  - eapply scans_trans; [exact H1|]. apply scans_set_out.
    intros o. by apply prefix_app_r.
  - eapply scans_trans; [exact H1|].
    eapply scans_trans; [apply scans_consume_and_advance|].
    by apply scans_add_token.
Qed.

Lemma scans_number_literal s : scans s (Scan.number_literal s).
Proof.
  unfold Scan.number_literal.
  assert (Hd : forall n s0,
            scans s0 (Scan.while n (fun s => Scan.is_digit (Scan.peek s))
                        (fun s => snd (Scan.consume_and_advance s)) s0)).
  { intros n s0. apply scans_while. intros ?. apply scans_consume_and_advance. }
  eapply scans_trans; [apply Hd|].
  eapply scans_trans; [|by apply scans_add_token].
  destruct (_ && _); [|apply scans_refl].
  eapply scans_trans; [apply scans_consume_and_advance | apply Hd].
Qed.

Lemma scans_identifier s : scans s (Scan.identifier s).
Proof.
  unfold Scan.identifier.
  eapply scans_trans.
  - apply scans_while. intros ?. apply scans_consume_and_advance.
  - apply scans_add_token.
    match goal with
    | |- context [Scan.keywords ?t] =>
        pose proof (keywords_not_eof t); destruct (Scan.keywords t)
    end; congruence.
Qed.

Lemma scans_two_chars long short s :
  long <> EOF -> short <> EOF -> scans s (Scan.two_chars long short s).
Proof.
  intros Hl Hs. unfold Scan.two_chars.
  pose proof (scans_consume_if_match "=" s) as H.
  destruct (Scan.consume_if_match "=" s) as [m s1]. simpl in H.
  eapply scans_trans; [exact H|]. apply scans_add_token. by destruct m.
Qed.

Lemma scans_scan_token s : scans s (Scan.scan_token s).
Proof.
  unfold Scan.scan_token.
  pose proof (scans_consume_and_advance s) as H.
  destruct (Scan.consume_and_advance s) as [c s1]. simpl in H.
  eapply scans_trans; [exact H|]. clear H.
  repeat match goal with
         | |- scans _ (if ?b then _ else _) => destruct b
         end;
    try (by apply scans_add_token);
    try (by apply scans_two_chars);
    try apply scans_refl;
    try apply scans_incr_line;
    try apply scans_string_literal;
    try apply scans_number_literal;
    try apply scans_identifier.
  - pose proof (scans_consume_if_match "/" s1) as H.
    destruct (Scan.consume_if_match "/" s1) as [m s2]. simpl in H.
    eapply scans_trans; [exact H|]. destruct m.
    + apply scans_while. intros ?. apply scans_consume_and_advance.
    + by apply scans_add_token.
  - apply scans_set_out. intros o. by apply prefix_app_r.
Qed.

Lemma scan_token_advances s :
  Scan.is_at_end s = false -> current s < current (Scan.scan_token s).
Proof.
  intros He.
  assert (H : scans (snd (Scan.consume_and_advance s)) (Scan.scan_token s)).
  { unfold Scan.scan_token.
    destruct (Scan.consume_and_advance s) as [c s1]. simpl.
    repeat match goal with
           | |- scans _ (if ?b then _ else _) => destruct b
           end;
      try (by apply scans_add_token);
      try (by apply scans_two_chars);
      try apply scans_refl;
      try apply scans_incr_line;
      try apply scans_string_literal;
      try apply scans_number_literal;
      try apply scans_identifier.
    - pose proof (scans_consume_if_match "/" s1) as H.
      destruct (Scan.consume_if_match "/" s1) as [m s2]. simpl in H.
      eapply scans_trans; [exact H|]. destruct m.
      + apply scans_while. intros ?. apply scans_consume_and_advance.
      + by apply scans_add_token.
    - apply scans_set_out. intros o. by apply prefix_app_r. }
  destruct H as (_ & Hc & _). unfold Scan.consume_and_advance in Hc.
  rewrite He in Hc. simpl in Hc. lia.
Qed.

Lemma scan_loop_step s :
  scans s (Scan.scan_token (Scan.set_start (current s) s)).
Proof.
  eapply scans_trans; [apply scans_set_start | apply scans_scan_token].
Qed.

Lemma while_ends turns : forall s,
  String.length (source s) - current s <= turns ->
  Scan.is_at_end
    (Scan.while turns (fun s => negb (Scan.is_at_end s))
       (fun s => Scan.scan_token (Scan.set_start (current s) s)) s) = true.
Proof.
  induction turns as [|turns IH]; intros s Hm; simpl.
  - unfold Scan.is_at_end. apply Nat.leb_le. lia.
  - destruct (Scan.is_at_end s) eqn:He; simpl; [exact He|].
    apply IH.
    pose proof (scan_token_advances (Scan.set_start (current s) s) He) as Hadv.
    destruct (scan_loop_step s) as (Hsrc & _).
    rewrite Hsrc. simpl in Hadv. lia.
Qed.

(** X16. Scanning reads the whole source: every call of [scan_token]
    moves the position forward by at least one character, so the loop of
    [scan_tokens] ends only with the position at the end of the source. *)
Theorem scan_consumes_source text out :
  (forall s, Scan.is_at_end s = false ->
     current s < current (Scan.scan_token s))
  /\ Scan.is_at_end (scan_loop text out) = true
  /\ current (scan_loop text out) = String.length text
  /\ Scan.scan_tokens text out
     = (tokens (scan_loop text out)
        ++ [mkToken EOF "" VNil (scan_line (scan_loop text out))],
        scan_out (scan_loop text out)).
Proof.
  split; [apply scan_token_advances|].
  assert (He : Scan.is_at_end (scan_loop text out) = true).
  { unfold scan_loop. apply while_ends. simpl. lia. }
  split; [exact He|]. split; [|reflexivity].
  assert (Hs : scans (mkScanner text [] 0 0 1 out) (scan_loop text out)).
  { unfold scan_loop. apply scans_while. apply scan_loop_step. }
  destruct Hs as (Hsrc & _ & Hb & _). simpl in *.
  unfold Scan.is_at_end in He. apply Nat.leb_le in He. rewrite Hsrc in He.
  specialize (Hb ltac:(lia)). lia.
Qed.


(** ** Lexemes *)

Lemma skims_refl s : skims s s.
Proof. by repeat split. Qed.

Lemma skims_trans s1 s2 s3 : skims s1 s2 -> skims s2 s3 -> skims s1 s3.
Proof.
  intros (A1 & A2 & A3) (B1 & B2 & B3). repeat split; congruence.
Qed.

Lemma skims_consume_and_advance s : skims s (snd (Scan.consume_and_advance s)).
Proof.
  unfold Scan.consume_and_advance. destruct (Scan.is_at_end s);
    by repeat split.
Qed.

Lemma skims_consume_if_match c s : skims s (snd (Scan.consume_if_match c s)).
Proof.
  unfold Scan.consume_if_match. destruct (Scan.is_at_end s);
    [by repeat split|].
  destruct (negb _); by repeat split.
Qed.

Lemma skims_incr_line s : skims s (Scan.incr_line s).
Proof. by repeat split. Qed.

Lemma skims_set_out f s : skims s (Scan.set_out f s).
Proof. by repeat split. Qed.

Lemma skims_while turns cond body :
  (forall s, skims s (body s)) ->
  forall s, skims s (Scan.while turns cond body s).
Proof.
  intros Hb. induction turns as [|turns IH]; intros s; simpl;
    [apply skims_refl|].
  destruct (cond s); [|apply skims_refl].
  eapply skims_trans; [apply Hb | apply IH].
Qed.

Lemma adds_after s1 s2 s3 : skims s1 s2 -> adds s2 s3 -> adds s1 s3.
Proof.
  intros H [H'|(ty & lit & s'' & H' & ->)].
  - left. by eapply skims_trans.
  - right. exists ty, lit, s''. split; [by eapply skims_trans | done].
Qed.

Lemma adds_add_token token_type literal s :
  adds s (Scan.add_token token_type literal s).
Proof. right. exists token_type, literal, s. split; [apply skims_refl|done]. Qed.

Lemma adds_string_literal s : adds s (Scan.string_literal s).
Proof.
  unfold Scan.string_literal.
  match goal with
  | |- context [Scan.while ?n ?c ?b s] =>
      pose proof (skims_while n c b) as Hw; set (s1 := Scan.while n c b s)
  end.
  assert (H1 : skims s s1).
  { apply Hw. intros s0. destruct (Ascii.eqb _ _).
    - eapply skims_trans; [apply skims_incr_line
                          | apply skims_consume_and_advance].
    - apply skims_consume_and_advance. }
  eapply adds_after; [exact H1|].
  destruct (Scan.is_at_end s1).
  - left. apply skims_set_out.
  - eapply adds_after; [apply skims_consume_and_advance|].
    apply adds_add_token.
Qed.

Lemma adds_number_literal s : adds s (Scan.number_literal s).
Proof.
  unfold Scan.number_literal.
  assert (Hd : forall n s0,
            skims s0 (Scan.while n (fun s => Scan.is_digit (Scan.peek s))
                        (fun s => snd (Scan.consume_and_advance s)) s0)).
  { intros n s0. apply skims_while. intros ?. apply skims_consume_and_advance. }
  eapply adds_after; [apply Hd|].
  eapply adds_after; [|apply adds_add_token].
  destruct (_ && _); [|apply skims_refl].
  eapply skims_trans; [apply skims_consume_and_advance | apply Hd].
Qed.

Lemma adds_identifier s : adds s (Scan.identifier s).
Proof.
  unfold Scan.identifier.
  eapply adds_after; [|apply adds_add_token].
  apply skims_while. intros ?. apply skims_consume_and_advance.
Qed.

Lemma adds_two_chars long short s : adds s (Scan.two_chars long short s).
Proof.
  unfold Scan.two_chars.
  pose proof (skims_consume_if_match "=" s) as H.
  destruct (Scan.consume_if_match "=" s) as [m s1]. simpl in H.
  eapply adds_after; [exact H|]. apply adds_add_token.
Qed.

Lemma adds_scan_token s : adds s (Scan.scan_token s).
Proof.
  unfold Scan.scan_token.
  pose proof (skims_consume_and_advance s) as H.
  destruct (Scan.consume_and_advance s) as [c s1]. simpl in H.
  eapply adds_after; [exact H|]. clear H.
  repeat match goal with
         | |- adds _ (if ?b then _ else _) => destruct b
         end;
    try apply adds_add_token;
    try apply adds_two_chars;
    try (left; apply skims_refl);
    try (left; apply skims_incr_line);
    try apply adds_string_literal;
    try apply adds_number_literal;
    try apply adds_identifier;
    try (left; apply skims_set_out).
  - pose proof (skims_consume_if_match "/" s1) as H.
    destruct (Scan.consume_if_match "/" s1) as [m s2]. simpl in H.
    eapply adds_after; [exact H|]. destruct m.
    + left. apply skims_while. intros ?. apply skims_consume_and_advance.
    + apply adds_add_token.
Qed.

(** X29. One turn of the scanner's loop adds at most one token, and the
    token's lexeme is exactly the source text from the position the turn
    started at up to the position it ended at; its line is the line counter
    at the end of the turn (for a string over several lines, the line of its
    closing quote). *)
Theorem scan_token_lexeme s :
  let s' := Scan.scan_token (Scan.set_start (current s) s) in
  tokens s' = tokens s
  \/ exists token_type literal,
       tokens s'
       = tokens s
         ++ [mkToken token_type
               (substring (current s) (current s' - current s) (source s))
               literal (scan_line s')].
Proof.
  cbv zeta.
  destruct (adds_scan_token (Scan.set_start (current s) s))
    as [(_ & _ & Ht)|(ty & lit & s'' & (Hsrc & Hst & Ht) & ->)].
  - left. exact Ht.
  - right. exists ty, lit. unfold Scan.add_token, Scan.slice.
    cbn [tokens current scan_line]. rewrite Ht, Hsrc, Hst. reflexivity.
Qed.

(** ** The parser *)

Lemma TokenType_eqb_eq a b : TokenType_eqb a b = true <-> a = b.
Proof.
  unfold TokenType_eqb. rewrite Nat.eqb_eq. split; [|by intros ->].
  destruct a, b; simpl; intros H; try reflexivity; discriminate.
Qed.

Lemma parses_refl p : parses p p.
Proof. by do 4 (split; [done|]). Qed.

Lemma parses_trans p1 p2 p3 : parses p1 p2 -> parses p2 p3 -> parses p1 p3.
Proof.
  intros (H1 & H2 & H3 & H4 & H5) (G1 & G2 & G3 & G4 & G5).
  split; [congruence|]. split; [lia|]. split; [by etrans|].
  split; [lia | auto].
Qed.

Lemma psafe_ret {A} (a : A) : psafe (ret a).
Proof. intros p. split; [apply parses_refl | discriminate]. Qed.

Lemma psafe_raise_ParseError {A} : psafe (@raise Parser A ParseError).
Proof. intros p. split; [apply parses_refl|]. intros e [= <-]. by left. Qed.

Lemma psafe_raise_OutOfFuel {A} : psafe (@raise Parser A OutOfFuel).
Proof.
  intros p. split; [apply parses_refl|]. intros e [= <-]. right. by left.
Qed.

Lemma psafe_gets {A} (f : Parser -> A) : psafe (gets f).
Proof. intros p. split; [apply parses_refl | discriminate]. Qed.

Lemma psafe_bind {A B} (m : M Parser A) (k : A -> M Parser B) :
  psafe m -> (forall a, psafe (k a)) -> psafe (bind m k).
Proof.
  intros Hm Hk p. unfold bind. destruct (Hm p) as [Hp He].
  destruct (m p) as [[a|e] p1]; simpl in *;
    [|split; [done | intros e0 [= <-]; by apply He]].
  destruct (Hk a p1) as [Hp' He']. split; [by eapply parses_trans|].
  intros e H. destruct (He' e H) as [?|[?|[? Hn]]]; auto.
  right. right. split; [done|]. intros Hok. apply Hn.
  by apply Hp.
Qed.

Lemma psafe_peek : psafe Parse.peek.
Proof.
  intros p. unfold Parse.peek.
  destruct (p_tokens p !! p_current p) eqn:H; simpl;
    (split; [apply parses_refl|]); [discriminate|].
  intros e [= <-]. right. right. split; [done|]. intros [Hlt _].
  apply lookup_ge_None in H. lia.
Qed.

Lemma psafe_previous : psafe Parse.previous.
Proof.
  intros p. unfold Parse.previous.
  match goal with
  | |- context [p_tokens p !! ?i] => destruct (p_tokens p !! i) eqn:H
  end; simpl; (split; [apply parses_refl|]); [discriminate|].
  intros e [= <-]. right. right. split; [done|]. intros [Hlt _].
  apply lookup_ge_None in H. destruct (p_current p); lia.
Qed.

Lemma psafe_fresh_node : psafe Parse.fresh_node.
Proof.
  intros p. split; [|discriminate].
  split; [done|]. split; [done|]. split; [done|]. split; [simpl; lia|done].
Qed.

Lemma psafe_print text : psafe (print Parse.set_out text).
Proof.
  intros p. split; [|discriminate].
  split; [done|]. split; [done|]. split; [by apply prefix_app_r|].
  split; [done|done].
Qed.

Create HintDb psafe.
#[local] Hint Resolve psafe_ret psafe_raise_ParseError psafe_raise_OutOfFuel
  psafe_gets psafe_peek psafe_previous psafe_fresh_node psafe_print : psafe.

(** One step of a proof that a parsing action is [psafe]. *)
Ltac psafe_step :=
  match goal with
  | |- psafe (bind _ _) => apply psafe_bind; [| intros ?]
  | |- psafe (match ?x with _ => _ end) => destruct x
  | |- psafe _ => solve [eauto with psafe]
  end.

Lemma psafe_is_at_end : psafe Parse.is_at_end.
Proof. unfold Parse.is_at_end. repeat psafe_step. Qed.

#[local] Hint Resolve psafe_is_at_end : psafe.

Lemma psafe_check t : psafe (Parse.check t).
Proof. unfold Parse.check. repeat psafe_step. Qed.

Lemma psafe_error t message : psafe (Parse.error t message).
Proof. unfold Parse.error. repeat psafe_step. Qed.

#[local] Hint Resolve psafe_check psafe_error : psafe.

Lemma psafe_raise_error {A} message : psafe (@Parse.raise_error A message).
Proof.
  unfold Parse.raise_error.
  apply psafe_bind; [apply psafe_peek | intros t].
  intros p. unfold bind, Parse.error, bind, print, modify, ret, raise. simpl.
  split; [|intros e H; injection H as <-; by left].
  split; [done|]. split; [done|]. split; [by apply prefix_app_r|].
  split; [done|done].
Qed.

(** Stepping over a token that is no [EOF] stays inside the list. *)
Lemma parses_step_over p t :
  p_tokens p !! p_current p = Some t -> TokenType_eqb (type t) EOF = false ->
  parses p (Parse.set_current (S (p_current p)) p).
Proof.
  intros Ht Heof.
  split; [done|]. split; [simpl; lia|]. split; [done|]. split; [done|].
  intros [Hlt (l & Hl & Hle)]. split; [|by exists l].
  simpl.
  destruct (decide (S (p_current p) = length (p_tokens p))) as [Heq|];
    [|lia].
  replace (length (p_tokens p) - 1) with (p_current p) in Hl by lia.
  rewrite Ht in Hl. injection Hl as ->.
  apply TokenType_eqb_eq in Hle. congruence.
Qed.

Lemma psafe_advance : psafe Parse.advance.
Proof.
  intros p. unfold Parse.advance, bind, Parse.is_at_end, bind, Parse.peek.
  destruct (p_tokens p !! p_current p) as [t|] eqn:Ht; simpl.
  2:{ split; [apply parses_refl|]. intros e [= <-]. right. right.
      split; [done|]. intros [Hlt _]. apply lookup_ge_None in Ht. lia. }
  destruct (TokenType_eqb (type t) EOF) eqn:Heof; simpl.
  - apply psafe_previous.
  - pose proof (parses_step_over p t Ht Heof) as Hstep.
    destruct (psafe_previous (Parse.set_current (S (p_current p)) p))
      as [Hp He].
    split; [by eapply parses_trans|].
    intros e H. destruct (He e H) as [?|[?|[? Hn]]]; auto.
    right. right. split; [done|]. intros Hok. apply Hn.
    by apply Hstep.
Qed.

#[local] Hint Resolve psafe_raise_error psafe_advance : psafe.

Lemma psafe_match_ types : psafe (Parse.match_ types).
Proof. induction types as [|t ts IH]; simpl; repeat psafe_step. Qed.

Lemma psafe_consume t message : psafe (Parse.consume t message).
Proof. unfold Parse.consume. repeat psafe_step. Qed.

#[local] Hint Resolve psafe_match_ psafe_consume : psafe.

Lemma psafe_synchronize_loop turns : psafe (Parse.synchronize_loop turns).
Proof.
  induction turns as [|turns IH]; intros p; simpl.
  - apply (psafe_raise_OutOfFuel p).
  - revert p.
    change (psafe
      (e <- Parse.is_at_end ;;
       if e then ret tt
       else
         prev <- Parse.previous ;;
         if TokenType_eqb (type prev) SEMICOLON then ret tt
         else
           next <- Parse.peek ;;
           if existsb (TokenType_eqb (type next)) Parse.statement_keywords
           then ret tt
           else Parse.advance ;;; Parse.synchronize_loop turns)).
    repeat psafe_step.
Qed.

#[local] Hint Resolve psafe_synchronize_loop : psafe.

Lemma psafe_synchronize : psafe Parse.synchronize.
Proof. unfold Parse.synchronize. repeat psafe_step. Qed.

#[local] Hint Resolve psafe_synchronize : psafe.

Lemma quiet_ret {A} (a : A) : quiet (@ret Parser A a).
Proof. intros p. discriminate. Qed.

Lemma quiet_bind {A B} (m : M Parser A) (k : A -> M Parser B) :
  quiet m -> (forall a, quiet (k a)) -> quiet (bind m k).
Proof.
  intros Hm Hk p. unfold bind. specialize (Hm p).
  destruct (m p) as [[a|e] p1]; simpl in *; [apply Hk|].
  intros [= ->]. by apply Hm.
Qed.

Lemma quiet_peek : quiet Parse.peek.
Proof. intros p. unfold Parse.peek. by destruct (_ !! _). Qed.

Lemma quiet_previous : quiet Parse.previous.
Proof. intros p. unfold Parse.previous. by destruct (_ !! _). Qed.

Lemma quiet_is_at_end : quiet Parse.is_at_end.
Proof.
  unfold Parse.is_at_end. apply quiet_bind; [apply quiet_peek|].
  intros t. apply quiet_ret.
Qed.

Lemma quiet_advance : quiet Parse.advance.
Proof.
  unfold Parse.advance. apply quiet_bind; [apply quiet_is_at_end|].
  intros e. apply quiet_bind; [|intros; apply quiet_previous].
  destruct (negb e); [|apply quiet_ret]. intros p. discriminate.
Qed.

Lemma quiet_synchronize_loop turns : quiet (Parse.synchronize_loop turns).
Proof.
  induction turns as [|turns IH]; intros p; simpl; [discriminate|].
  revert p.
  change (quiet
    (e <- Parse.is_at_end ;;
     if e then ret tt
     else
       prev <- Parse.previous ;;
       if TokenType_eqb (type prev) SEMICOLON then ret tt
       else
         next <- Parse.peek ;;
         if existsb (TokenType_eqb (type next)) Parse.statement_keywords
         then ret tt
         else Parse.advance ;;; Parse.synchronize_loop turns)).
  apply quiet_bind; [apply quiet_is_at_end|]. intros e.
  destruct e; [apply quiet_ret|].
  apply quiet_bind; [apply quiet_previous|]. intros prev.
  destruct (TokenType_eqb _ _); [apply quiet_ret|].
  apply quiet_bind; [apply quiet_peek|]. intros next.
  destruct (existsb _ _); [apply quiet_ret|].
  apply quiet_bind; [apply quiet_advance | by intros].
Qed.

Lemma quiet_synchronize : quiet Parse.synchronize.
Proof.
  unfold Parse.synchronize. apply quiet_bind; [apply quiet_advance|].
  intros _. apply quiet_bind; [intros p; discriminate|].
  intros n. apply quiet_synchronize_loop.
Qed.

Lemma psafe_ext {A} (m m' : M Parser A) :
  (forall p, m p = m' p) -> psafe m' -> psafe m.
Proof. intros H Hm p. rewrite H. apply Hm. Qed.

Section SafeExpressions.

Variable expression : M Parser Expr.t.
Hypothesis psafe_expression : psafe expression.

Hint Resolve psafe_expression : psafe.

Lemma psafe_arguments_loop turns : forall arguments,
  psafe (Parse.arguments_loop expression turns arguments).
Proof.
  induction turns as [|turns IH]; intros arguments.
  - intros p. apply (psafe_raise_OutOfFuel p).
  - eapply psafe_ext; [intros ?; cbn [Parse.arguments_loop]; reflexivity|].
    repeat psafe_step.
Qed.

Hint Resolve psafe_arguments_loop : psafe.

Lemma psafe_finish_call turns callee :
  psafe (Parse.finish_call expression turns callee).
Proof. unfold Parse.finish_call. repeat psafe_step. Qed.

Lemma psafe_primary : psafe (Parse.primary expression).
Proof. unfold Parse.primary. repeat psafe_step. Qed.

Hint Resolve psafe_finish_call psafe_primary : psafe.

Lemma psafe_call_loop turns : forall expr,
  psafe (Parse.call_loop expression turns expr).
Proof.
  induction turns as [|turns IH]; intros expr.
  - intros p. apply (psafe_raise_OutOfFuel p).
  - eapply psafe_ext; [intros ?; cbn [Parse.call_loop]; reflexivity|].
    repeat psafe_step.
Qed.

Hint Resolve psafe_call_loop : psafe.

Lemma psafe_call turns : psafe (Parse.call expression turns).
Proof. unfold Parse.call. repeat psafe_step. Qed.

Hint Resolve psafe_call : psafe.

Lemma psafe_unary turns : psafe (Parse.unary expression turns).
Proof.
  induction turns as [|turns IH].
  - intros p. apply (psafe_raise_OutOfFuel p).
  - eapply psafe_ext; [intros ?; cbn [Parse.unary]; reflexivity|].
    repeat psafe_step.
Qed.

Hint Resolve psafe_unary : psafe.

Lemma psafe_operator_loop turns types operand node :
  psafe operand ->
  forall expr, psafe (Parse.operator_loop turns types operand node expr).
Proof.
  intros Ho. induction turns as [|turns IH]; intros expr.
  - intros p. apply (psafe_raise_OutOfFuel p).
  - eapply psafe_ext; [intros ?; cbn [Parse.operator_loop]; reflexivity|].
    repeat psafe_step.
Qed.

Lemma psafe_factor turns : psafe (Parse.factor expression turns).
Proof.
  unfold Parse.factor. psafe_step; [eauto with psafe|].
  apply psafe_operator_loop. eauto with psafe.
Qed.

Lemma psafe_term turns : psafe (Parse.term expression turns).
Proof.
  unfold Parse.term. psafe_step; [apply psafe_factor|].
  apply psafe_operator_loop, psafe_factor.
Qed.

Lemma psafe_comparison turns : psafe (Parse.comparison expression turns).
Proof.
  unfold Parse.comparison. psafe_step; [apply psafe_term|].
  apply psafe_operator_loop, psafe_term.
Qed.

Lemma psafe_equality turns : psafe (Parse.equality expression turns).
Proof.
  unfold Parse.equality. psafe_step; [apply psafe_comparison|].
  apply psafe_operator_loop, psafe_comparison.
Qed.

Lemma psafe_and_expr turns : psafe (Parse.and_expr expression turns).
Proof.
  unfold Parse.and_expr. psafe_step; [apply psafe_equality|].
  apply psafe_operator_loop, psafe_equality.
Qed.

Lemma psafe_or_expr turns : psafe (Parse.or_expr expression turns).
Proof.
  unfold Parse.or_expr. psafe_step; [apply psafe_and_expr|].
  apply psafe_operator_loop, psafe_and_expr.
Qed.

Hint Resolve psafe_or_expr : psafe.

Lemma psafe_assignment turns : psafe (Parse.assignment expression turns).
Proof.
  induction turns as [|turns IH].
  - intros p. apply (psafe_raise_OutOfFuel p).
  - eapply psafe_ext; [intros ?; cbn [Parse.assignment]; reflexivity|].
    repeat psafe_step.
Qed.

End SafeExpressions.

Lemma psafe_expression fuel : psafe (Parse.expression fuel).
Proof.
  induction fuel as [|fuel IH].
  - intros p. apply (psafe_raise_OutOfFuel p).
  - eapply psafe_ext; [intros ?; cbn [Parse.expression]; reflexivity|].
    by apply psafe_assignment.
Qed.

#[local] Hint Resolve psafe_expression : psafe.

Section SafeStatements.

Variable declaration : M Parser (option Stmt.t).
Variable statement : M Parser Stmt.t.
Variable fuel : nat.
Hypothesis psafe_declaration : psafe declaration.
Hypothesis psafe_statement : psafe statement.

Hint Resolve psafe_declaration psafe_statement : psafe.

Lemma psafe_expression_statement : psafe (Parse.expression_statement fuel).
Proof. unfold Parse.expression_statement. repeat psafe_step. Qed.

Lemma psafe_print_statement : psafe (Parse.print_statement fuel).
Proof. unfold Parse.print_statement. repeat psafe_step. Qed.

Lemma psafe_return_statement : psafe (Parse.return_statement fuel).
Proof. unfold Parse.return_statement. repeat psafe_step. Qed.

Lemma psafe_var_declaration : psafe (Parse.var_declaration fuel).
Proof. unfold Parse.var_declaration. repeat psafe_step. Qed.

Hint Resolve psafe_expression_statement psafe_print_statement
  psafe_return_statement psafe_var_declaration : psafe.

Lemma psafe_while_statement : psafe (Parse.while_statement statement fuel).
Proof. unfold Parse.while_statement. repeat psafe_step. Qed.

Lemma psafe_if_statement : psafe (Parse.if_statement statement fuel).
Proof. unfold Parse.if_statement. repeat psafe_step. Qed.

Lemma psafe_for_statement : psafe (Parse.for_statement statement fuel).
Proof. unfold Parse.for_statement. repeat psafe_step. Qed.

Lemma psafe_block_loop turns : forall statements,
  psafe (Parse.block_loop declaration turns statements).
Proof.
  induction turns as [|turns IH]; intros statements.
  - intros p. apply (psafe_raise_OutOfFuel p).
  - eapply psafe_ext; [intros ?; cbn [Parse.block_loop]; reflexivity|].
    repeat psafe_step.
Qed.

Hint Resolve psafe_block_loop : psafe.

Lemma psafe_block : psafe (Parse.block declaration fuel).
Proof. unfold Parse.block. repeat psafe_step. Qed.

Hint Resolve psafe_block psafe_while_statement psafe_if_statement
  psafe_for_statement : psafe.

Lemma psafe_parameters_loop turns : forall parameters,
  psafe (Parse.parameters_loop turns parameters).
Proof.
  induction turns as [|turns IH]; intros parameters.
  - intros p. apply (psafe_raise_OutOfFuel p).
  - eapply psafe_ext; [intros ?; cbn [Parse.parameters_loop]; reflexivity|].
    repeat psafe_step.
Qed.

Hint Resolve psafe_parameters_loop : psafe.

Lemma psafe_function kind : psafe (Parse.function declaration fuel kind).
Proof. unfold Parse.function. repeat psafe_step. Qed.

Hint Resolve psafe_function : psafe.

Lemma psafe_methods_loop turns : forall methods,
  psafe (Parse.methods_loop declaration fuel turns methods).
Proof.
  induction turns as [|turns IH]; intros methods.
  - intros p. apply (psafe_raise_OutOfFuel p).
  - eapply psafe_ext; [intros ?; cbn [Parse.methods_loop]; reflexivity|].
    repeat psafe_step.
Qed.

Hint Resolve psafe_methods_loop : psafe.

Lemma psafe_class_declaration :
  psafe (Parse.class_declaration declaration fuel).
Proof. unfold Parse.class_declaration. repeat psafe_step. Qed.

Hint Resolve psafe_class_declaration : psafe.

Lemma psafe_statement_body :
  psafe (Parse.statement_body declaration statement fuel).
Proof. unfold Parse.statement_body. repeat psafe_step. Qed.

(** The [try] of [declaration]: a [ParseError] is caught, and what is left
    is what the recovery can raise. *)
Lemma psafe_declaration_body :
  psafe (Parse.declaration_body declaration statement fuel)
  /\ quiet (Parse.declaration_body declaration statement fuel).
Proof.
  unfold Parse.declaration_body.
  match goal with
  | |- psafe (fun p => match ?m p with _ => _ end) /\ _ =>
      assert (Hm : psafe m) by repeat psafe_step; set (body := m) in *
  end.
  assert (Hsync : psafe (Parse.synchronize ;;; ret (@None Stmt.t)))
    by repeat psafe_step.
  assert (Hq : quiet (Parse.synchronize ;;; ret (@None Stmt.t))).
  { apply quiet_bind; [apply quiet_synchronize | intros; apply quiet_ret]. }
  split.
  - intros p. destruct (Hm p) as [Hp He].
    destruct (body p) as [[a|e] p1]; simpl in *; [by split|].
    destruct e; try (split; [done | exact He]).
    destruct (Hsync p1) as [Hp' He'].
    split; [by eapply parses_trans|].
    intros e H. destruct (He' e H) as [?|[?|[? Hn]]]; auto.
    right. right. split; [done|]. intros Hok. apply Hn. by apply Hp.
  - intros p. destruct (body p) as [[a|e] p1]; simpl; [done|].
    destruct e; done.
Qed.

End SafeStatements.

Lemma psafe_declaration_statement fuel :
  (psafe (Parse.declaration fuel) /\ quiet (Parse.declaration fuel))
  /\ psafe (Parse.statement fuel).
Proof.
  induction fuel as [|fuel [[IHd _] IHs]].
  - split; [split|]; intros p; try apply (psafe_raise_OutOfFuel p).
    discriminate.
  - destruct (psafe_declaration_body _ _ fuel IHd IHs) as [Hd Hq].
    split; [split|].
    + eapply psafe_ext; [intros ?; cbn [Parse.declaration]; reflexivity|].
      exact Hd.
    + intros p. apply Hq.
    + eapply psafe_ext; [intros ?; cbn [Parse.statement]; reflexivity|].
      by apply psafe_statement_body.
Qed.

Lemma psafe_parse_loop fuel turns : forall statements,
  psafe (Parse.parse_loop fuel turns statements)
  /\ quiet (Parse.parse_loop fuel turns statements)
  /\ forall p ss p',
       Parse.parse_loop fuel turns statements p = (Ok ss, p') ->
       Parse.is_at_end p' = (Ok true, p').
Proof.
  destruct (psafe_declaration_statement fuel) as [[Hd Hq] _].
  induction turns as [|turns IH]; intros statements.
  - split; [|split]; intros p; try apply (psafe_raise_OutOfFuel p);
      discriminate.
  - split; [|split].
    + eapply psafe_ext; [intros ?; cbn [Parse.parse_loop]; reflexivity|].
      repeat psafe_step. apply IH.
    + intros p. cbn [Parse.parse_loop].
      apply quiet_bind; [apply quiet_is_at_end|]. intros e.
      destruct (negb e); [|apply quiet_ret].
      apply quiet_bind; [exact Hq|]. intros d. apply IH.
    + intros p ss p'. cbn [Parse.parse_loop]. unfold bind at 1.
      destruct (Parse.is_at_end p) as [[e|x] p1] eqn:He; [|discriminate].
      assert (p1 = p) as ->.
      { unfold Parse.is_at_end, bind, Parse.peek in He.
        destruct (_ !! _); by injection He. }
      destruct e; simpl.
      * intros [= <- <-]. exact He.
      * unfold bind.
        destruct (Parse.declaration fuel p) as [[d|x] p2]; [|discriminate].
        apply IH.
Qed.

Lemma scan_tokens_ok text out out' nodes :
  tokens_ok (mkParser (fst (Scan.scan_tokens text out)) 0 out' nodes).
Proof.
  change (fst (Scan.scan_tokens text out))
    with (tokens (scan_loop text out)
          ++ [mkToken EOF "" VNil (scan_line (scan_loop text out))]).
  split; simpl.
  - rewrite length_app. simpl. lia.
  - exists (mkToken EOF "" VNil (scan_line (scan_loop text out))).
    split; [|reflexivity].
    rewrite length_app. simpl.
    replace (length (tokens (scan_loop text out)) + 1 - 1)
      with (length (tokens (scan_loop text out))) by lia.
    rewrite lookup_app_r by lia. by rewrite Nat.sub_diag.
Qed.

(** X18. How [parse] can end.  A [ParseError] never leaves it (each one is
    caught by [declaration]); on a token list that ends with [EOF], as the
    scanner's always does, it indexes no token out of range, so it ends
    normally unless the model's bound cuts it off; and when it ends
    normally the parser stands on the [EOF] token. *)
Theorem parse_outcome fuel p :
  (forall e, fst (Parse.parse fuel p) = Raise e ->
     e = OutOfFuel \/ (e = IndexError /\ ~ tokens_ok p))
  /\ (forall text out out' nodes e,
        fst (Parse.parse fuel
               (mkParser (fst (Scan.scan_tokens text out)) 0 out' nodes))
        = Raise e ->
        e = OutOfFuel)
  /\ (forall statements p',
        Parse.parse fuel p = (Ok statements, p') ->
        Parse.is_at_end p' = (Ok true, p')).
Proof.
  assert (H : forall q e, fst (Parse.parse fuel q) = Raise e ->
                          e = OutOfFuel \/ (e = IndexError /\ ~ tokens_ok q)).
  { intros q e He. unfold Parse.parse in He.
    destruct (psafe_parse_loop fuel fuel []) as (Hs & Hq & _).
    destruct (proj2 (Hs q) e He) as [->|[?|?]]; auto.
    by destruct (Hq q). }
  split; [apply H|]. split.
  - intros text out out' nodes e He.
    destruct (H _ _ He) as [?|[_ Hn]]; [done|].
    destruct Hn. apply scan_tokens_ok.
  - intros statements p'. unfold Parse.parse.
    apply (psafe_parse_loop fuel fuel []).
Qed.

(** X19. Whatever it parses and however it ends, [parse] leaves the token
    list as it was, never moves its position back, only adds lines to the
    output, and, on a list that ends with [EOF], keeps its position inside
    the list. *)
Theorem parse_frame fuel p :
  let p' := snd (Parse.parse fuel p) in
  p_tokens p' = p_tokens p
  /\ p_current p <= p_current p'
  /\ p_out p `prefix_of` p_out p'
  /\ p_next_node p <= p_next_node p'
  /\ (tokens_ok p -> p_current p' < length (p_tokens p)).
Proof.
  destruct (psafe_parse_loop fuel fuel []) as (Hs & _).
  destruct (Hs p) as [(H1 & H2 & H3 & H4 & H5) _]. unfold Parse.parse.
  do 4 (split; [done|]). intros Hok. destruct (H5 Hok) as [Hlt _].
  by rewrite H1 in Hlt.
Qed.






(** X21. [consume]: on a token of the wanted type that is no [EOF] it
    moves one token on and returns that token; on any other token, and on
    [EOF] whatever type is wanted, it prints "Parse error at line n: " and
    the message, with the line of the token it stands on, and raises
    [ParseError] without moving. *)
Theorem consume_or_report p t wanted message :
  p_tokens p !! p_current p = Some t ->
  (type t = wanted -> type t <> EOF ->
   Parse.consume wanted message p
   = (Ok t, Parse.set_current (S (p_current p)) p))
  /\ (type t <> wanted \/ type t = EOF ->
      Parse.consume wanted message p
      = (Raise ParseError,
         Parse.set_out (fun lines =>
           lines ++ ["Parse error at line " +:+ pretty (line t) +:+ ": "
                     +:+ message]) p)).
Proof.
  intros Ht.
  assert (Heqb : forall a b, TokenType_eqb a b = false <-> a <> b).
  { intros a b. rewrite <- TokenType_eqb_eq. by destruct (TokenType_eqb a b). }
  split.
  - intros Hw Hne.
    unfold Parse.consume, bind, Parse.check, bind, Parse.is_at_end, bind,
      Parse.peek.
    rewrite Ht. simpl. rewrite (proj2 (Heqb _ _) Hne). simpl. rewrite Ht.
    simpl. rewrite (proj2 (TokenType_eqb_eq _ _) Hw).
    unfold Parse.advance, bind, Parse.is_at_end, bind, Parse.peek.
    rewrite Ht. simpl. rewrite (proj2 (Heqb _ _) Hne). simpl.
    unfold Parse.previous. simpl. by rewrite Ht.
  - intros Hw.
    unfold Parse.consume, bind, Parse.check, bind, Parse.is_at_end, bind,
      Parse.peek.
    rewrite Ht. simpl.
    destruct (TokenType_eqb (type t) EOF) eqn:Heof; simpl.
    + unfold Parse.raise_error, bind, Parse.peek. by rewrite Ht.
    + rewrite Ht. simpl.
      destruct Hw as [Hw|Hw].
      * rewrite (proj2 (Heqb _ _) Hw).
        unfold Parse.raise_error, bind, Parse.peek. by rewrite Ht.
      * apply TokenType_eqb_eq in Hw. congruence.
Qed.

Lemma notes_refl i : notes i i.
Proof. by repeat split. Qed.

Lemma notes_trans i1 i2 i3 : notes i1 i2 -> notes i2 i3 -> notes i1 i3.
Proof.
  intros (A1 & A2 & A3 & A4 & A5 & A6 & A7 & A8)
         (B1 & B2 & B3 & B4 & B5 & B6 & B7 & B8).
  repeat split; try congruence. by etrans.
Qed.

Lemma resolves_refl r : resolves r r.
Proof. repeat split; try done. Qed.

Lemma resolves_trans r1 r2 r3 :
  resolves r1 r2 -> resolves r2 r3 -> resolves r1 r3.
Proof.
  intros (A1 & A2 & A3 & A4 & A5) (B1 & B2 & B3 & B4 & B5).
  split; [congruence|]. split; [congruence|]. split; [congruence|].
  split; [congruence|]. by eapply notes_trans.
Qed.

Lemma resolves_say text r : resolves r (Resolve.say text r).
Proof.
  repeat split; try done. simpl. by apply prefix_app_r.
Qed.

Lemma resolves_set_innermost name flag r :
  resolves r (Resolve.set_innermost name flag r).
Proof.
  unfold resolves. simpl. destruct (scopes r); repeat split; done.
Qed.

Lemma resolves_declare name r : resolves r (Resolve.declare name r).
Proof.
  unfold Resolve.declare. destruct (scopes r) as [|scope rest] eqn:Hs.
  - apply resolves_refl.
  - destruct (scope !! lexeme name).
    + eapply resolves_trans; [apply resolves_say|].
      apply resolves_set_innermost.
    + apply resolves_set_innermost.
Qed.

Lemma resolves_define name r : resolves r (Resolve.define name r).
Proof.
  unfold Resolve.define. destruct (scopes r).
  - apply resolves_refl.
  - apply resolves_set_innermost.
Qed.

Lemma resolves_resolve_local node name r :
  resolves r (Resolve.resolve_local node name r).
Proof.
  unfold Resolve.resolve_local. destruct (Resolve.innermost_with _ _ _).
  - repeat split; done.
  - apply resolves_refl.
Qed.

(** A visit between [begin_scope] and [end_scope]. *)
Lemma resolves_scoped r r1 :
  resolves (Resolve.begin_scope r) r1 -> resolves r (Resolve.end_scope r1).
Proof.
  intros (A1 & A2 & A3 & A4 & A5). simpl in A2.
  unfold resolves. simpl. rewrite A2.
  do 4 (split; [done|]). exact A5.
Qed.

Lemma resolves_in_function t r r1 :
  resolves (Resolve.set_current_function t r) r1 ->
  resolves r (Resolve.set_current_function (current_function r) r1).
Proof.
  intros (A1 & A2 & A3 & A4 & A5). do 4 (split; [done|]). exact A5.
Qed.

Lemma resolves_in_class t r r1 :
  (resolves (Resolve.set_current_class t r) r1
   \/ exists t' r0, resolves (Resolve.set_current_class t r) r0
                    /\ resolves (Resolve.set_current_class t' r0) r1) ->
  resolves r (Resolve.set_current_class (current_class r) r1).
Proof.
  intros [(A1 & A2 & A3 & A4 & A5)
         |(t' & r0 & (A1 & A2 & A3 & A4 & A5) & (B1 & B2 & B3 & B4 & B5))];
    unfold resolves; simpl.
  - do 4 (split; [done|]). exact A5.
  - simpl in A1, A2, A3, A5, B1, B2, B3, B5.
    split; [by rewrite B1|]. split; [by rewrite B2|].
    split; [by rewrite B3|]. split; [done|]. by eapply notes_trans.
Qed.

Lemma resolves_fold_left {A} (g : Resolver -> A -> Resolver) xs :
  Forall (fun x => forall r, resolves r (g r x)) xs ->
  forall r, resolves r (fold_left g xs r).
Proof.
  induction 1 as [|x xs Hx _ IH]; intros r; simpl.
  - apply resolves_refl.
  - eapply resolves_trans; [apply Hx | apply IH].
Qed.

Lemma resolves_variable_expr node name r :
  resolves r (Resolve.visit_variable_expr node name r).
Proof.
  unfold Resolve.visit_variable_expr.
  eapply resolves_trans; [|apply resolves_resolve_local].
  destruct (scopes r) as [|scope rest]; [apply resolves_refl|].
  destruct (scope !! lexeme name) as [[]|];
    (apply resolves_refl || apply resolves_say).
Qed.

Lemma resolve_expr_resolves expr : forall r,
  resolves r (Resolve.resolve_expr expr r).
Proof.
  induction expr using Expr_induction; intros r0; cbn [Resolve.resolve_expr].
  - eapply resolves_trans; [apply IHexpr1 | apply IHexpr2].
  - apply IHexpr.
  - apply resolves_refl.
  - apply IHexpr.
  - apply resolves_variable_expr.
  - eapply resolves_trans; [apply IHexpr | apply resolves_resolve_local].
  - eapply resolves_trans; [apply IHexpr1 | apply IHexpr2].
  - unfold Resolve.visit_call_expr.
    eapply resolves_trans; [apply IHexpr|].
    apply (resolves_fold_left
             (fun r argument => Resolve.resolve_expr argument r)).
    eapply Forall_impl; [eassumption|]. intros x Hx. apply Hx.
  - apply IHexpr.
  - eapply resolves_trans; [apply IHexpr2 | apply IHexpr1].
  - unfold Resolve.visit_this_expr. destruct (current_class r0);
      (apply resolves_say || apply resolves_resolve_local).
  - unfold Resolve.visit_super_expr.
    eapply resolves_trans; [|apply resolves_resolve_local].
    destruct (current_class r0); (apply resolves_say || apply resolves_refl).
Qed.

Section ResolveStatements.

Variable resolve_stmt : Stmt.t -> Resolver -> Resolver.

Local Abbreviation visited :=
  (holds_if_present (fun s => forall r, resolves r (resolve_stmt s r))).

Lemma resolves_resolve_statements statements :
  Forall visited statements ->
  forall r, resolves r (Resolve.resolve_statements resolve_stmt statements r).
Proof.
  induction 1 as [|[s|] rest Hs _ IH]; intros r; simpl.
  - apply resolves_refl.
  - eapply resolves_trans; [apply Hs | apply IH].
  - apply IH.
Qed.

Lemma resolves_resolve_function function :
  Forall visited (Stmt.body function) ->
  forall function_type r,
    resolves r (Resolve.resolve_function resolve_stmt function function_type r).
Proof.
  intros Hbody function_type r. unfold Resolve.resolve_function.
  apply resolves_in_function with (t := function_type).
  apply resolves_scoped.
  eapply resolves_trans; [|by apply resolves_resolve_statements].
  apply (resolves_fold_left
           (fun r param => Resolve.define param (Resolve.declare param r))).
  apply Forall_forall. intros param _ r1.
  eapply resolves_trans; [apply resolves_declare | apply resolves_define].
Qed.

End ResolveStatements.

Lemma resolves_class_stmt name superclass' methods' :
  Forall (fun f => forall t r,
            resolves r (Resolve.resolve_function Resolve.resolve_stmt f t r))
    methods' ->
  forall r,
    resolves r (Resolve.visit_class_stmt Resolve.resolve_expr
                  Resolve.resolve_stmt name superclass' methods' r).
Proof.
  intros Hms r. unfold Resolve.visit_class_stmt.
  assert (Hfold : forall r0,
    resolves r0
      (fold_left
         (fun r method =>
            Resolve.resolve_function Resolve.resolve_stmt method
              (if String.eqb (lexeme (Stmt.name method)) "init"
               then FT_INITIALIZER else FT_METHOD) r) methods' r0)).
  { apply (resolves_fold_left
             (fun r method =>
                Resolve.resolve_function Resolve.resolve_stmt method
                  (if String.eqb (lexeme (Stmt.name method)) "init"
                   then FT_INITIALIZER else FT_METHOD) r)).
    eapply Forall_impl; [exact Hms|]. intros f Hf r0. apply Hf. }
  assert (Hthis : forall r0,
    resolves r0
      (Resolve.end_scope
         (fold_left
            (fun r method =>
               Resolve.resolve_function Resolve.resolve_stmt method
                 (if String.eqb (lexeme (Stmt.name method)) "init"
                  then FT_INITIALIZER else FT_METHOD) r) methods'
            (Resolve.set_innermost "this" true (Resolve.begin_scope r0))))).
  { intros r0. apply resolves_scoped.
    eapply resolves_trans; [apply resolves_set_innermost | apply Hfold]. }
  assert (Hdecl : resolves (Resolve.set_current_class CT_CLASS r)
            (Resolve.define name
               (Resolve.declare name (Resolve.set_current_class CT_CLASS r)))).
  { eapply resolves_trans; [apply resolves_declare | apply resolves_define]. }
  destruct superclass' as [[node sname]|].
  - apply resolves_in_class with (t := CT_CLASS). right.
    exists CT_SUBCLASS,
      (if String.eqb (lexeme name) (lexeme sname)
       then Resolve.say "Error: A class can't inherit from itself."
              (Resolve.define name
                 (Resolve.declare name
                    (Resolve.set_current_class CT_CLASS r)))
       else Resolve.define name
              (Resolve.declare name (Resolve.set_current_class CT_CLASS r))).
    split.
    + eapply resolves_trans; [exact Hdecl|].
      destruct (String.eqb (lexeme name) (lexeme sname));
        [apply resolves_say | apply resolves_refl].
    + eapply resolves_trans; [apply resolve_expr_resolves|].
      apply resolves_scoped.
      eapply resolves_trans; [apply resolves_set_innermost | apply Hthis].
  - apply resolves_in_class with (t := CT_CLASS). left.
    eapply resolves_trans; [exact Hdecl | apply Hthis].
Qed.

Lemma resolve_stmt_function_resolves :
  (forall s r, resolves r (Resolve.resolve_stmt s r))
  /\ (forall f t r,
        resolves r (Resolve.resolve_function Resolve.resolve_stmt f t r)).
Proof.
  assert (H : forall s r, resolves r (Resolve.resolve_stmt s r)).
  { apply (Stmt_induction
             (fun s => forall r, resolves r (Resolve.resolve_stmt s r))
             (fun f => forall t r,
                resolves r
                  (Resolve.resolve_function Resolve.resolve_stmt f t r)));
      cbn [Resolve.resolve_stmt].
    - intros e r. apply resolve_expr_resolves.
    - intros e r. apply resolve_expr_resolves.
    - intros name init r. unfold Resolve.visit_var_stmt.
      eapply resolves_trans; [apply resolves_declare|].
      eapply resolves_trans; [|apply resolves_define].
      destruct init; [apply resolve_expr_resolves | apply resolves_refl].
    - intros ss Hss r. unfold Resolve.visit_block_stmt.
      apply resolves_scoped. by apply resolves_resolve_statements.
    - intros c t e Ht He r. unfold Resolve.visit_if_stmt.
      eapply resolves_trans; [apply resolve_expr_resolves|].
      eapply resolves_trans; [apply Ht|].
      destruct e; [apply He | apply resolves_refl].
    - intros c b Hb r. unfold Resolve.visit_while_stmt.
      eapply resolves_trans; [apply resolve_expr_resolves | apply Hb].
    - intros f Hf r. unfold Resolve.visit_function_stmt.
      eapply resolves_trans; [apply resolves_declare|].
      eapply resolves_trans; [apply resolves_define | apply Hf].
    - intros k v r. unfold Resolve.visit_return_stmt.
      eapply resolves_trans with
        (r2 := match current_function r with
               | FT_NONE =>
                   Resolve.say "Error: Can't return from top-level code." r
               | _ => r
               end).
      { destruct (current_function r);
          (apply resolves_say || apply resolves_refl). }
      destruct v; [|apply resolves_refl].
      eapply resolves_trans; [|apply resolve_expr_resolves].
      match goal with
      | |- resolves ?x match current_function ?x with _ => _ end =>
          destruct (current_function x)
      end; (apply resolves_say || apply resolves_refl).
    - intros name super ms Hms r. by apply resolves_class_stmt.
    - intros name params body Hbody t r.
      by apply resolves_resolve_function. }
  split; [exact H|].
  intros [name params body] t r. apply resolves_resolve_function.
  apply Forall_forall. intros [s|] _; simpl; [apply H | done].
Qed.

(** X22. The resolver keeps its scope stack balanced: after any statement
    the stack is as deep as before and unchanged below its innermost scope
    (every [begin_scope] has met its [end_scope]), [current_function] and
    [current_class] are what they were, and of the interpreter only
    [locals] and the printed output, by appending, have changed. *)
Theorem resolver_is_balanced stmt r :
  resolves r (Resolve.resolve_stmt stmt r).
Proof. apply resolve_stmt_function_resolves. Qed.

Lemma resolver_notes_run statements i :
  notes i (Resolve.run statements i).
Proof.
  unfold Resolve.run.
  assert (H : resolves (mkResolver i [] FT_NONE CT_NONE)
                (Resolve.resolve_statements Resolve.resolve_stmt statements
                   (mkResolver i [] FT_NONE CT_NONE))).
  { apply resolves_resolve_statements. apply Forall_forall.
    intros [s|] _; simpl; [|done].
    apply resolve_stmt_function_resolves. }
  apply H.
Qed.

(** X23. Resolving a whole program, as [Lox.run] does it with a new
    resolver, writes the interpreter's [locals] and appends to the output;
    the environments, the objects and the current environment are
    untouched. *)
Theorem resolver_only_notes statements i :
  let i' := Resolve.run statements i in
  envs i' = envs i /\ functions i' = functions i /\ classes i' = classes i
  /\ instances i' = instances i /\ globals i' = globals i
  /\ environment i' = environment i /\ clock_calls i' = clock_calls i
  /\ stdout i `prefix_of` stdout i'.
Proof. apply resolver_notes_run. Qed.

Lemma innermost_with_spec name : forall ss k0 k scope,
  ss !! k = Some scope -> is_Some (scope !! name) ->
  (forall j s, j < k -> ss !! j = Some s -> s !! name = None) ->
  Resolve.innermost_with name ss k0 = Some (k0 + k).
Proof.
  induction ss as [|s0 ss IH]; intros k0 k scope Hk Hin Hbefore; [done|].
  simpl. destruct k as [|k].
  - injection Hk as ->. destruct Hin as [b ->]. f_equal. lia.
  - rewrite (Hbefore 0 s0); [|lia|done].
    rewrite (IH (S k0) k scope); [f_equal; lia|done|done|].
    intros j s Hj Hs. apply (Hbefore (S j) s); [lia|done].
Qed.

Lemma innermost_with_none name : forall ss k0,
  (forall s, In s ss -> s !! name = None) ->
  Resolve.innermost_with name ss k0 = None.
Proof.
  induction ss as [|s0 ss IH]; intros k0 Hall; [done|].
  simpl. rewrite (Hall s0) by (by left). apply IH.
  intros s Hs. apply Hall. by right.
Qed.

(** X24. [resolve_local] notes for an expression the number of scopes
    between the innermost scope and the nearest scope that holds the name,
    counted from 0 at the innermost; when no scope holds the name it notes
    nothing and the name is left to the globals. *)
Theorem resolve_local_depth node name r :
  (forall k scope,
     scopes r !! k = Some scope -> is_Some (scope !! lexeme name) ->
     (forall j s, j < k -> scopes r !! j = Some s ->
                  s !! lexeme name = None) ->
     locals (r_interpreter (Resolve.resolve_local node name r)) !! node
     = Some k)
  /\ ((forall s, In s (scopes r) -> s !! lexeme name = None) ->
      Resolve.resolve_local node name r = r).
Proof.
  split.
  - intros k scope Hk Hin Hbefore. unfold Resolve.resolve_local.
    rewrite (innermost_with_spec _ _ 0 k scope Hk Hin Hbefore). simpl.
    apply lookup_insert_eq.
  - intros Hnone. unfold Resolve.resolve_local.
    by rewrite innermost_with_none.
Qed.

(** X25. A local variable read in its own initializer: inside any scope,
    resolving [var x = x;] prints the error for it, and still notes depth 0
    for the read; at the top level, where there is no scope, the same
    statement is not looked at: the resolver changes nothing. *)
Theorem own_initializer_reported name node r :
  (scopes r <> [] ->
   let r' := Resolve.resolve_stmt
               (Stmt.Var name (Some (Expr.Variable_ node name))) r in
   In ("Error: Can't read local variable '" +:+ lexeme name
       +:+ "' in its own initializer.") (stdout (r_interpreter r'))
   /\ locals (r_interpreter r') !! node = Some 0)
  /\ (scopes r = [] ->
      Resolve.resolve_stmt
        (Stmt.Var name (Some (Expr.Variable_ node name))) r = r).
Proof.
  split.
  - intros Hne. destruct r as [i [|scope rest] cf cc]; [done|].
    cbn [Resolve.resolve_stmt]. unfold Resolve.visit_var_stmt.
    cbn [Resolve.resolve_expr].
    unfold Resolve.declare, Resolve.visit_variable_expr,
      Resolve.resolve_local, Resolve.define. simpl.
    destruct (scope !! lexeme name); simpl;
      rewrite lookup_insert_eq; simpl; rewrite lookup_insert_eq; simpl;
      (split; [rewrite in_app_iff; right; by left | apply lookup_insert_eq]).
  - intros Hs. destruct r as [i ss cf cc]. simpl in Hs. subst ss.
    reflexivity.
Qed.

(** ** The whole pipeline *)

Lemma scans_scan_loop text out :
  scans (mkScanner text [] 0 0 1 out) (scan_loop text out).
Proof. unfold scan_loop. apply scans_while. apply scan_loop_step. Qed.

Section Pipeline.

Variable float_str : float -> string.
Variable time_time : nat -> float.

Lemma interpret_no_RuntimeError fuel statements i token message :
  fst (interpret float_str time_time fuel statements i)
  <> Raise (RuntimeError token message).
Proof.
  unfold interpret.
  destruct (for_each _ statements i) as [[[]|e] i']; [done|].
  destruct e; done.
Qed.

(** X26. One call of [Lox.run], whatever the source text: the lines
    printed before are kept and new ones come after them; the interpreter's
    current environment and its globals are the ones from before the call,
    so a following call (a next line of the prompt) starts where this one
    started; function and class objects are only added; the
    counter of expression objects does not go back; and no runtime error of
    the interpreter's own class leaves the call. *)
Theorem run_frame fuel source lox :
  let result := run float_str time_time fuel source lox in
  stdout (interpreter lox) `prefix_of` stdout (interpreter (snd result))
  /\ environment (interpreter (snd result)) = environment (interpreter lox)
  /\ globals (interpreter (snd result)) = globals (interpreter lox)
  /\ functions (interpreter lox) `prefix_of` functions (interpreter (snd result))
  /\ classes (interpreter lox) `prefix_of` classes (interpreter (snd result))
  /\ nodes lox <= nodes (snd result)
  /\ forall token message, fst result <> Raise (RuntimeError token message).
Proof.
  cbv zeta. unfold run.
  pose proof (scans_scan_loop source (stdout (interpreter lox)))
    as (_ & _ & _ & _ & Hout & _).
  change (Scan.scan_tokens source (stdout (interpreter lox)))
    with (tokens (scan_loop source (stdout (interpreter lox)))
          ++ [mkToken EOF "" VNil
                (scan_line (scan_loop source (stdout (interpreter lox))))],
          scan_out (scan_loop source (stdout (interpreter lox)))).
  cbn beta iota. cbn [scan_out] in Hout.
  set (p0 := mkParser _ 0 _ (nodes lox)).
  assert (Hok : tokens_ok p0).
  { apply (scan_tokens_ok source (stdout (interpreter lox))). }
  destruct (psafe_parse_loop fuel fuel []) as (Hs & Hq & _).
  destruct (Hs p0) as [(_ & _ & Hpo & Hpn & _) Hraise].
  pose proof (Hq p0) as Hquiet.
  unfold Parse.parse.
  destruct (Parse.parse_loop fuel fuel [] p0) as [[statements|e] p] eqn:Hp;
    cbn [fst snd] in *; cbn beta iota.
  2: { cbn [interpreter nodes set_stdout stdout environment globals functions
            classes snd fst].
       split; [by etrans|]. do 4 (split; [done|]). split; [done|].
       intros token message [= ->].
       destruct (Hraise _ eq_refl) as [?|[?|[? Hn]]]; try done. }
  cbn [had_error]. destruct (had_error lox).
  { cbn [interpreter nodes set_stdout stdout environment globals functions
         classes snd fst].
    split; [by etrans|]. do 4 (split; [done|]). split; [done|]. done. }
  unfold with_interpreter. cbn [interpreter had_error had_runtime_error nodes].
  set (i1 := Resolve.run statements _).
  pose proof (keeps_interpret float_str time_time fuel statements i1)
    as (K1 & K2 & _ & K4 & K5 & K6 & _).
  pose proof (interpret_no_RuntimeError fuel statements i1) as Hno.
  destruct (interpret float_str time_time fuel statements i1) as [r i2].
  cbn [interpreter nodes snd fst] in *.
  destruct (resolver_notes_run statements
              (set_stdout (fun _ => p_out p) (interpreter lox)))
    as (_ & N2 & N3 & _ & N5 & N6 & _ & N8).
  fold i1 in N2, N3, N5, N6, N8.
  cbn [set_stdout stdout environment globals functions classes] in *.
  split; [etrans; [exact Hout|]; etrans; [exact Hpo|]; etrans;
          [exact N8 | exact K4]|].
  split; [congruence|]. split; [congruence|].
  split; [by rewrite <- N2|]. split; [by rewrite <- N3|].
  split; [done|]. exact Hno.
Qed.

End Pipeline.

(** ** The properties at sample inputs *)

Lemma sample_envs_ok : store_ok sample_envs.
Proof.
  intros e E parent HE Hp.
  destruct e as [|[|[|e]]]; simpl in HE; try discriminate;
    injection HE as <-; simpl in Hp; try discriminate;
    injection Hp as <-; lia.
Qed.

Lemma get_finds_nearest_witness :
  store_ok sample_envs /\ hops sample_envs 2 1 1
  /\ unbound_within sample_envs 2 1 "a"
  /\ Env.get sample_envs 2 (sample_token IDENTIFIER "a") = Ok (VStr "outer").
Proof.
  assert (Hh : hops sample_envs 2 1 1).
  { eapply hops_out; [reflexivity | reflexivity |].
    eapply hops_here. reflexivity. }
  assert (Hu : unbound_within sample_envs 2 1 "a").
  { intros d' e'' E'' Hlt Hhops HE.
    apply ancestor_from_hops in Hhops.
    destruct d' as [|d']; [|lia]. vm_compute in Hhops.
    injection Hhops as <-. injection HE as <-. reflexivity. }
  split; [exact sample_envs_ok|]. split; [exact Hh|]. split; [exact Hu|].
  exact (proj1 (get_finds_nearest sample_envs (sample_token IDENTIFIER "a")
                  (VStr "outer") 2 1 1 _ sample_envs_ok Hh eq_refl eq_refl
                  Hu)).
Defined.

Lemma undefined_variable_witness :
  store_ok sample_envs /\ hops sample_envs 2 2 0
  /\ unbound_within sample_envs 2 3 "b"
  /\ Env.get sample_envs 2 (sample_token IDENTIFIER "b")
     = Raise (EnvRuntimeError (sample_token IDENTIFIER "b")
                "Undefined variable 'b'.").
Proof.
  assert (Hh : hops sample_envs 2 2 0).
  { eapply hops_out; [reflexivity | reflexivity |].
    eapply hops_out; [reflexivity | reflexivity |].
    eapply hops_here. reflexivity. }
  assert (Hu : unbound_within sample_envs 2 3 "b").
  { intros d' e'' E'' Hlt Hhops HE.
    apply ancestor_from_hops in Hhops.
    destruct d' as [|[|[|d']]]; [| | |lia]; vm_compute in Hhops;
      injection Hhops as <-; injection HE as <-; reflexivity. }
  split; [exact sample_envs_ok|]. split; [exact Hh|]. split; [exact Hu|].
  exact (proj1 (undefined_variable sample_envs (sample_token IDENTIFIER "b")
                  2 2 0 _ sample_envs_ok Hh eq_refl eq_refl Hu)).
Defined.

Lemma assign_writes_nearest_witness :
  store_ok sample_envs /\ hops sample_envs 2 1 1
  /\ unbound_within sample_envs 2 1 "a"
  /\ exists envs',
      Env.assign sample_envs 2 (sample_token IDENTIFIER "a") VNil = Ok envs'
      /\ Env.get envs' 2 (sample_token IDENTIFIER "a") = Ok VNil
      /\ envs' !! 0 = sample_envs !! 0.
Proof.
  assert (Hh : hops sample_envs 2 1 1).
  { eapply hops_out; [reflexivity | reflexivity |].
    eapply hops_here. reflexivity. }
  assert (Hu : unbound_within sample_envs 2 1 "a").
  { intros d' e'' E'' Hlt Hhops HE.
    apply ancestor_from_hops in Hhops.
    destruct d' as [|d']; [|lia]. vm_compute in Hhops.
    injection Hhops as <-. injection HE as <-. reflexivity. }
  split; [exact sample_envs_ok|]. split; [exact Hh|]. split; [exact Hu|].
  destruct (assign_writes_nearest sample_envs (sample_token IDENTIFIER "a")
              VNil (VStr "outer") 2 1 1 _ sample_envs_ok Hh eq_refl eq_refl
              Hu) as (envs' & Ha & _ & Hg & Hother & _).
  exists envs'. split; [exact Ha|]. split; [exact Hg|].
  apply Hother. lia.
Defined.

Lemma define_then_get_witness :
  Env.get (Env.define sample_envs 2 "a" VNil) 2 (sample_token IDENTIFIER "a")
  = Ok VNil
  /\ Env.get (Env.define sample_envs 2 "b" VNil) 2
       (sample_token IDENTIFIER "a")
     = Env.get sample_envs 2 (sample_token IDENTIFIER "a").
Proof.
  split.
  - exact (proj1 (define_then_get sample_envs 2 _
                    (sample_token IDENTIFIER "a") VNil eq_refl)).
  - apply (proj2 (define_then_get sample_envs 2 _
                    (sample_token IDENTIFIER "b") VNil eq_refl)).
    simpl. discriminate.
Defined.

Lemma sample_classes_ok : classes_ok sample_classes.
Proof.
  intros c C parent HC Hp.
  destruct c as [|[|c]]; simpl in HC; try discriminate;
    injection HC as <-; simpl in Hp; try discriminate;
    injection Hp as <-; lia.
Qed.

Lemma find_method_inherits_witness :
  classes_ok sample_classes
  /\ find_method_from (length sample_classes) sample_classes 1 "m"
     = find_method_from (length sample_classes) sample_classes 0 "m"
  /\ find_method_from (length sample_classes) sample_classes 0 "m" = Some 0.
Proof.
  split; [exact sample_classes_ok|]. split.
  - exact (proj1 (proj2 (find_method_inherits sample_classes 1 _ "m"
                           sample_classes_ok eq_refl)) 0 eq_refl eq_refl).
  - exact (proj1 (find_method_inherits sample_classes 0 _ "m"
                    sample_classes_ok eq_refl) 0 eq_refl).
Defined.

Lemma instance_set_then_get_witness :
  exists O i1,
    instances sample_object_interpreter !! 0 = Some O
    /\ LoxInstance_set 0 (sample_token IDENTIFIER "m") VNil
         sample_object_interpreter = (Ok tt, i1)
    /\ LoxInstance_get 0 (sample_token IDENTIFIER "m") i1 = (Ok VNil, i1).
Proof.
  destruct (instances sample_object_interpreter !! 0) as [O|] eqn:HO;
    [|vm_compute in HO; discriminate].
  exists O, (snd (LoxInstance_set 0 (sample_token IDENTIFIER "m") VNil
                    sample_object_interpreter)).
  split; [reflexivity|]. split; [reflexivity|].
  exact (instance_set_then_get sample_object_interpreter 0 O
           (sample_token IDENTIFIER "m") (sample_token IDENTIFIER "m") VNil
           HO eq_refl _ eq_refl).
Defined.

Lemma instance_get_method_witness :
  exists i1,
    LoxInstance_get 0 (sample_token IDENTIFIER "m") sample_object_interpreter
    = (Ok (VFunction (length (functions sample_object_interpreter))), i1)
    /\ LoxInstance_get 0 (sample_token IDENTIFIER "x")
         sample_object_interpreter
       = (Raise (RuntimeError (sample_token IDENTIFIER "x")
                   "Undefined property 'x'."), sample_object_interpreter).
Proof.
  destruct (instances sample_object_interpreter !! 0) as [O|] eqn:HO;
    [|vm_compute in HO; discriminate].
  assert (Hfields : forall name, fields O !! name = None).
  { intros name. vm_compute in HO. injection HO as <-. reflexivity. }
  assert (Hklass : klass O = 0).
  { vm_compute in HO. by injection HO as <-. }
  destruct (functions sample_object_interpreter !! 0) as [f|] eqn:Hf;
    [|vm_compute in Hf; discriminate].
  destruct (instance_get_method sample_object_interpreter 0 O
              (sample_token IDENTIFIER "m") HO (Hfields _)) as [Hfound _].
  destruct (instance_get_method sample_object_interpreter 0 O
              (sample_token IDENTIFIER "x") HO (Hfields _)) as [_ Hnone].
  eexists. split.
  - apply (Hfound 0 f); [rewrite Hklass; reflexivity | exact Hf].
  - apply Hnone. rewrite Hklass. reflexivity.
Defined.

Lemma call_checks_witness :
  evaluate sample_float_str sample_time 2
    (Expr.Call (Expr.Literal VNil) (sample_token RIGHT_PAREN ")") [])
    Interpreter_init
  = (Raise (RuntimeError (sample_token RIGHT_PAREN ")")
              "Can only call functions and classes."), Interpreter_init)
  /\ evaluate sample_float_str sample_time 2
       (Expr.Call (Expr.Variable_ 0 (sample_token IDENTIFIER "f"))
          (sample_token RIGHT_PAREN ")") []) sample_interpreter
     = (Raise (RuntimeError (sample_token RIGHT_PAREN ")")
                 "Expected 1 arguments but got 0."), sample_interpreter).
Proof.
  split.
  - exact (proj1 (call_checks sample_float_str sample_time 1
                    (Expr.Literal VNil) (sample_token RIGHT_PAREN ")") []
                    Interpreter_init VNil Interpreter_init []
                    Interpreter_init eq_refl eq_refl) eq_refl).
  - destruct (functions sample_interpreter !! 0) as [F|] eqn:HF;
      [|vm_compute in HF; discriminate].
    assert (Hparams : length (Stmt.params (declaration F)) = 1).
    { vm_compute in HF. by injection HF as <-. }
    pose proof (proj1 (proj2 (call_checks sample_float_str sample_time 1
                  (Expr.Variable_ 0 (sample_token IDENTIFIER "f"))
                  (sample_token RIGHT_PAREN ")") []
                  sample_interpreter (VFunction 0) sample_interpreter []
                  sample_interpreter eq_refl eq_refl)) 0 F eq_refl HF) as H.
    rewrite Hparams in H. apply H. simpl. lia.
Defined.

Lemma unary_operators_witness :
  evaluate sample_float_str sample_time 2
    (Expr.Unary (sample_token MINUS "-") (Expr.Literal (VBool true)))
    Interpreter_init
  = (Raise (RuntimeError (sample_token MINUS "-")
              "Operand must be a number."), Interpreter_init)
  /\ evaluate sample_float_str sample_time 3
       (Expr.Unary (sample_token BANG "!")
          (Expr.Unary (sample_token BANG "!") (Expr.Literal VNil)))
       Interpreter_init
     = (Ok (VBool false), Interpreter_init).
Proof.
  split.
  - exact (proj1 (proj2 (unary_operators sample_float_str sample_time 1
                           (sample_token MINUS "-") (Expr.Literal (VBool true))
                           Interpreter_init (VBool true) Interpreter_init
                           eq_refl)) eq_refl eq_refl).
  - exact (proj2 (proj2 (proj2 (unary_operators sample_float_str sample_time 1
                           (sample_token BANG "!") (Expr.Literal VNil)
                           Interpreter_init VNil Interpreter_init
                           eq_refl)) eq_refl)).
Defined.

Lemma block_unwinds_witness :
  execute_block (execute sample_float_str sample_time 2)
    ([] ++ Some (Stmt.Return (sample_token RETURN "return") None)
        :: [Some (Stmt.Print (Expr.Literal VNil))])
    0 Interpreter_init
  = (Raise (ReturnException VNil),
     set_environment (environment Interpreter_init)
       (set_environment 0 Interpreter_init)).
Proof.
  exact (block_unwinds (execute sample_float_str sample_time 2) []
           (Stmt.Return (sample_token RETURN "return") None)
           [Some (Stmt.Print (Expr.Literal VNil))] 0 Interpreter_init
           (set_environment 0 Interpreter_init) (ReturnException VNil)
           (set_environment 0 Interpreter_init) eq_refl eq_refl).
Defined.

Lemma stringify_number_witness :
  stringify sample_float_str (VNum float_zero) Interpreter_init
  = (Ok "1", Interpreter_init).
Proof.
  exact (proj1 (stringify_number sample_float_str float_zero Interpreter_init)
           "1" eq_refl).
Defined.


Lemma consume_or_report_witness :
  exists t,
    p_tokens sample_parser !! p_current sample_parser = Some t
    /\ Parse.consume LEFT_PAREN "Expect '('." sample_parser
       = (Ok t, Parse.set_current 2 sample_parser)
    /\ fst (Parse.consume SEMICOLON "Expect ';'." sample_parser)
       = Raise ParseError.
Proof.
  destruct (p_tokens sample_parser !! p_current sample_parser) as [t|] eqn:Ht;
    [|vm_compute in Ht; discriminate].
  assert (Htype : type t = LEFT_PAREN).
  { vm_compute in Ht. by injection Ht as <-. }
  exists t. split; [reflexivity|]. split.
  - apply (proj1 (consume_or_report sample_parser t LEFT_PAREN
                    "Expect '('." Ht)); [exact Htype|].
    rewrite Htype. discriminate.
  - rewrite (proj2 (consume_or_report sample_parser t SEMICOLON
                      "Expect ';'." Ht)); [reflexivity|].
    left. rewrite Htype. discriminate.
Defined.

Lemma resolve_local_depth_witness :
  locals (r_interpreter
            (Resolve.resolve_local 7 (sample_token IDENTIFIER "a")
               sample_resolver)) !! 7 = Some 1
  /\ Resolve.resolve_local 7 (sample_token IDENTIFIER "b") sample_resolver
     = sample_resolver.
Proof.
  split.
  - apply (proj1 (resolve_local_depth 7 (sample_token IDENTIFIER "a")
                    sample_resolver) 1 {["a" := true]}).
    + reflexivity.
    + exists true. reflexivity.
    + intros j s Hj Hs. destruct j as [|j]; [|lia].
      injection Hs as <-. reflexivity.
  - apply (proj2 (resolve_local_depth 7 (sample_token IDENTIFIER "b")
                    sample_resolver)).
    intros s [<-|[<-|[]]]; reflexivity.
Defined.

Lemma own_initializer_reported_witness :
  In "Error: Can't read local variable 'a' in its own initializer."
    (stdout (r_interpreter
               (Resolve.resolve_stmt
                  (Stmt.Var (sample_token IDENTIFIER "a")
                     (Some (Expr.Variable_ 0 (sample_token IDENTIFIER "a"))))
                  sample_resolver))).
Proof.
  apply (proj1 (own_initializer_reported (sample_token IDENTIFIER "a") 0
                  sample_resolver)).
  discriminate.
Defined.


